(** * xstd-js/event-emitter: the listener registry, the synchronous and the
      asynchronous dispatch, and the async-generator bridge

    A shallow embedding of [EventEmitter] (event-emitter.ts),
    [AsyncEventEmitter] (async-event-emitter.ts) and
    [EventEmitter.toAsyncGenerator], with the properties of their
    specification stated and proved over it.

    The two emitter classes share, line for line, their fields, [listen],
    the undo closure, [#clear] and the two guards of [#dispatch]; that part
    is embedded once.  Private fields of the class become the fields of a
    record which every method takes and returns.  Listeners are functions
    known by name; what a listener does when called is a list of
    statements: it may throw, register a listener, call an undo function,
    call [dispatch], catch what one of these throws, return a promise.  The
    loop of [#dispatch] reads the length of the registry at each iteration
    and need not terminate: its embedding counts iterations.  Promises are
    named, and their states are given from outside.

    [untilNext], [EventEmitter[Symbol.asyncIterator]] and [EventsEmitter]
    (events-emitter.ts), which keeps one [EventDispatcher] for each type of
    event, are embedded on top of these.

    [toAsyncGenerator] is embedded twice.  First its listener and its loop
    alone, over instants and sizes that are integers or infinite: this is
    enough for what is proved of the order of the values, of the bounds of
    the queue and of the drop-to-latest regime.  Then, in [Binary64], with
    JavaScript numbers as they are, fractions, NaN and rounded sums, and
    together with the emitter its first turn registers a listener on. *)

From Corelib Require PrimFloat FloatAxioms Uint63Axioms.
From Stdlib Require Import ZArith Lia.
From stdpp Require Import base decidable option list gmap.

(** ** Data *)

(** [GValue], the payload of an event: opaque to the emitter. *)
Definition GValue : Type := nat.

(** What an element of [#listeners] can be.  Functions are compared by
    identity ([listener !== noop], [indexOf(listener)]), so a listener is a
    name: [noop] is the one function exported by [@xstd/noop], [fn id] any
    other function.  [hole] is the empty element JavaScript leaves below an
    index written past the end of an array; it is not callable. *)
Inductive Listener : Type :=
| noop
| fn (id : nat)
| hole.

#[global] Instance Listener_eq_dec : EqDecision Listener.
Proof. solve_decision. Defined.

(** What can be thrown or be the reason of a rejected promise. *)
#[warnings="-register-all"]
Inductive Error : Type :=
| DispatchLoopDetected            (* new Error('Dispatch loop detected.') *)
| EventAlreadyEmitted             (* new Error('Event already emitted.')  *)
| TypeError                       (* calling what is not a function       *)
| Reason (r : nat)                (* anything user code throws            *)
| AggregateError (errors : list Error).

(** A promise returned by a listener, named; the environment settles it. *)
Definition Promise : Type := nat.

(** [EventEmitterListenAfterUniqueDispatched]. *)
Inductive ListenAfterUniqueDispatched : Type :=
| default                         (* ignore the listener *)
| error.                          (* throw an error      *)

#[global] Instance ListenAfterUniqueDispatched_eq_dec :
  EqDecision ListenAfterUniqueDispatched.
Proof. solve_decision. Defined.

(** The closure returned by [listen]: either [noop] itself, or the arrow
    function with its captured [listener] and its two mutable locals. *)
Inductive UndoFunction : Type :=
| undo_noop
| undo_fn (index : Z) (clearCount : nat) (listener : Listener).

(** How a call ends. [OutOfFuel] belongs to the model only: the loop of
    [#dispatch] need not terminate, so its embedding counts steps. *)
Inductive Completion : Type :=
| Returned (result : option Promise)
| Threw (e : Error)
| OutOfFuel.

(** What an execution lets one observe from outside; the last three record
    how each call of the synchronous [#dispatch] ended. *)
Inductive Event : Type :=
| Called (i : nat) (l : Listener) (value : GValue)  (* this.#listeners[i](value) *)
| Warned (listenersCount maxListeners : nat)        (* console.warn(...)          *)
| DispatchReturned                                  (* #dispatch returned            *)
| DispatchRefused (e : Error)                       (* #dispatch threw, lines 105-111 *)
| DispatchThrew (e : Error).                        (* a listener threw through it   *)

(** The private fields of an emitter, the undo closures handed out so far
    (a closure is named by its position) and the events so far. *)
Record World : Type := mkWorld {
  maxListeners : nat;
  unique : bool;
  listenAfterUniqueDispatched : ListenAfterUniqueDispatched;
  listeners : list Listener;
  unsubscribeCount : nat;
  clearCount : nat;
  dispatchCount : nat;
  dispatching : bool;
  undos : list UndoFunction;
  trace : list Event
}.

Definition set_listeners (ls : list Listener) (w : World) : World :=
  mkWorld (maxListeners w) (unique w) (listenAfterUniqueDispatched w) ls
    (unsubscribeCount w) (clearCount w) (dispatchCount w) (dispatching w)
    (undos w) (trace w).

Definition set_unsubscribeCount (n : nat) (w : World) : World :=
  mkWorld (maxListeners w) (unique w) (listenAfterUniqueDispatched w)
    (listeners w) n (clearCount w) (dispatchCount w) (dispatching w)
    (undos w) (trace w).

Definition set_clearCount (n : nat) (w : World) : World :=
  mkWorld (maxListeners w) (unique w) (listenAfterUniqueDispatched w)
    (listeners w) (unsubscribeCount w) n (dispatchCount w) (dispatching w)
    (undos w) (trace w).

Definition set_dispatchCount (n : nat) (w : World) : World :=
  mkWorld (maxListeners w) (unique w) (listenAfterUniqueDispatched w)
    (listeners w) (unsubscribeCount w) (clearCount w) n (dispatching w)
    (undos w) (trace w).

Definition set_dispatching (b : bool) (w : World) : World :=
  mkWorld (maxListeners w) (unique w) (listenAfterUniqueDispatched w)
    (listeners w) (unsubscribeCount w) (clearCount w) (dispatchCount w) b
    (undos w) (trace w).

Definition set_undos (us : list UndoFunction) (w : World) : World :=
  mkWorld (maxListeners w) (unique w) (listenAfterUniqueDispatched w)
    (listeners w) (unsubscribeCount w) (clearCount w) (dispatchCount w)
    (dispatching w) us (trace w).

(** Appends an event. *)
Definition note (e : Event) (w : World) : World :=
  mkWorld (maxListeners w) (unique w) (listenAfterUniqueDispatched w)
    (listeners w) (unsubscribeCount w) (clearCount w) (dispatchCount w)
    (dispatching w) (undos w) (trace w ++ [e]).

(** The statements a listener, or the code that owns the emitter, is made
    of.  [Undo h] calls the [h]-th undo function handed out. *)
Inductive Cmd : Type :=
| Throw (e : Error)               (* throw e                  *)
| Listen (l : Listener)           (* emitter.listen(l)        *)
| Undo (h : nat)                  (* undo_h()                 *)
| Dispatch (value : GValue)       (* dispatch(value)          *)
| Try (c : Cmd)                   (* try { c } catch {}       *)
| Return (p : Promise).           (* return p                 *)

(** The body of each function [fn id], given the value it is called with. *)
Definition Code : Type := nat → GValue → list Cmd.

(** ** The constructor *)

Definition maxUnsubscribeCount : nat := 0xff.

(** [new EventEmitter(init, { maxListeners, unique, listenAfterUniqueDispatched })] *)
Definition new_emitter (maxListeners : nat) (unique : bool)
    (listenAfterUniqueDispatched : ListenAfterUniqueDispatched) : World :=
  mkWorld maxListeners unique listenAfterUniqueDispatched [] 0 0 0 false [] [].

(** [new EventEmitter(init)]: [maxListeners = 10, unique = false,
    listenAfterUniqueDispatched = 'default']. *)
Definition default_emitter : World := new_emitter 10 false default.

(** ** Listener storage *)

(** [#isUniqueAndDone] *)
Definition isUniqueAndDone (w : World) : bool :=
  unique w && negb (dispatchCount w =? 0).

(** [#clear]: [filter] visits no hole and keeps what is not [noop]. *)
Definition clear (w : World) : World :=
  let w := set_unsubscribeCount 0 w in
  let w := set_clearCount (S (clearCount w)) w in
  set_listeners
    (filter (λ listener, listener ≠ noop ∧ listener ≠ hole) (listeners w)) w.

(** [#clearIfMaxUnsubscribeCountIsReached] *)
Definition clearIfMaxUnsubscribeCountIsReached (w : World) : World :=
  if (maxUnsubscribeCount <=? unsubscribeCount w) then clear w else w.

(** [checkMaxListeners(listenersCount, maxListeners)] *)
Definition checkMaxListeners (listenersCount maxListeners : nat) (w : World)
    : World :=
  if (maxListeners <? listenersCount)
  then note (Warned listenersCount maxListeners) w
  else w.

(** [Array.prototype.indexOf]: the first index holding [listener], or -1;
    holes are skipped. *)
Fixpoint indexOf_from (i : Z) (listener : Listener) (a : list Listener) : Z :=
  match a with
  | [] => -1
  | hole :: a' => indexOf_from (i + 1) listener a'
  | x :: a' =>
      if decide (x = listener) then i else indexOf_from (i + 1) listener a'
  end%Z.

Definition indexOf (listener : Listener) (a : list Listener) : Z :=
  indexOf_from 0%Z listener a.

(** [a[index] = x].  A negative index names a property, not an element;
    an index past the end extends the array, leaving holes below it. *)
Definition array_set (a : list Listener) (index : Z) (x : Listener)
    : list Listener :=
  if (index <? 0)%Z then a
  else if (index <? Z.of_nat (length a))%Z then <[Z.to_nat index := x]> a
  else a ++ replicate (Z.to_nat index - length a) hole ++ [x].

(** [listen(listener)]: the new world and, unless it throws, the undo
    function it returns, which is also stored as the last of [undos]. *)
Definition listen (listener : Listener) (w : World) : World * option Error :=
  if isUniqueAndDone w then
    if decide (listenAfterUniqueDispatched w = error)
    then (w, Some EventAlreadyEmitted)
    else (set_undos (undos w ++ [undo_noop]) w, None)
  else
    let index := Z.of_nat (length (listeners w)) in
    let clearCount := clearCount w in
    let w := set_listeners (listeners w ++ [listener]) w in
    let w := checkMaxListeners (length (listeners w)) (maxListeners w) w in
    (set_undos (undos w ++ [undo_fn index clearCount listener]) w, None).

(** A call of the [h]-th undo function. *)
Definition call_undo (h : nat) (w : World) : World :=
  match undos w !! h with
  | Some (undo_fn index count listener) =>
      if decide (index ≠ (-1)%Z) then
        let '(index, count) :=
          if decide (count ≠ clearCount w)
          then (indexOf listener (listeners w), clearCount w)
          else (index, count) in
        let w := set_listeners (array_set (listeners w) index noop) w in
        let w := set_undos (<[h := undo_fn (-1)%Z count listener]> (undos w)) w in
        clearIfMaxUnsubscribeCountIsReached w
      else w
  | Some undo_noop | None => w
  end.

(** ** Running statements and listeners *)

Section Run.
Variable code : Code.
(** What a statement [dispatch(value)] does: the [#dispatch] of the
    emitter that runs this code. *)
Variable dispatch_fn : GValue → World → World * Completion.

(** One statement; [None] when control goes on to the next one. *)
Fixpoint run_cmd (c : Cmd) (w : World) : World * option Completion :=
  match c with
  | Throw e => (w, Some (Threw e))
  | Listen l =>
      match listen l w with
      | (w, Some e) => (w, Some (Threw e))
      | (w, None) => (w, None)
      end
  | Undo h => (call_undo h w, None)
  | Dispatch value =>
      match dispatch_fn value w with
      | (w, Returned _) => (w, None)
      | (w, r) => (w, Some r)
      end
  | Try c =>
      match run_cmd c w with
      | (w, Some (Threw _)) => (w, None)
      | r => r
      end
  | Return p => (w, Some (Returned (Some p)))
  end.

(** A function body; falling off its end returns [undefined]. *)
Fixpoint run_cmds (cs : list Cmd) (w : World) : World * Completion :=
  match cs with
  | [] => (w, Returned None)
  | c :: cs =>
      match run_cmd c w with
      | (w, None) => run_cmds cs w
      | (w, Some r) => (w, r)
      end
  end.

(** [listener(value)] *)
Definition call_listener (l : Listener) (value : GValue) (w : World)
    : World * Completion :=
  match l with
  | noop => (w, Returned None)
  | fn id => run_cmds (code id value) w
  | hole => (w, Threw TypeError)
  end.

(** [for (let i = 0; i < this.#listeners.length; i++) this.#listeners[i](value);]
    from index [i] on, for at most [n] iterations.  The length is read
    again at every iteration. *)
Fixpoint for_each_listener (n i : nat) (value : GValue) (w : World)
    : World * Completion :=
  match listeners w !! i with
  | None => (w, Returned None)
  | Some l =>
      match n with
      | O => (w, OutOfFuel)
      | S n =>
          match call_listener l value (note (Called i l value) w) with
          | (w, Returned _) => for_each_listener n (S i) value w
          | r => r
          end
      end
  end.
End Run.

(** ** [EventEmitter.#dispatch] *)

(** What [#dispatch] does once every listener has been called. *)
Definition after_listeners (w : World) : World :=
  let w :=
    if unique w then set_listeners [] (set_clearCount 1 w)
    else clearIfMaxUnsubscribeCountIsReached w in
  set_dispatching false w.

(** What [#dispatch] does before it calls the first listener. *)
Definition before_listeners (w : World) : World :=
  let w := set_dispatching true w in
  set_dispatchCount (S (dispatchCount w)) w.

Fixpoint dispatch (code : Code) (fuel : nat) (value : GValue) (w : World)
    {struct fuel} : World * Completion :=
  match fuel with
  | O => (w, OutOfFuel)
  | S fuel =>
      if dispatching w then
        (note (DispatchRefused DispatchLoopDetected) w, Threw DispatchLoopDetected)
      else if isUniqueAndDone w then
        (note (DispatchRefused EventAlreadyEmitted) w, Threw EventAlreadyEmitted)
      else
        match for_each_listener code (dispatch code fuel) fuel 0 value
                (before_listeners w) with
        | (w, Returned _) => (note DispatchReturned (after_listeners w), Returned None)
        | (w, Threw e) => (note (DispatchThrew e) w, Threw e)
        | (w, OutOfFuel) => (w, OutOfFuel)
        end
  end.

(** Code that owns the emitter and its dispatch function. *)
Definition run (code : Code) (fuel : nat) (script : list Cmd) (w : World)
    : World * Completion :=
  run_cmds (dispatch code fuel) script w.

(** ** [AsyncEventEmitter.#dispatch] *)

(** Where the async function stands when its synchronous part is over. *)
Inductive AsyncCompletion : Type :=
| Awaiting (promises : list Promise)   (* at [await Promise.allSettled(promises)] *)
| RejectedNow (e : Error)              (* it threw: its promise is rejected       *)
| AsyncOutOfFuel.

(** A statement [dispatch(value);] of an async emitter gets a promise
    back and drops it: it never throws. *)
Definition dropped (r : World * AsyncCompletion) : World * Completion :=
  match r with
  | (w, AsyncOutOfFuel) => (w, OutOfFuel)
  | (w, _) => (w, Returned None)
  end.

Section AsyncRun.
Variable code : Code.
Variable dispatch_fn : GValue → World → World * Completion.

(** The loop of lines 95-100, with its [promises] array. *)
Fixpoint for_each_listener_async (n i : nat) (value : GValue)
    (promises : list Promise) (w : World) : World * AsyncCompletion :=
  match listeners w !! i with
  | None => (w, Awaiting promises)
  | Some l =>
      match n with
      | O => (w, AsyncOutOfFuel)
      | S n =>
          match call_listener code dispatch_fn l value
                  (note (Called i l value) w) with
          | (w, Returned None) =>
              for_each_listener_async n (S i) value promises w
          | (w, Returned (Some result)) =>
              for_each_listener_async n (S i) value (promises ++ [result]) w
          | (w, Threw e) => (w, RejectedNow e)
          | (w, OutOfFuel) => (w, AsyncOutOfFuel)
          end
      end
  end.
End AsyncRun.

Fixpoint async_dispatch (code : Code) (fuel : nat) (value : GValue) (w : World)
    {struct fuel} : World * AsyncCompletion :=
  match fuel with
  | O => (w, AsyncOutOfFuel)
  | S fuel =>
      if dispatching w then (w, RejectedNow DispatchLoopDetected)
      else if isUniqueAndDone w then (w, RejectedNow EventAlreadyEmitted)
      else
        match for_each_listener_async code
                (λ value w, dropped (async_dispatch code fuel value w))
                fuel 0 value [] (before_listeners w) with
        | (w, Awaiting promises) => (after_listeners w, Awaiting promises)
        | r => r
        end
  end.

(** The state of a promise at some instant. *)
Inductive PromiseState : Type :=
| Pending
| Fulfilled
| Rejected (reason : Error).

Inductive PromiseSettledResult : Type :=
| fulfilled
| rejected (reason : Error).

(** [Promise.allSettled(promises)] at an instant where the promises are in
    the states [st]: [None] while one of them is pending. *)
Fixpoint allSettled (st : Promise → PromiseState) (promises : list Promise)
    : option (list PromiseSettledResult) :=
  match promises with
  | [] => Some []
  | p :: promises =>
      match st p with
      | Pending => None
      | Fulfilled => cons fulfilled <$> allSettled st promises
      | Rejected reason => cons (rejected reason) <$> allSettled st promises
      end
  end.

(** Lines 113-119: the reasons of the rejected results, in order. *)
Fixpoint errors_of (results : list PromiseSettledResult) : list Error :=
  match results with
  | [] => []
  | fulfilled :: results => errors_of results
  | rejected reason :: results => reason :: errors_of results
  end.

(** Lines 121-123. *)
Definition throw_errors (errors : list Error) : PromiseState :=
  match errors with
  | [] => Fulfilled
  | [e] => Rejected e
  | _ => Rejected (AggregateError errors)
  end.

(** The state of the promise returned by the async [#dispatch]. *)
Definition completion (st : Promise → PromiseState) (c : AsyncCompletion)
    : PromiseState :=
  match c with
  | Awaiting promises =>
      match allSettled st promises with
      | None => Pending
      | Some results => throw_errors (errors_of results)
      end
  | RejectedNow e => Rejected e
  | AsyncOutOfFuel => Pending
  end.

(** ** [EventEmitter.toAsyncGenerator] *)

(** A number that is an integer or [Number.POSITIVE_INFINITY], with exact
    sums: what [bufferSize], [windowTime], [Date.now()] and
    [expirationDate] are when the options are integers or left out and no
    instant reaches 2^53.  [Binary64], further down, has every JavaScript
    number. *)
Inductive Num : Type :=
| finite (z : Z)
| infinity.

(** [a < b] *)
Definition num_lt (a b : Num) : bool :=
  match a, b with
  | finite x, finite y => (x <? y)%Z
  | finite _, infinity => true
  | infinity, _ => false
  end.

(** [a + b] *)
Definition num_add (a b : Num) : Num :=
  match a, b with
  | finite x, finite y => finite (x + y)
  | _, _ => infinity
  end.

(** [Math.max(0, a)] *)
Definition num_max0 (a : Num) : Num :=
  match a with
  | finite x => finite (Z.max 0 x)
  | infinity => infinity
  end.

(** [interface PendingValue] *)
Record PendingValue : Type := mkPendingValue {
  value : GValue;
  expirationDate : Num
}.

(** The locals of one running generator.  A [PromiseWithResolvers] is named
    by its rank of creation; [resolved] lists the calls of [resolve()]. *)
Record Generator : Type := mkGenerator {
  bufferSize : Num;
  windowTime : Num;
  values : list PendingValue;
  pendingRead : option nat;
  created : nat;
  resolved : list nat
}.

Definition set_values (vs : list PendingValue) (g : Generator) : Generator :=
  mkGenerator (bufferSize g) (windowTime g) vs (pendingRead g) (created g)
    (resolved g).

(** The locals when the body has run up to the loop: options clamped, no
    value, no pending read; the listener is registered from then on. *)
Definition generator_start (bufferSize windowTime : Num) : Generator :=
  mkGenerator (num_max0 bufferSize) (num_max0 windowTime) [] None 0 [].

(** [bufferSize > 0 && windowTime > 0] *)
Definition buffered (g : Generator) : bool :=
  num_lt (finite 0) (bufferSize g) && num_lt (finite 0) (windowTime g).

(** The listener of lines 219-243, called with [value] when [Date.now()]
    is [now]. *)
Definition generator_listener (now : Z) (value : GValue) (g : Generator)
    : Generator :=
  let g :=
    if buffered g then
      let g := set_values
                 (values g ++
                  [mkPendingValue value (num_add (finite now) (windowTime g))]) g in
      if num_lt (bufferSize g) (finite (Z.of_nat (length (values g))))
      then set_values (tail (values g)) g
      else g
    else
      match pendingRead g with
      | Some _ => set_values [mkPendingValue value infinity] g
      | None => g
      end in
  match pendingRead g with
  | Some p =>
      mkGenerator (bufferSize g) (windowTime g) (values g) None (created g)
        (resolved g ++ [p])
  | None => g
  end.

(** [while (values.length > 0 && values[0].expirationDate < now) values.shift();] *)
Fixpoint remove_expired (now : Z) (values : list PendingValue)
    : list PendingValue :=
  match values with
  | [] => []
  | v :: rest =>
      if num_lt (expirationDate v) (finite now) then remove_expired now rest
      else values
  end.

(** How one turn of the [while (true)] loop ends; [Done] is what a
    generator that is over answers. *)
Inductive Turn : Type :=
| Yield (value : GValue)          (* yield values.shift()!.value          *)
| Await (read : nat)              (* await pendingRead.promise            *)
| Aborted (reason : Error)        (* signal.throwIfAborted() threw        *)
| Done.                           (* { done: true }                       *)

(** One turn of the loop of lines 246-274, when [Date.now()] is [now];
    [signal] is the reason of the signal if there is one and it is aborted.
    The abort handler installed while awaiting is left out. *)
Definition generator_turn (signal : option Error) (now : Z) (g : Generator)
    : Generator * Turn :=
  match signal with
  | Some reason => (g, Aborted reason)
  | None =>
      let g := set_values (remove_expired now (values g)) g in
      match values g with
      | v :: rest => (set_values rest g, Yield (value v))
      | [] =>
          (mkGenerator (bufferSize g) (windowTime g) (values g)
             (Some (created g)) (S (created g)) (resolved g),
           Await (created g))
      end
  end.

(** The object [toAsyncGenerator(options)] returns.  The body of an
    [async *] function does not run before [next()] is first called: until
    then the listener of line 219 is not registered.  Once the body has
    thrown the generator is over, and [using stack] has unregistered the
    listener.  The emitter is left out here: the first turn is taken to
    register the listener, as [this.listen] does on an emitter that still
    takes listeners; [Binary64.resume] runs [this.listen] itself. *)
Inductive AsyncGenerator : Type :=
| suspended_start (bufferSize windowTime : Num)
| running (g : Generator)
| completed.

Definition toAsyncGenerator (bufferSize windowTime : Num) : AsyncGenerator :=
  suspended_start bufferSize windowTime.

(** A value dispatched by the emitter when [Date.now()] is [now]: it goes
    to the listener of the generator if that one is registered. *)
Definition dispatched (now : Z) (value : GValue) (a : AsyncGenerator)
    : AsyncGenerator :=
  match a with
  | running g => running (generator_listener now value g)
  | _ => a
  end.

(** The generator runs on for one turn of its loop: when [next()] is called
    on a generator suspended at its start or at a [yield], and when the
    read it awaits has been resolved. *)
Definition resume (signal : option Error) (now : Z) (a : AsyncGenerator)
    : AsyncGenerator * Turn :=
  let turn g :=
    match generator_turn signal now g with
    | (_, Aborted reason) => (completed, Aborted reason)
    | (g, t) => (running g, t)
    end in
  match a with
  | suspended_start bufferSize windowTime =>
      turn (generator_start bufferSize windowTime)
  | running g => turn g
  | completed => (completed, Done)
  end.

(** Values dispatched one after the other, each with its [Date.now()]. *)
Definition generator_listener_all (vs : list (Z * GValue)) (g : Generator)
    : Generator :=
  foldl (λ g nv, generator_listener nv.1 nv.2 g) g vs.

(** ** Vocabulary of the statements *)

(** The calls [this.#listeners[i](value)] of a trace, in order. *)
Definition calls (tr : list Event) : list (nat * Listener * GValue) :=
  omap (λ e, match e with Called i l v => Some (i, l, v) | _ => None end) tr.

(** The calls made when the loop visits, from index [i] on, slots that
    hold [ls] at the time each is visited. *)
Fixpoint numbered (i : nat) (value : GValue) (ls : list Listener)
    : list (nat * Listener * GValue) :=
  match ls with
  | [] => []
  | l :: ls => (i, l, value) :: numbered (S i) value ls
  end.

(** A world inside the loop of a dispatch, compaction not being due. *)
Definition busy (w : World) : Prop :=
  dispatching w = true ∧ unsubscribeCount w < maxUnsubscribeCount.

(** Events that code run by a listener can add while a dispatch is going
    on, other than calls of listeners. *)
Definition quiet (e : Event) : Prop :=
  match e with
  | Warned _ _ | DispatchRefused DispatchLoopDetected => True
  | _ => False
  end.

(** The same, calls of listeners included. *)
Definition inner (e : Event) : Prop :=
  match e with
  | Called _ _ _ | Warned _ _ | DispatchRefused DispatchLoopDetected => True
  | _ => False
  end.

(** Between compactions a registry only grows, and a slot only changes by
    becoming a tombstone. *)
Definition slots_le (a b : list Listener) : Prop :=
  length a ≤ length b ∧
  ∀ j l, a !! j = Some l → b !! j = Some l ∨ b !! j = Some noop.

(** What relates two worlds of one and the same dispatch cycle. *)
Record during (ok : Event → Prop) (w w' : World) : Prop := mkDuring {
  during_maxListeners : maxListeners w' = maxListeners w;
  during_unique : unique w' = unique w;
  during_listenAfter :
    listenAfterUniqueDispatched w' = listenAfterUniqueDispatched w;
  during_unsubscribeCount : unsubscribeCount w' = unsubscribeCount w;
  during_clearCount : clearCount w' = clearCount w;
  during_dispatchCount : dispatchCount w' = dispatchCount w;
  during_dispatching : dispatching w' = dispatching w;
  during_listeners : slots_le (listeners w) (listeners w');
  during_trace : ∃ evs, trace w' = trace w ++ evs ∧ Forall ok evs
}.

(** What a loop over the listeners has done when it stops: the slots visited,
    what they held then, and what they hold now. *)
Definition visited (i : nat) (value : GValue) (w w' : World)
    (ls : list Listener) : Prop :=
  during inner w w' ∧
  calls (trace w') = calls (trace w) ++ numbered i value ls ∧
  (∀ k l, ls !! k = Some l →
     listeners w' !! (i + k) = Some l ∨ listeners w' !! (i + k) = Some noop) ∧
  (∀ k l l0, ls !! k = Some l → listeners w !! (i + k) = Some l0 →
     l = l0 ∨ l = noop).

(** No call of [l] but those of [tr0]. *)
Definition no_new_call (l : Listener) (tr0 tr : list Event) : Prop :=
  ∀ j value, (j, l, value) ∈ calls tr → (j, l, value) ∈ calls tr0.

(** No call of a function from slot [i] but those of [tr0]. *)
Definition no_new_call_from (i : nat) (tr0 tr : list Event) : Prop :=
  ∀ id value, (i, fn id, value) ∈ calls tr → (i, fn id, value) ∈ calls tr0.

(** Slot [i] holds no function other than [noop] and will get none: it
    holds a tombstone or a hole, or the registry ends before it and
    [listen] no longer appends. *)
Definition retired (i : nat) (w : World) : Prop :=
  unsubscribeCount w < maxUnsubscribeCount ∧
  ((∃ l, listeners w !! i = Some l ∧ ∀ id, l ≠ fn id) ∨
   (length (listeners w) ≤ i ∧ isUniqueAndDone w = true)).

(** Every call of [#dispatch] that one of its two guards refused was
    refused with 'Event already emitted.' exactly when a call of
    [#dispatch] had returned before it. *)
Definition refusals_explained (tr : list Event) : Prop :=
  ∀ k e, tr !! k = Some (DispatchRefused e) →
    (e = EventAlreadyEmitted ↔ DispatchReturned ∈ take k tr).

(** What holds of a [unique] emitter between two statements of the code
    that owns it. *)
Definition unique_inv (w : World) : Prop :=
  unique w = true ∧
  unsubscribeCount w < maxUnsubscribeCount ∧
  refusals_explained (trace w) ∧
  (DispatchReturned ∈ trace w ↔ dispatching w = false ∧ dispatchCount w ≠ 0).

(** Two worlds that differ by their traces at most. *)
Definition trace_only (w w' : World) : Prop :=
  maxListeners w' = maxListeners w ∧ unique w' = unique w ∧
  listenAfterUniqueDispatched w' = listenAfterUniqueDispatched w ∧
  listeners w' = listeners w ∧ unsubscribeCount w' = unsubscribeCount w ∧
  clearCount w' = clearCount w ∧ dispatchCount w' = dispatchCount w ∧
  dispatching w' = dispatching w ∧ undos w' = undos w.

(** A statement that registers no listener but [allowed] ones. *)
Fixpoint registers_only (allowed : Listener → Prop) (c : Cmd) : Prop :=
  match c with
  | Listen l => allowed l
  | Try c => registers_only allowed c
  | _ => True
  end.

(** A listener that does nothing but call [dispatch] and catch what it
    throws. *)
Definition only_dispatches (code : Code) (value : GValue) (l : Listener) : Prop :=
  match l with
  | noop => True
  | fn id => Forall (λ c, ∃ v, c = Try (Dispatch v)) (code id value)
  | hole => False
  end.

(** A listener that does nothing but return [result]: a promise, or
    [undefined]. *)
Definition returns (code : Code) (value : GValue) (l : Listener)
    (result : option Promise) : Prop :=
  match l with
  | noop => result = None
  | fn id =>
      code id value = match result with Some p => [Return p] | None => [] end
  | hole => False
  end.

(** The reasons of the rejected ones among [promises], in order. *)
Definition reasons (st : Promise → PromiseState) (promises : list Promise)
    : list Error :=
  omap (λ p, match st p with Rejected reason => Some reason | _ => None end)
    promises.

(** ** Programs used as examples *)

(** Some listeners: [fn 1] registers [fn 2]; [fn 3] dispatches from inside
    its call, [fn 4] does and catches; [fn 5] throws; [fn 6], [fn 7] and
    [fn 8] return the promises 0, 1 and 2; any other does nothing. *)
Definition example_code : Code := λ id value,
  match id with
  | 1 => [Listen (fn 2)]
  | 3 => [Dispatch 7]
  | 4 => [Try (Dispatch 7)]
  | 5 => [Throw (Reason 9)]
  | 6 => [Return 0]
  | 7 => [Return 1]
  | 8 => [Return 2]
  | _ => []
  end.

(** [new EventEmitter(init)] on which [ls] have been registered in turn. *)
Definition emitter_with (ls : list Listener) : World :=
  (run example_code 1 (Listen <$> ls) default_emitter).1.

(** The same with [{ unique: true }]. *)
Definition unique_emitter_with (ls : list Listener) : World :=
  (run example_code 1 (Listen <$> ls) (new_emitter 10 true default)).1.

(** [n] listeners registered, then all of them unregistered. *)
Definition register_then_unregister (n : nat) : list Cmd :=
  ((λ id, Listen (fn id)) <$> seq 0 n) ++ (Undo <$> seq 0 n).

(** [fn 1] registers [fn 2], and [fn 2] unregisters itself when it is
    called: on an emitter on which [fn 1] alone has been registered, the
    undo function of [fn 2] is the second one handed out. *)
Definition self_removing_code : Code := λ id value,
  match id with
  | 1 => [Listen (fn 2)]
  | 2 => [Undo 1]
  | _ => []
  end.

(** Promise 0 is fulfilled, promise 1 is rejected with reason 2, any
    other with reason 3. *)
Definition example_states : Promise → PromiseState := λ p,
  match p with
  | 0 => Fulfilled
  | 1 => Rejected (Reason 2)
  | _ => Rejected (Reason 3)
  end.

(** ** Code that owns an [AsyncEventEmitter] *)

(** The [dispatch] of an async emitter returns a promise; a statement
    [dispatch(value);] drops it. *)
Definition run_async (code : Code) (fuel : nat) (script : list Cmd) (w : World)
    : World * Completion :=
  run_cmds (λ value w, dropped (async_dispatch code fuel value w)) script w.

(** ** [untilNext] *)

(** An [AbortSignal]: its reason once it is aborted. *)
Definition AbortSignal : Type := option Error.

(** The state of the promise [untilNext] returns. *)
Inductive UntilNextPromise : Type :=
| StillPending
| ResolvedWith (value : GValue)
| RejectedWith (reason : Error).

(** The function [untilNext] gives to [listen],
    [(value) => { end(); resolve(value); }], is a new function, [fn id].
    Its [end()] calls the undo function [stopSelfListener] and takes
    [onAbort] off the signal; its [resolve(value)] acts on the promise only,
    and is read off the calls of [fn id] in the trace. *)
Definition with_untilNext (id stopSelfListener : nat) (code : Code) : Code :=
  λ id' value,
    if decide (id' = id) then [Undo stopSelfListener] else code id' value.

(** What one call of [untilNext] leaves behind: its listener, the undo
    function [listen] returned if it returned, whether [onAbort] was given
    to the signal, and what [reject] was called with. *)
Record UntilNext : Type := mkUntilNext {
  selfListener : nat;
  stopSelfListener : option nat;
  onAbort : bool;
  rejection : option Error
}.

(** [untilNext({ signal })], the executor of its promise: what it throws
    rejects the promise.  [signal] is [None] when no signal is given. *)
Definition untilNext (signal : option AbortSignal) (id : nat) (code : Code)
    (w : World) : World * Code * UntilNext :=
  match signal with
  | Some (Some reason) =>                         (* signal.throwIfAborted() *)
      (w, code, mkUntilNext id None false (Some reason))
  | _ =>
      match listen (fn id) w with
      | (w', Some e) => (w', code, mkUntilNext id None false (Some e))
      | (w', None) =>
          let stop := length (undos w) in
          (w', with_untilNext id stop code,
           mkUntilNext id (Some stop)
             match signal with Some _ => true | None => false end None)
      end
  end.

(** The values [resolve] was called with: those [fn id] was called with. *)
Definition resolutions (id : nat) (tr : list Event) : list GValue :=
  omap (λ e, match e with
             | Called _ (fn id') value =>
                 if decide (id' = id) then Some value else None
             | _ => None
             end) tr.

(** The promise, the trace being [tr]: the first of [reject] and [resolve]
    to be called settles it. *)
Definition untilNext_promise (u : UntilNext) (tr : list Event)
    : UntilNextPromise :=
  match rejection u with
  | Some reason => RejectedWith reason
  | None =>
      match resolutions (selfListener u) tr with
      | value :: _ => ResolvedWith value
      | [] => StillPending
      end
  end.

(** The signal aborts with [reason]: [onAbort] runs if it is still on the
    signal, that is if it was put there and [end] has not run since. *)
Definition untilNext_abort (reason : Error) (u : UntilNext) (w : World)
    : World * UntilNext :=
  match stopSelfListener u, rejection u,
        resolutions (selfListener u) (trace w) with
  | Some stop, None, [] =>
      if onAbort u
      then (call_undo stop w,
            mkUntilNext (selfListener u) (Some stop) false (Some reason))
      else (w, u)
  | _, _, _ => (w, u)
  end.

(** ** [EventEmitter[Symbol.asyncIterator]] and the runs of a generator *)

(** [this.toAsyncGenerator()]: both options default to
    [Number.POSITIVE_INFINITY]. *)
Definition asyncIterator : AsyncGenerator := toAsyncGenerator infinity infinity.

(** What happens to a generator, seen from outside. *)
Inductive GeneratorStep : Type :=
| Dispatched (now : Z) (value : GValue)      (* the emitter dispatches [value] *)
| Resumed (signal : option Error) (now : Z). (* the body runs for one turn     *)

(** A generator taken through [steps]; the turns, in order. *)
Fixpoint generator_run (steps : list GeneratorStep) (a : AsyncGenerator)
    : AsyncGenerator * list Turn :=
  match steps with
  | [] => (a, [])
  | Dispatched now value :: steps =>
      generator_run steps (dispatched now value a)
  | Resumed signal now :: steps =>
      let '(a, turn) := resume signal now a in
      let '(a, turns) := generator_run steps a in
      (a, turn :: turns)
  end.

(** The values yielded by some turns. *)
Definition yields (turns : list Turn) : list GValue :=
  omap (λ t, match t with Yield value => Some value | _ => None end) turns.

(** The values dispatched by some steps. *)
Definition dispatched_values (steps : list GeneratorStep) : list GValue :=
  omap (λ s, match s with Dispatched _ value => Some value | _ => None end)
    steps.

(** The values a generator holds in its queue. *)
Definition queued (a : AsyncGenerator) : list GValue :=
  match a with
  | running g => value <$> values g
  | _ => []
  end.

(** ** [EventsEmitter] *)

(** [#map]: for each type of event that has been listened to, the emitter
    of its [EventDispatcher]. *)
Abbreviation EventsEmitter := (gmap nat World).

(** [new EventsEmitter(init)] *)
Definition new_events_emitter : EventsEmitter := ∅.

(** [listen(type, listener)]: [new EventDispatcher()], with no options,
    builds an emitter with the default ones. *)
Definition events_listen (type : nat) (listener : Listener) (m : EventsEmitter)
    : EventsEmitter * option Error :=
  let source := match m !! type with
                | Some source => source
                | None => default_emitter
                end in
  match listen listener source with
  | (source, r) => (<[type := source]> m, r)
  end.

(** The function given to [init]:
    [this.#map.get(type)?.dispatch(value)].  The listeners of a type run
    the code they run on an emitter of their own: [listen], the undo
    functions and [dispatch] are, in their bodies, those of their type. *)
Definition events_dispatch (code : Code) (fuel : nat) (type : nat)
    (value : GValue) (m : EventsEmitter) : EventsEmitter * Completion :=
  match m !! type with
  | None => (m, Returned None)
  | Some source =>
      match dispatch code fuel value source with
      | (source, r) => (<[type := source]> m, r)
      end
  end.

(** A call of the [h]-th undo function returned for [type]. *)
Definition events_undo (type h : nat) (m : EventsEmitter) : EventsEmitter :=
  match m !! type with
  | Some source => <[type := call_undo h source]> m
  | None => m
  end.

(** What the code that owns an [EventsEmitter] does with it; what a
    dispatch throws is caught. *)
Inductive EventsStep : Type :=
| ListenTo (type : nat) (listener : Listener)
| UndoOf (type h : nat)
| DispatchTo (type : nat) (value : GValue).

Fixpoint events_run (code : Code) (fuel : nat) (steps : list EventsStep)
    (m : EventsEmitter) : EventsEmitter :=
  match steps with
  | [] => m
  | ListenTo type listener :: steps =>
      events_run code fuel steps (events_listen type listener m).1
  | UndoOf type h :: steps =>
      events_run code fuel steps (events_undo type h m)
  | DispatchTo type value :: steps =>
      events_run code fuel steps (events_dispatch code fuel type value m).1
  end.

(** The types some steps listen to. *)
Definition listened_types (steps : list EventsStep) : list nat :=
  omap (λ s, match s with ListenTo type _ => Some type | _ => None end) steps.

(** The options of an emitter built by [new EventDispatcher()]. *)
Definition default_options (w : World) : Prop :=
  maxListeners w = 10 ∧ unique w = false ∧
  listenAfterUniqueDispatched w = default.

(** ** More vocabulary *)

(** A statement that calls no undo function but [allowed] ones. *)
Fixpoint undoes_only (allowed : nat → Prop) (c : Cmd) : Prop :=
  match c with
  | Undo h => allowed h
  | Try c => undoes_only allowed c
  | _ => True
  end.

(** What holds of the registry and of the undo functions handed out, on an
    emitter used through [listen], its undo functions and [dispatch] only:
    no slot is empty; [#unsubscribeCount] is 0, so that [#clear] has not
    run; [#clearCount] is 0, or it is 1 and the registry is the one a
    [unique] emitter is left with; an undo function that has not run yet
    was made when [#clearCount] was 0 and, as long as it still is, holds the
    index of a slot with its listener in it; no two of them hold the same
    index. *)
Definition handles_ok (w : World) : Prop :=
  (hole ∉ listeners w) ∧
  unsubscribeCount w = 0 ∧
  (clearCount w = 0 ∨
   (clearCount w = 1 ∧ listeners w = [] ∧ isUniqueAndDone w = true)) ∧
  (∀ h index count l,
     undos w !! h = Some (undo_fn index count l) → index ≠ (-1)%Z →
     count = 0 ∧
     (clearCount w = 0 →
      ∃ i, index = Z.of_nat i ∧ listeners w !! i = Some l)) ∧
  (∀ h h' index count count' l l',
     undos w !! h = Some (undo_fn index count l) →
     undos w !! h' = Some (undo_fn index count' l') →
     index ≠ (-1)%Z → h = h').

(** What holds of a [unique] emitter: the calls made so far are those of
    one cycle, and none has been made as long as no dispatch has got past
    the two checks. *)
Definition one_cycle (w : World) : Prop :=
  unique w = true ∧
  unsubscribeCount w < maxUnsubscribeCount ∧
  (dispatchCount w = 0 → calls (trace w) = []) ∧
  ∃ value ls, calls (trace w) = numbered 0 value ls.

(** A generator with the default options, none of whose values expires. *)
Definition unbounded (g : Generator) : Prop :=
  bufferSize g = infinity ∧ windowTime g = infinity ∧
  Forall (λ v, expirationDate v = infinity) (values g).

(** Steps none of which finds the signal aborted. *)
Definition no_abort (steps : list GeneratorStep) : Prop :=
  Forall (λ s, match s with Resumed (Some _) _ => False | _ => True end) steps.

(** A queue within the bounds of its regime: [bufferSize] values at most
    when values are buffered, one at most when they are not. *)
Definition within_bounds (g : Generator) : Prop :=
  if buffered g
  then num_lt (bufferSize g) (finite (Z.of_nat (length (values g)))) = false
  else length (values g) ≤ 1.

(** Where the listener [fn id] of a call of [untilNext] stands: [armed],
    it is in slot [i] and nowhere else, it has not been called, and its
    undo function [h] has not run; [fired], it has been called once, with
    [value], and is in the registry no more. *)
Definition armed (id h i : nat) (w : World) : Prop :=
  listeners w !! i = Some (fn id) ∧
  (∀ j, listeners w !! j = Some (fn id) → j = i) ∧
  undos w !! h = Some (undo_fn (Z.of_nat i) 0 (fn id)) ∧
  resolutions id (trace w) = [].

Definition fired (id : nat) (value : GValue) (w : World) : Prop :=
  (fn id ∉ listeners w) ∧ resolutions id (trace w) = [value].

(** What holds, while a cycle for [value] runs, of an emitter that has the
    listener of a call of [untilNext]. *)
Definition awaited (id h i : nat) (value : GValue) (w : World) : Prop :=
  dispatching w = true ∧ handles_ok w ∧ clearCount w = 0 ∧
  (armed id h i w ∨ fired id value w).

(** What holds at any time of an emitter on which such a listener has been
    registered: it is in slot [i] if it is anywhere, and as long as it is
    there its undo function [h] has not run. *)
Definition registered_once (id h i : nat) (w : World) : Prop :=
  handles_ok w ∧
  (∀ j, listeners w !! j = Some (fn id) → j = i) ∧
  (fn id ∈ listeners w →
   undos w !! h = Some (undo_fn (Z.of_nat i) 0 (fn id))).

(** ** [EventEmitter.toAsyncGenerator] with its numbers and its emitter *)

(** The generator once more, with nothing left out of its numbers nor of
    its start.  [bufferSize], [windowTime], [Date.now()] and
    [expirationDate] are JavaScript numbers, that is IEEE 754 binary64
    values: a size can be a fraction or NaN, and a sum is rounded.  And the
    body of the generator, when it starts, gives its listener to
    [this.listen]: a turn of the generator is a step of the emitter too. *)
Module Binary64.

(** A JavaScript [number]. *)
Definition number : Type := PrimFloat.float.

(** The number nearest to an integer, for one that is not negative and
    below 2^63: the integer itself below 2^53. *)
Definition number_of_Z (z : Z) : number :=
  PrimFloat.of_uint63 (Uint63Axioms.of_Z z).

(** The number an array length is: a length is below 2^32. *)
Definition number_of_nat (n : nat) : number := number_of_Z (Z.of_nat n).

(** [Math.max(a, b)]: NaN when one of the two is, and [+0] is more than
    [-0]. *)
Definition Math_max (a b : number) : number :=
  if PrimFloat.is_nan a || PrimFloat.is_nan b then PrimFloat.nan
  else if PrimFloat.ltb a b then b
  else if PrimFloat.ltb b a then a
  else if PrimFloat.get_sign a then b
  else a.

(** [interface PendingValue] *)
Record PendingValue : Type := mkPendingValue {
  value : GValue;
  expirationDate : number
}.

(** The locals of one running generator.  A [PromiseWithResolvers] is named
    by its rank of creation; [resolved] lists the calls of [resolve()].
    [stack] holds the one function deferred on the [DisposableStack]: the
    undo function that [this.listen] returned, known by its number. *)
Record Generator : Type := mkGenerator {
  bufferSize : number;
  windowTime : number;
  values : list PendingValue;
  pendingRead : option nat;
  stack : nat;
  created : nat;
  resolved : list nat
}.

Definition set_values (vs : list PendingValue) (g : Generator) : Generator :=
  mkGenerator (bufferSize g) (windowTime g) vs (pendingRead g) (stack g)
    (created g) (resolved g).

(** The locals when the body has run up to the loop, lines 205-244:
    options clamped, no value, no pending read, and on the stack the undo
    function [undo] that [this.listen] has just returned. *)
Definition generator_start (undo : nat) (bufferSize windowTime : number)
    : Generator :=
  mkGenerator (Math_max PrimFloat.zero bufferSize)
    (Math_max PrimFloat.zero windowTime) [] None undo 0 [].

(** [bufferSize > 0 && windowTime > 0] *)
Definition buffered (g : Generator) : bool :=
  PrimFloat.ltb PrimFloat.zero (bufferSize g) &&
  PrimFloat.ltb PrimFloat.zero (windowTime g).

(** The listener of lines 219-243, called with [value] when [Date.now()]
    is [now]. *)
Definition generator_listener (now : number) (value : GValue) (g : Generator)
    : Generator :=
  let g :=
    if buffered g then
      let g := set_values
                 (values g ++
                  [mkPendingValue value (PrimFloat.add now (windowTime g))]) g in
      if PrimFloat.ltb (bufferSize g) (number_of_nat (length (values g)))
      then set_values (tail (values g)) g
      else g
    else
      match pendingRead g with
      | Some _ => set_values [mkPendingValue value PrimFloat.infinity] g
      | None => g
      end in
  match pendingRead g with
  | Some p =>
      mkGenerator (bufferSize g) (windowTime g) (values g) None (stack g)
        (created g) (resolved g ++ [p])
  | None => g
  end.

(** [while (values.length > 0 && values[0].expirationDate < now) values.shift();] *)
Fixpoint remove_expired (now : number) (values : list PendingValue)
    : list PendingValue :=
  match values with
  | [] => []
  | v :: rest =>
      if PrimFloat.ltb (expirationDate v) now then remove_expired now rest
      else values
  end.

(** How a turn of the generator ends; [Done] is what a generator that is
    over answers. *)
Inductive Turn : Type :=
| Yield (value : GValue)          (* yield values.shift()!.value          *)
| Await (read : nat)              (* await pendingRead.promise            *)
| Raise (e : Error)               (* the body threw [e]                   *)
| Done.                           (* { done: true }                       *)

(** One turn of the loop of lines 246-274, from its head, when [Date.now()]
    is [now]; [signal] is the reason of the signal if there is one and it
    is aborted. *)
Definition generator_turn (signal : option Error) (now : number)
    (g : Generator) : Generator * Turn :=
  match signal with
  | Some reason => (g, Raise reason)
  | None =>
      let g := set_values (remove_expired now (values g)) g in
      match values g with
      | v :: rest => (set_values rest g, Yield (value v))
      | [] =>
          (mkGenerator (bufferSize g) (windowTime g) (values g)
             (Some (created g)) (stack g) (S (created g)) (resolved g),
           Await (created g))
      end
  end.

(** The object [toAsyncGenerator(options)] returns.  The body of an
    [async *] function does not run before [next()] is first called: until
    then the listener of line 219 does not exist.  [listener] names that
    function: it is [fn listener]. *)
Inductive AsyncGenerator : Type :=
| suspended_start (listener : nat) (bufferSize windowTime : number)
| running (listener : nat) (g : Generator)
| completed.

Definition toAsyncGenerator (listener : nat) (bufferSize windowTime : number)
    : AsyncGenerator :=
  suspended_start listener bufferSize windowTime.

(** The listener of the generator does nothing to the emitter: what it
    does to the locals of the generator is [generator_listener]. *)
Definition with_generator (a : AsyncGenerator) (code : Code) : Code :=
  λ id value,
    match a with
    | suspended_start listener _ _ | running listener _ =>
        if decide (id = listener) then [] else code id value
    | completed => code id value
    end.

(** [dispatch(value)] on the emitter of the generator, when [Date.now()]
    is [now]: every call of [fn listener] this dispatch makes runs the
    listener of the generator. *)
Definition dispatched (code : Code) (fuel : nat) (now : number)
    (value : GValue) (s : World * AsyncGenerator)
    : World * AsyncGenerator * Completion :=
  let '(w, a) := s in
  let '(w', r) := dispatch (with_generator a code) fuel value w in
  let a :=
    match a with
    | running listener g =>
        running listener
          (foldl (λ g value, generator_listener now value g) g
             (resolutions listener (drop (length (trace w)) (trace w'))))
    | _ => a
    end in
  (w', a, r).

(** The generator runs on, when [Date.now()] is [now]: [next()] is called
    on a generator suspended at its start or at a [yield], or the read it
    awaits has been resolved, or the signal has aborted, with [signal] its
    reason.  A generator that awaits a read not yet resolved stays where it
    is.  At its start the body first runs lines 205-244: what
    [this.listen] throws ends the generator.  When the body throws,
    [using stack] calls the undo function.  [return()] and [throw()] are
    left out. *)
Definition resume (signal : option Error) (now : number)
    (s : World * AsyncGenerator) : World * AsyncGenerator * Turn :=
  let '(w, a) := s in
  let turn listener g w :=
    match signal, pendingRead g with
    | None, Some read => (w, running listener g, Await read)
    | _, _ =>
        match generator_turn signal now g with
        | (g, Raise reason) => (call_undo (stack g) w, completed, Raise reason)
        | (g, t) => (w, running listener g, t)
        end
    end in
  match a with
  | suspended_start listener bufferSize windowTime =>
      match listen (fn listener) w with
      | (w', Some e) => (w', completed, Raise e)
      | (w', None) =>
          turn listener
            (generator_start (length (undos w)) bufferSize windowTime) w'
      end
  | running listener g => turn listener g w
  | completed => (w, completed, Done)
  end.

End Binary64.

(** ** Lemmas: listener storage *)

Lemma slots_le_refl a : slots_le a a.
Proof. split; [lia | auto]. Qed.

Lemma slots_le_trans a b c : slots_le a b → slots_le b c → slots_le a c.
Proof.
  intros [Hab Hab'] [Hbc Hbc']. split; [lia |].
  intros j l Hj. destruct (Hab' j l Hj) as [H | H];
    destruct (Hbc' _ _ H) as [H' | H']; auto.
Qed.

Lemma slots_le_app a l : slots_le a (a ++ l).
Proof.
  split; [rewrite length_app; lia |].
  intros j x Hj. left. by apply lookup_app_l_Some.
Qed.

Lemma slots_le_array_set a index : slots_le a (array_set a index noop).
Proof.
  unfold array_set. destruct (index <? 0)%Z eqn:Hneg; [apply slots_le_refl |].
  destruct (index <? Z.of_nat (length a))%Z eqn:Hin; [| apply slots_le_app].
  split; [by rewrite length_insert |].
  intros j l Hj. destruct (decide (j = Z.to_nat index)) as [-> | Hne].
  - right. apply list_lookup_insert_eq. by eapply lookup_lt_Some.
  - left. by rewrite list_lookup_insert_ne.
Qed.

Lemma during_refl ok w : during ok w w.
Proof.
  split; try reflexivity; [apply slots_le_refl |].
  exists []. by rewrite app_nil_r.
Qed.

Lemma during_trans ok w1 w2 w3 :
  during ok w1 w2 → during ok w2 w3 → during ok w1 w3.
Proof.
  intros [] []. split; try congruence.
  - by eapply slots_le_trans.
  - destruct during_trace0 as (e1 & H1 & F1), during_trace1 as (e2 & H2 & F2).
    exists (e1 ++ e2). rewrite H2, H1, app_assoc. split; [done |].
    by apply Forall_app.
Qed.

Lemma during_weaken (ok ok' : Event → Prop) w w' :
  (∀ e, ok e → ok' e) → during ok w w' → during ok' w w'.
Proof.
  intros Hok []. split; try done.
  destruct during_trace0 as (evs & H & F). exists evs. split; [done |].
  eapply Forall_impl; eauto.
Qed.

Lemma during_note (ok : Event → Prop) e w : ok e → during ok w (note e w).
Proof.
  intros He. split; try reflexivity; [apply slots_le_refl |].
  exists [e]. split; [done | by constructor].
Qed.

Lemma trace_note e w : trace (note e w) = trace w ++ [e].
Proof. done. Qed.

Lemma listeners_note e w : listeners (note e w) = listeners w.
Proof. done. Qed.

Lemma unique_note e w : unique (note e w) = unique w.
Proof. done. Qed.

Lemma unsubscribeCount_note e w :
  unsubscribeCount (note e w) = unsubscribeCount w.
Proof. done. Qed.

Lemma dispatching_note e w : dispatching (note e w) = dispatching w.
Proof. done. Qed.

Lemma dispatchCount_note e w : dispatchCount (note e w) = dispatchCount w.
Proof. done. Qed.

Lemma listen_during l w : during quiet w (listen l w).1.
Proof.
  unfold listen. destruct (isUniqueAndDone w).
  - destruct (decide _); simpl; split; simpl; try reflexivity;
      try apply slots_le_refl; exists []; by rewrite app_nil_r.
  - unfold checkMaxListeners. simpl.
    destruct (_ <? _); simpl; split; simpl; try reflexivity;
      try apply slots_le_app.
    + eexists [_]. split; [done | by constructor].
    + exists []. by rewrite app_nil_r.
Qed.

Lemma clearIfMax_id w :
  unsubscribeCount w < maxUnsubscribeCount →
  clearIfMaxUnsubscribeCountIsReached w = w.
Proof.
  intros H. unfold clearIfMaxUnsubscribeCountIsReached.
  destruct (_ <=? _) eqn:E; [| done]. apply Nat.leb_le in E. lia.
Qed.

Lemma call_undo_during h w :
  unsubscribeCount w < maxUnsubscribeCount → during quiet w (call_undo h w).
Proof.
  intros Hmax. unfold call_undo.
  destruct (undos w !! h) as [[| index count listener] |];
    try apply during_refl.
  destruct (decide _); [| apply during_refl].
  destruct (decide (count ≠ clearCount w));
    (rewrite clearIfMax_id by done); split; simpl; try reflexivity;
    try apply slots_le_array_set; exists []; by rewrite app_nil_r.
Qed.

Lemma dispatch_busy code fuel value w :
  dispatching w = true →
  dispatch code fuel value w = (w, OutOfFuel) ∨
  dispatch code fuel value w =
    (note (DispatchRefused DispatchLoopDetected) w, Threw DispatchLoopDetected).
Proof.
  intros H. destruct fuel; simpl; [by left |]. rewrite H. by right.
Qed.

Lemma async_dispatch_busy code fuel value w :
  dispatching w = true →
  async_dispatch code fuel value w = (w, AsyncOutOfFuel) ∨
  async_dispatch code fuel value w = (w, RejectedNow DispatchLoopDetected).
Proof.
  intros H. destruct fuel; simpl; [by left |]. rewrite H. by right.
Qed.

(** ** Lemmas: what a listener can do while a dispatch is going on *)

Section Busy.
Variable code : Code.
Variable dispatch_fn : GValue → World → World * Completion.
Hypothesis dispatch_fn_busy : ∀ value w, dispatching w = true →
  during quiet w (dispatch_fn value w).1.

Lemma busy_during ok w w' : busy w → during ok w w' → busy w'.
Proof. intros [Hd Hu] []. split; [congruence | lia]. Qed.

Lemma run_cmd_during c w : busy w → during quiet w (run_cmd dispatch_fn c w).1.
Proof.
  intros [Hd Hu]. induction c as [e | l | h | value | c IH | p]; simpl.
  - apply during_refl.
  - pose proof (listen_during l w) as H.
    by destruct (listen l w) as [w' [e |]].
  - by apply call_undo_during.
  - pose proof (dispatch_fn_busy value w Hd) as H.
    by destruct (dispatch_fn value w) as [w' [r | e |]].
  - by destruct (run_cmd dispatch_fn c w) as [w' [[r | e |] |]].
  - apply during_refl.
Qed.

Lemma run_cmds_during cs w :
  busy w → during quiet w (run_cmds dispatch_fn cs w).1.
Proof.
  revert w. induction cs as [| c cs IH]; intros w Hw; simpl.
  - apply during_refl.
  - pose proof (run_cmd_during c w Hw) as H.
    destruct (run_cmd dispatch_fn c w) as [w' [r |]]; [done |].
    simpl in H. eapply during_trans; [exact H |].
    apply IH. by eapply busy_during.
Qed.

Lemma call_listener_during l value w :
  busy w → during quiet w (call_listener code dispatch_fn l value w).1.
Proof.
  intros Hw. destruct l; simpl; try apply during_refl.
  by apply run_cmds_during.
Qed.
End Busy.

(** ** Lemmas: the loop over the listeners *)

Lemma calls_app tr1 tr2 : calls (tr1 ++ tr2) = calls tr1 ++ calls tr2.
Proof. apply omap_app. Qed.

Lemma calls_quiet evs : Forall quiet evs → calls evs = [].
Proof.
  induction 1 as [| e evs He _ IH]; [done |].
  change (e :: evs) with ([e] ++ evs). rewrite calls_app, IH. by destruct e.
Qed.

Lemma during_quiet_calls w w' :
  during quiet w w' → calls (trace w') = calls (trace w).
Proof.
  intros [_ _ _ _ _ _ _ _ (evs & -> & F)].
  by rewrite calls_app, (calls_quiet evs F), app_nil_r.
Qed.

Lemma quiet_inner e : quiet e → inner e.
Proof. by destruct e. Qed.

Lemma busy_note e w : busy w → busy (note e w).
Proof. by intros []. Qed.

Section Loop.
Variable code : Code.
Variable dispatch_fn : GValue → World → World * Completion.
Hypothesis dispatch_fn_busy : ∀ value w, dispatching w = true →
  during quiet w (dispatch_fn value w).1.

Lemma visited_nil i value w : visited i value w w [].
Proof.
  split; [apply during_refl |]. split; [by rewrite app_nil_r |].
  split; [intros k l H | intros k l l0 H]; by rewrite lookup_nil in H.
Qed.

Lemma visited_one i value w w' l :
  listeners w !! i = Some l →
  during quiet (note (Called i l value) w) w' →
  visited i value w w' [l].
Proof.
  intros Hi Hq.
  assert (during inner w w') as Hd.
  { eapply during_trans; [by apply (during_note inner (Called i l value)) |].
    eapply during_weaken; [apply quiet_inner | done]. }
  split; [done |]. split.
  { rewrite (during_quiet_calls _ _ Hq). simpl. by rewrite calls_app. }
  split.
  - intros [| k] l' Hk; simplify_list_eq. rewrite Nat.add_0_r.
    by apply (during_listeners _ _ _ Hd).
  - intros [| k] l' l0 Hk H0; simplify_list_eq. rewrite Nat.add_0_r in H0.
    left. congruence.
Qed.

Lemma visited_cons i value w w1 w' l ls :
  listeners w !! i = Some l →
  during quiet (note (Called i l value) w) w1 →
  visited (S i) value w1 w' ls →
  visited i value w w' (l :: ls).
Proof.
  intros Hi Hq (Hd' & Hc' & Hnow' & Hthen').
  destruct (visited_one i value w w1 l Hi Hq) as (Hd & Hc & Hnow & Hthen).
  split; [by eapply during_trans |]. split.
  { rewrite Hc', Hc. simpl. by rewrite <- app_assoc. }
  split.
  - intros [| k] l' Hk; simplify_list_eq.
    + rewrite Nat.add_0_r.
      apply (during_listeners _ _ _ (during_trans _ _ _ _ Hd Hd')), Hi.
    + replace (i + S k) with (S i + k) by lia. by apply Hnow'.
  - intros [| k] l' l0 Hk H0; simplify_list_eq.
    + rewrite Nat.add_0_r in H0. left. congruence.
    + replace (i + S k) with (S i + k) in H0 by lia.
      destruct (proj2 (during_listeners _ _ _ Hd) _ _ H0) as [H1 | H1];
        destruct (Hthen' _ _ _ Hk H1); auto.
Qed.

Lemma for_each_listener_visited n i value w w' r :
  busy w →
  for_each_listener code dispatch_fn n i value w = (w', r) →
  ∃ ls, visited i value w w' ls ∧
    (∀ p, r = Returned p → i ≤ length (listeners w) →
       i + length ls = length (listeners w')) ∧
    (∀ e, r = Threw e → ∃ ls0 l wk, ls = ls0 ++ [l] ∧ busy wk ∧
       call_listener code dispatch_fn l value wk = (w', Threw e)).
Proof.
  revert i w. induction n as [| n IH]; intros i w Hw; simpl;
    destruct (listeners w !! i) as [l |] eqn:Hi; intros Hrun;
    simplify_eq.
  - exists []. split; [apply visited_nil |]. done.
  - exists []. split; [apply visited_nil |]. split; [| done].
    intros _ _ Hle. apply lookup_ge_None in Hi. simpl. lia.
  - pose proof (busy_note (Called i l value) w Hw) as Hw1.
    pose proof (call_listener_during code dispatch_fn dispatch_fn_busy
                  l value _ Hw1) as Hq.
    destruct (call_listener code dispatch_fn l value
                (note (Called i l value) w)) as [w1 r1] eqn:Hcall.
    simpl in Hq. destruct r1 as [p | e |].
    + apply IH in Hrun as (ls & Hv & Hret & Hthrew);
        [| by eapply busy_during].
      exists (l :: ls). split; [by eapply visited_cons |]. split.
      * intros p' -> Hle. simpl.
        pose proof (proj1 (during_listeners _ _ _ Hq)) as Hlen. simpl in Hlen.
        apply lookup_lt_Some in Hi.
        rewrite <- (Hret p' eq_refl); lia.
      * intros e ->. destruct (Hthrew e eq_refl) as (ls0 & l' & wk & -> & ?).
        by exists (l :: ls0), l', wk.
    + simplify_eq. exists [l]. split; [by apply visited_one |].
      split; [done |]. intros e' [= <-].
      by exists [], l, (note (Called i l value) w).
    + simplify_eq. exists [l]. split; [by apply visited_one |]. done.
  - exists []. split; [apply visited_nil |]. split; [| done].
    intros _ _ Hle. apply lookup_ge_None in Hi. simpl. lia.
Qed.
End Loop.

Section AsyncLoop.
Variable code : Code.
Variable dispatch_fn : GValue → World → World * Completion.
Hypothesis dispatch_fn_busy : ∀ value w, dispatching w = true →
  during quiet w (dispatch_fn value w).1.

Lemma for_each_listener_async_visited n i value promises w w' r :
  busy w →
  for_each_listener_async code dispatch_fn n i value promises w = (w', r) →
  ∃ ls, visited i value w w' ls ∧
    (∀ ps, r = Awaiting ps → i ≤ length (listeners w) →
       i + length ls = length (listeners w')) ∧
    (∀ e, r = RejectedNow e → ∃ ls0 l wk, ls = ls0 ++ [l] ∧ busy wk ∧
       call_listener code dispatch_fn l value wk = (w', Threw e)).
Proof.
  revert i promises w. induction n as [| n IH]; intros i promises w Hw; simpl;
    destruct (listeners w !! i) as [l |] eqn:Hi; intros Hrun;
    simplify_eq.
  - exists []. split; [apply visited_nil |]. done.
  - exists []. split; [apply visited_nil |]. split; [| done].
    intros _ _ Hle. apply lookup_ge_None in Hi. simpl. lia.
  - pose proof (busy_note (Called i l value) w Hw) as Hw1.
    pose proof (call_listener_during code dispatch_fn dispatch_fn_busy
                  l value _ Hw1) as Hq.
    destruct (call_listener code dispatch_fn l value
                (note (Called i l value) w)) as [w1 r1] eqn:Hcall.
    simpl in Hq.
    assert (∀ promises', for_each_listener_async code dispatch_fn n (S i)
              value promises' w1 = (w', r) →
            ∃ ls, visited i value w w' ls ∧
              (∀ ps, r = Awaiting ps → i ≤ length (listeners w) →
                 i + length ls = length (listeners w')) ∧
              (∀ e, r = RejectedNow e → ∃ ls0 l wk, ls = ls0 ++ [l] ∧
                 busy wk ∧
                 call_listener code dispatch_fn l value wk = (w', Threw e)))
      as Hnext.
    { intros promises' Hrun'.
      apply IH in Hrun' as (ls & Hv & Hret & Hthrew);
        [| by eapply busy_during].
      exists (l :: ls). split; [by eapply visited_cons |]. split.
      - intros ps -> Hle. simpl.
        pose proof (proj1 (during_listeners _ _ _ Hq)) as Hlen. simpl in Hlen.
        apply lookup_lt_Some in Hi.
        rewrite <- (Hret ps eq_refl); lia.
      - intros e ->. destruct (Hthrew e eq_refl) as (ls0 & l' & wk & -> & ?).
        by exists (l :: ls0), l', wk. }
    destruct r1 as [[p |] | e |]; eauto.
    + simplify_eq. exists [l]. split; [by apply visited_one |].
      split; [done |]. intros e' [= <-].
      by exists [], l, (note (Called i l value) w).
    + simplify_eq. exists [l]. split; [by apply visited_one |]. done.
  - exists []. split; [apply visited_nil |]. split; [| done].
    intros _ _ Hle. apply lookup_ge_None in Hi. simpl. lia.
Qed.
End AsyncLoop.

(** ** Lemmas: the two [#dispatch] *)

Lemma dispatch_during_busy code fuel value w :
  dispatching w = true → during quiet w (dispatch code fuel value w).1.
Proof.
  intros H. destruct (dispatch_busy code fuel value w H) as [-> | ->]; simpl.
  - apply during_refl.
  - by apply (during_note quiet).
Qed.

Lemma async_dispatch_during_busy code fuel value w :
  dispatching w = true →
  during quiet w (dropped (async_dispatch code fuel value w)).1.
Proof.
  intros H. destruct (async_dispatch_busy code fuel value w H) as [-> | ->];
    simpl; apply during_refl.
Qed.

Lemma busy_before_listeners w :
  unsubscribeCount w < maxUnsubscribeCount → busy (before_listeners w).
Proof. by split. Qed.

Lemma after_listeners_listeners w :
  unique w = false → unsubscribeCount w < maxUnsubscribeCount →
  listeners (after_listeners w) = listeners w.
Proof.
  intros Hu Hmax. unfold after_listeners. rewrite Hu.
  by rewrite clearIfMax_id.
Qed.

(** ** Lemmas: invariants of running code *)

Lemma registers_only_any c : registers_only (λ _, True) c.
Proof. induction c; simpl; auto. Qed.

Lemma after_listeners_fields w :
  unique (after_listeners w) = unique w ∧
  dispatching (after_listeners w) = false ∧
  dispatchCount (after_listeners w) = dispatchCount w ∧
  unsubscribeCount (after_listeners w) ≤ unsubscribeCount w.
Proof.
  unfold after_listeners, clearIfMaxUnsubscribeCountIsReached.
  destruct (unique w) eqn:Hu; [by simpl |].
  destruct (_ <=? _); simpl; repeat split; auto; lia.
Qed.

Lemma dispatchCount_clearIfMax w :
  dispatchCount (clearIfMaxUnsubscribeCountIsReached w) = dispatchCount w.
Proof. unfold clearIfMaxUnsubscribeCountIsReached. by destruct (_ <=? _). Qed.

Lemma dispatchCount_call_undo h w :
  dispatchCount (call_undo h w) = dispatchCount w.
Proof.
  unfold call_undo. destruct (undos w !! h) as [[| index count l] |]; try done.
  destruct (decide _); [| done].
  destruct (decide (count ≠ clearCount w)); by rewrite dispatchCount_clearIfMax.
Qed.

Lemma dispatchCount_listen l w : dispatchCount (listen l w).1 = dispatchCount w.
Proof. apply (during_dispatchCount _ _ _ (listen_during l w)). Qed.

Section InvariantOfBodies.
Variable code : Code.
Variable allowed : Listener → Prop.
Variable P : World → Prop.
Hypothesis code_allowed : ∀ id value, Forall (registers_only allowed) (code id value).
Hypothesis P_listen : ∀ l w, allowed l → P w → P (listen l w).1.
Hypothesis P_undo : ∀ h w, P w → P (call_undo h w).
Hypothesis P_called : ∀ i l value w,
  listeners w !! i = Some l → P w → P (note (Called i l value) w).
Variable dispatch_fn : GValue → World → World * Completion.
Hypothesis P_dispatch_fn : ∀ value w, P w → P (dispatch_fn value w).1.

Lemma run_cmd_inv c w :
  registers_only allowed c → P w → P (run_cmd dispatch_fn c w).1.
Proof.
  intros Hc Hw. induction c as [e | l | h | value | c IH | p]; simpl; auto.
  - pose proof (P_listen l w Hc Hw) as H.
    by destruct (listen l w) as [w' [e |]].
  - pose proof (P_dispatch_fn value w Hw) as H.
    by destruct (dispatch_fn value w) as [w' [r | e |]].
  - specialize (IH Hc).
    by destruct (run_cmd dispatch_fn c w) as [w' [[r | e |] |]].
Qed.

Lemma run_cmds_inv cs w :
  Forall (registers_only allowed) cs → P w → P (run_cmds dispatch_fn cs w).1.
Proof.
  intros Hcs. revert w. induction Hcs as [| c cs Hc _ IH]; intros w Hw; simpl.
  - done.
  - pose proof (run_cmd_inv c w Hc Hw) as H.
    destruct (run_cmd dispatch_fn c w) as [w' [r |]]; auto.
Qed.

Lemma call_listener_inv l value w :
  P w → P (call_listener code dispatch_fn l value w).1.
Proof. intros Hw. destruct l; simpl; auto using run_cmds_inv. Qed.

Lemma for_each_listener_inv n i value w :
  P w → P (for_each_listener code dispatch_fn n i value w).1.
Proof.
  revert i w. induction n as [| n IH]; intros i w Hw; simpl;
    destruct (listeners w !! i) as [l |] eqn:Hi; try done.
  pose proof (call_listener_inv l value _ (P_called i l value w Hi Hw)) as H.
  destruct (call_listener code dispatch_fn l value _) as [w1 [r | e |]];
    auto.
Qed.
End InvariantOfBodies.

(** A property of worlds that every step of [listen], of the undo
    functions and of [#dispatch] keeps is kept by whatever code runs; when
    [#dispatch] gets to what follows its loop, [#dispatchCount] is not 0. *)
Section Invariant.
Variable code : Code.
Variable allowed : Listener → Prop.
Variable P : World → Prop.
Hypothesis code_allowed : ∀ id value, Forall (registers_only allowed) (code id value).
Hypothesis P_listen : ∀ l w, allowed l → P w → P (listen l w).1.
Hypothesis P_undo : ∀ h w, P w → P (call_undo h w).
Hypothesis P_called : ∀ i l value w,
  listeners w !! i = Some l → P w → P (note (Called i l value) w).
Hypothesis P_refused : ∀ e w, P w → P (note (DispatchRefused e) w).
Hypothesis P_threw : ∀ e w, P w → P (note (DispatchThrew e) w).
Hypothesis P_before : ∀ w, P w → P (before_listeners w).
Hypothesis P_after : ∀ w,
  P w → dispatchCount w ≠ 0 → P (note DispatchReturned (after_listeners w)).

Lemma dispatch_inv_count fuel value w :
  P w →
  P (dispatch code fuel value w).1 ∧
  dispatchCount w ≤ dispatchCount (dispatch code fuel value w).1.
Proof.
  revert value w. induction fuel as [| fuel IH]; intros value w Hw; simpl.
  - done.
  - destruct (dispatching w); [by split; [apply P_refused |] |].
    destruct (isUniqueAndDone w); [by split; [apply P_refused |] |].
    pose proof (for_each_listener_inv code allowed
                  (λ w', P w' ∧ S (dispatchCount w) ≤ dispatchCount w')
                  code_allowed) as Hloop.
    destruct (Hloop) with (dispatch_fn := dispatch code fuel) (n := fuel)
      (i := 0) (value := value) (w := before_listeners w) as [HP Hcount].
    + intros l w' Hl [HP' Hc']. split; [by apply P_listen |].
      by rewrite dispatchCount_listen.
    + intros h w' [HP' Hc']. split; [by apply P_undo |].
      by rewrite dispatchCount_call_undo.
    + intros i l v w' Hi [HP' Hc']. split; [by apply P_called | done].
    + intros v w' [HP' Hc']. destruct (IH v w' HP') as [HP'' Hc''].
      split; [done | lia].
    + split; [by apply P_before | done].
    + destruct (for_each_listener code _ fuel 0 value _) as [w1 [r | e |]];
        cbn [fst] in *.
      * split; [apply P_after; [done | lia] |].
        rewrite dispatchCount_note.
        pose proof (after_listeners_fields w1) as (_ & _ & -> & _). lia.
      * split; [by apply P_threw | rewrite dispatchCount_note; lia].
      * split; [done | lia].
Qed.

Lemma dispatch_inv fuel value w : P w → P (dispatch code fuel value w).1.
Proof. intros Hw. by apply dispatch_inv_count. Qed.

Lemma run_inv fuel script w :
  Forall (registers_only allowed) script → P w → P (run code fuel script w).1.
Proof. apply run_cmds_inv; auto. intros. by apply dispatch_inv. Qed.
End Invariant.

(** ** Lemmas: a listener that is not in the registry is not called *)

Lemma listen_listeners l w :
  listeners (listen l w).1 = listeners w ∨
  listeners (listen l w).1 = listeners w ++ [l].
Proof.
  unfold listen. destruct (isUniqueAndDone w).
  - left. by destruct (decide _).
  - right. unfold checkMaxListeners. simpl. by destruct (_ <? _).
Qed.

Lemma trace_clearIfMax w :
  trace (clearIfMaxUnsubscribeCountIsReached w) = trace w.
Proof. unfold clearIfMaxUnsubscribeCountIsReached. by destruct (_ <=? _). Qed.

Lemma undos_clearIfMax w :
  undos (clearIfMaxUnsubscribeCountIsReached w) = undos w.
Proof. unfold clearIfMaxUnsubscribeCountIsReached. by destruct (_ <=? _). Qed.

Lemma notin_clearIfMax x w :
  x ∉ listeners w → x ∉ listeners (clearIfMaxUnsubscribeCountIsReached w).
Proof.
  unfold clearIfMaxUnsubscribeCountIsReached. destruct (_ <=? _); [| done].
  simpl. intros H Hin. by apply list_elem_of_filter in Hin as [_ Hin].
Qed.

Lemma notin_array_set id a index : fn id ∉ a → fn id ∉ array_set a index noop.
Proof.
  unfold array_set. intros H. destruct (_ <? _)%Z; [done |].
  destruct (_ <? _)%Z.
  - intros Hin. apply list_elem_of_lookup in Hin as [j Hj].
    destruct (decide (j = Z.to_nat index)) as [-> | Hne].
    + rewrite list_lookup_insert_eq in Hj; [done |].
      apply lookup_lt_Some in Hj. by rewrite length_insert in Hj.
    + rewrite list_lookup_insert_ne in Hj by done.
      apply H. by eapply list_elem_of_lookup_2.
  - rewrite !elem_of_app, elem_of_replicate, list_elem_of_singleton.
    intros [? | [[? _] | ?]]; done.
Qed.

Lemma trace_call_undo h w : trace (call_undo h w) = trace w.
Proof.
  unfold call_undo. destruct (undos w !! h) as [[| index count l] |]; try done.
  destruct (decide _); [| done].
  destruct (decide (count ≠ clearCount w)); by rewrite trace_clearIfMax.
Qed.

Lemma notin_call_undo id h w :
  fn id ∉ listeners w → fn id ∉ listeners (call_undo h w).
Proof.
  intros H. unfold call_undo.
  destruct (undos w !! h) as [[| index count l] |]; try done.
  destruct (decide _); [| done].
  destruct (decide (count ≠ clearCount w));
    apply notin_clearIfMax; simpl; by apply notin_array_set.
Qed.

Lemma notin_after_listeners x w :
  x ∉ listeners w → x ∉ listeners (after_listeners w).
Proof.
  unfold after_listeners. destruct (unique w); simpl.
  - intros _. apply not_elem_of_nil.
  - apply notin_clearIfMax.
Qed.

Lemma trace_after_listeners w : trace (after_listeners w) = trace w.
Proof.
  unfold after_listeners. destruct (unique w); simpl; [done |].
  apply trace_clearIfMax.
Qed.

Lemma no_new_call_note l tr0 tr e :
  (∀ j value, e ≠ Called j l value) →
  no_new_call l tr0 tr → no_new_call l tr0 (tr ++ [e]).
Proof.
  intros He H j value. rewrite calls_app, elem_of_app. intros [Hin | Hin].
  - by apply H.
  - destruct e; simpl in Hin; try by apply elem_of_nil in Hin.
    apply list_elem_of_singleton in Hin. destruct (He j value). congruence.
Qed.

Lemma unregistered_not_called code id tr0 fuel script w :
  (∀ id' value, Forall (registers_only (λ l, l ≠ fn id)) (code id' value)) →
  Forall (registers_only (λ l, l ≠ fn id)) script →
  (fn id ∉ listeners w) →
  no_new_call (fn id) tr0 (trace w) →
  no_new_call (fn id) tr0 (trace (run code fuel script w).1).
Proof.
  intros Hcode Hscript Hnotin Hcalls.
  refine (proj2 (run_inv code (λ l, l ≠ fn id)
           (λ w, (fn id ∉ listeners w) ∧ no_new_call (fn id) tr0 (trace w))
           Hcode _ _ _ _ _ _ _ fuel script w Hscript (conj Hnotin Hcalls)));
    clear.
  - intros l w Hl [Hnotin Hcalls]. split.
    + destruct (listen_listeners l w) as [-> | ->]; [done |].
      rewrite elem_of_app, list_elem_of_singleton. by intros [? | ?].
    + unfold no_new_call.
      by rewrite (during_quiet_calls _ _ (listen_during l w)).
  - intros h w [Hnotin Hcalls]. split; [by apply notin_call_undo |].
    by rewrite trace_call_undo.
  - intros i l value w Hi [Hnotin Hcalls]. split; [done |].
    apply no_new_call_note; [| done]. intros j value' [= ? ? ?]. subst.
    apply Hnotin. by eapply list_elem_of_lookup_2.
  - intros e w [Hnotin Hcalls]. split; [done |].
    by apply no_new_call_note.
  - intros e w [Hnotin Hcalls]. split; [done |].
    by apply no_new_call_note.
  - by intros w [Hnotin Hcalls].
  - intros w [Hnotin Hcalls] _. split; [by apply notin_after_listeners |].
    rewrite trace_note, trace_after_listeners. by apply no_new_call_note.
Qed.

(** ** Lemmas: the undo function *)

Lemma call_undo_idempotent h w : call_undo h (call_undo h w) = call_undo h w.
Proof.
  unfold call_undo at 2 3.
  destruct (undos w !! h) as [[| index count l] |] eqn:Hh;
    try (unfold call_undo; by rewrite Hh).
  destruct (decide (index ≠ (-1)%Z)) as [Hi | Hi].
  - assert (h < length (undos w)) as Hlt by by eapply lookup_lt_Some.
    destruct (decide (count ≠ clearCount w)); unfold call_undo;
      rewrite undos_clearIfMax; simpl;
      rewrite list_lookup_insert_eq by done; by destruct (decide _).
  - unfold call_undo. rewrite Hh. by destruct (decide _).
Qed.

Lemma indexOf_from_first s id a i :
  a !! i = Some (fn id) →
  (∀ j, a !! j = Some (fn id) → j = i) →
  indexOf_from s (fn id) a = (s + Z.of_nat i)%Z.
Proof.
  revert s i. induction a as [| x a IH]; intros s i Hi Hfirst; [done |].
  destruct i as [| i]; simpl in *.
  - simplify_eq. destruct (decide _); [lia | done].
  - assert (x ≠ fn id) as Hx.
    { intros ->. by specialize (Hfirst 0 eq_refl). }
    rewrite (IH (s + 1)%Z i Hi).
    + destruct x; try destruct (decide _); try done; lia.
    + intros j Hj. specialize (Hfirst (S j) Hj). lia.
Qed.

Lemma notin_tombstoned id a i :
  (∀ j, a !! j = Some (fn id) → j = i) →
  fn id ∉ array_set a (Z.of_nat i) noop.
Proof.
  intros Honly Hin. apply list_elem_of_lookup in Hin as [j Hj].
  unfold array_set in Hj.
  destruct (Z.ltb_spec (Z.of_nat i) 0) as [? | _]; [lia |].
  rewrite Nat2Z.id in Hj.
  destruct (Z.ltb_spec (Z.of_nat i) (Z.of_nat (length a))) as [Hlt | Hge].
  - destruct (decide (j = i)) as [-> | Hne].
    + rewrite list_lookup_insert_eq in Hj by lia. done.
    + rewrite list_lookup_insert_ne in Hj by done.
      by apply Honly in Hj.
  - assert (fn id ∈ a ++ replicate (i - length a) hole ++ [noop]) as Hin
      by by eapply list_elem_of_lookup_2.
    rewrite !elem_of_app, elem_of_replicate, list_elem_of_singleton in Hin.
    destruct Hin as [Hin | [[? _] | ?]]; try done.
    apply list_elem_of_lookup in Hin as [k Hk].
    pose proof (Honly k Hk) as ->. apply lookup_lt_Some in Hk. lia.
Qed.

Lemma notin_after_call_undo h i id w index count :
  undos w !! h = Some (undo_fn index count (fn id)) →
  index ≠ (-1)%Z →
  (count = clearCount w → index = Z.of_nat i) →
  listeners w !! i = Some (fn id) →
  (∀ j, listeners w !! j = Some (fn id) → j = i) →
  fn id ∉ listeners (call_undo h w).
Proof.
  intros Hh Hindex Hcount Hi Honly. unfold call_undo. rewrite Hh.
  destruct (decide _); [| done].
  destruct (decide (count ≠ clearCount w)) as [Hne | Heq];
    apply notin_clearIfMax; simpl.
  - unfold indexOf. rewrite (indexOf_from_first 0 id _ i Hi Honly).
    by apply notin_tombstoned.
  - rewrite Hcount by (by destruct (decide (count = clearCount w))).
    by apply notin_tombstoned.
Qed.

(** ** Lemmas: a slot that holds a tombstone calls no listener *)

Lemma array_set_keeps_retired a index i :
  (∃ l, a !! i = Some l ∧ ∀ id, l ≠ fn id) →
  ∃ l, array_set a index noop !! i = Some l ∧ ∀ id, l ≠ fn id.
Proof.
  intros (l & Hi & Hl). unfold array_set.
  destruct (_ <? _)%Z; [by exists l |].
  destruct (_ <? _)%Z.
  - destruct (decide (i = Z.to_nat index)) as [-> | Hne].
    + exists noop. split; [| done]. apply list_lookup_insert_eq.
      by eapply lookup_lt_Some.
    + exists l. by rewrite list_lookup_insert_ne.
  - exists l. split; [| done]. by apply lookup_app_l_Some.
Qed.

Lemma array_set_beyond a index i :
  length a ≤ i →
  (∃ l, array_set a index noop !! i = Some l ∧ ∀ id, l ≠ fn id) ∨
  length (array_set a index noop) ≤ i.
Proof.
  intros Hlen. unfold array_set.
  destruct (_ <? _)%Z; [by right |].
  destruct (_ <? _)%Z; [right; by rewrite length_insert |].
  destruct ((a ++ replicate (Z.to_nat index - length a) hole ++ [noop]) !! i)
    as [l |] eqn:Hi.
  - left. exists l. split; [done |].
    rewrite lookup_app_r in Hi by done.
    apply list_elem_of_lookup_2 in Hi.
    rewrite elem_of_app, elem_of_replicate, list_elem_of_singleton in Hi.
    by destruct Hi as [[-> _] | ->].
  - right. by apply lookup_ge_None in Hi.
Qed.

Lemma isUniqueAndDone_call_undo h w :
  unsubscribeCount w < maxUnsubscribeCount →
  isUniqueAndDone (call_undo h w) = isUniqueAndDone w.
Proof.
  intros Hmax. destruct (call_undo_during h w Hmax).
  unfold isUniqueAndDone. congruence.
Qed.

Lemma isUniqueAndDone_listen l w :
  isUniqueAndDone (listen l w).1 = isUniqueAndDone w.
Proof.
  destruct (listen_during l w). unfold isUniqueAndDone. congruence.
Qed.

Lemma retired_listen i l w : retired i w → retired i (listen l w).1.
Proof.
  intros [Hmax Hslot]. split.
  { by rewrite (during_unsubscribeCount _ _ _ (listen_during l w)). }
  rewrite isUniqueAndDone_listen.
  destruct (listen_listeners l w) as [-> | Happend]; [done |].
  destruct Hslot as [(x & Hi & Hx) | [Hlen Hdone]].
  - left. exists x. rewrite Happend. split; [| done].
    by apply lookup_app_l_Some.
  - unfold listen in Happend. rewrite Hdone in Happend.
    destruct (decide _); simpl in Happend;
      apply (f_equal length) in Happend;
      rewrite length_app in Happend; simpl in Happend; lia.
Qed.

Lemma listeners_call_undo h w :
  unsubscribeCount w < maxUnsubscribeCount →
  listeners (call_undo h w) = listeners w ∨
  ∃ index, listeners (call_undo h w) = array_set (listeners w) index noop.
Proof.
  intros Hmax. unfold call_undo.
  destruct (undos w !! h) as [[| index count l] |]; try by left.
  destruct (decide _); [| by left].
  destruct (decide (count ≠ clearCount w)); rewrite clearIfMax_id by done;
    right; by eexists.
Qed.

Lemma retired_call_undo i h w : retired i w → retired i (call_undo h w).
Proof.
  intros [Hmax Hslot]. split.
  { by rewrite (during_unsubscribeCount _ _ _ (call_undo_during h w Hmax)). }
  rewrite isUniqueAndDone_call_undo by done.
  destruct (listeners_call_undo h w Hmax) as [-> | [index ->]]; [done |].
  destruct Hslot as [Hi | [Hlen Hdone]].
  - left. by apply array_set_keeps_retired.
  - destruct (array_set_beyond (listeners w) index i Hlen); auto.
Qed.

Lemma retired_slot_not_called code i tr0 fuel script w :
  retired i w →
  no_new_call_from i tr0 (trace w) →
  no_new_call_from i tr0 (trace (run code fuel script w).1).
Proof.
  intros Hretired Hcalls.
  assert (∀ (tr : list Event) e,
            (∀ id value, e ≠ Called i (fn id) value) →
            no_new_call_from i tr0 tr → no_new_call_from i tr0 (tr ++ [e]))
    as Hnote.
  { intros tr e He H id value. rewrite calls_app, elem_of_app.
    intros [Hin | Hin]; [by apply H |].
    destruct e; simpl in Hin; try by apply elem_of_nil in Hin.
    apply list_elem_of_singleton in Hin. destruct (He id value). congruence. }
  refine (proj2 (run_inv code (λ _, True)
           (λ w, retired i w ∧ no_new_call_from i tr0 (trace w))
           _ _ _ _ _ _ _ _ fuel script w _ (conj Hretired Hcalls)));
    clear -Hnote.
  - intros. apply Forall_forall. intros. apply registers_only_any.
  - intros l w _ [Hr Hc]. split; [by apply retired_listen |].
    unfold no_new_call_from.
    by rewrite (during_quiet_calls _ _ (listen_during l w)).
  - intros h w [Hr Hc]. split; [by apply retired_call_undo |].
    by rewrite trace_call_undo.
  - intros j l value w Hj [Hr Hc]. split; [done |].
    apply Hnote; [| done]. intros id value' [= ? ? ?]. subst.
    destruct Hr as [_ [(x & Hi & Hx) | [Hlen _]]].
    + rewrite Hj in Hi. simplify_eq. by destruct (Hx id).
    + apply lookup_lt_Some in Hj. lia.
  - intros e w [Hr Hc]. split; [done |]. by apply Hnote.
  - intros e w [Hr Hc]. split; [done |]. by apply Hnote.
  - intros w [[Hmax Hslot] Hc]. split; [| done]. split; [done |].
    destruct Hslot as [Hi | [Hlen Hdone]]; [by left |]. right.
    split; [done |]. unfold isUniqueAndDone in *. simpl.
    apply andb_true_iff in Hdone as [-> _]. done.
  - intros w [[Hmax Hslot] Hc] Hcount. split.
    + split.
      { rewrite unsubscribeCount_note.
        pose proof (after_listeners_fields w) as (_ & _ & _ & H). lia. }
      rewrite listeners_note. unfold after_listeners, isUniqueAndDone.
      destruct (unique w) eqn:Hu; simpl.
      * right. rewrite Hu. split; [lia |].
        by destruct (dispatchCount w).
      * rewrite clearIfMax_id by done.
        destruct Hslot as [Hi | [Hlen Hdone]]; [by left |].
        unfold isUniqueAndDone in Hdone. by rewrite Hu in Hdone.
    + rewrite trace_note, trace_after_listeners. by apply Hnote.
  - apply Forall_forall. intros. apply registers_only_any.
Qed.

(** ** Unregistering (C9) *)

(** C9.  Calling an undo function twice leaves the emitter as calling it
    once does.  Once the undo function [h] of the registration held by
    slot [i] has been called, no dispatch made by whatever code runs next
    calls a listener from that slot; and if the listener, [fn id], was
    registered there only, none calls it at all, as long as nobody
    registers it again. *)
Theorem unregister_twice_and_never_called code h i id index count w :
  (∀ h' w', call_undo h' (call_undo h' w') = call_undo h' w') ∧
  (undos w !! h = Some (undo_fn (Z.of_nat i) (clearCount w) (fn id)) →
   listeners w !! i = Some (fn id) →
   unsubscribeCount w < maxUnsubscribeCount →
   listeners (call_undo h w) !! i = Some noop ∧
   ∀ fuel script,
     no_new_call_from i (trace w)
       (trace (run code fuel script (call_undo h w)).1)) ∧
  (undos w !! h = Some (undo_fn index count (fn id)) →
   index ≠ (-1)%Z →
   (count = clearCount w → index = Z.of_nat i) →
   listeners w !! i = Some (fn id) →
   (∀ j, listeners w !! j = Some (fn id) → j = i) →
   (∀ id' value, Forall (registers_only (λ l, l ≠ fn id)) (code id' value)) →
   ∀ fuel script,
     Forall (registers_only (λ l, l ≠ fn id)) script →
     no_new_call (fn id) (trace w)
       (trace (run code fuel script (call_undo h w)).1)).
Proof.
  split; [apply call_undo_idempotent | split].
  - intros Hh Hi Hmax.
    assert (listeners (call_undo h w) !! i = Some noop) as Hnoop.
    { unfold call_undo. rewrite Hh.
      destruct (decide _) as [_ | Hneg]; [| lia].
      destruct (decide _) as [Hne | _]; [done |].
      rewrite clearIfMax_id by done. simpl. unfold array_set.
      apply lookup_lt_Some in Hi.
      destruct (Z.ltb_spec (Z.of_nat i) 0); [lia |].
      destruct (Z.ltb_spec (Z.of_nat i) (Z.of_nat (length (listeners w))));
        [| lia].
      rewrite Nat2Z.id. by apply list_lookup_insert_eq. }
    split; [done |]. intros fuel script.
    apply retired_slot_not_called.
    + split.
      * by rewrite (during_unsubscribeCount _ _ _ (call_undo_during h w Hmax)).
      * left. by exists noop.
    + rewrite trace_call_undo. by intros ? ?.
  - intros Hh Hindex Hcount Hi Honly Hcode fuel script Hscript.
    apply unregistered_not_called; try done.
    + by eapply notin_after_call_undo.
    + rewrite trace_call_undo. by intros j value.
Qed.

(** ** The synchronous dispatch (C3, C4, C6, C10) *)

Section LoopReaches.
Variable code : Code.
Variable dispatch_fn : GValue → World → World * Completion.
Hypothesis dispatch_fn_busy : ∀ value w, dispatching w = true →
  during quiet w (dispatch_fn value w).1.

Lemma for_each_listener_first n i value w w' r l :
  busy w →
  listeners w !! i = Some l →
  for_each_listener code dispatch_fn n i value w = (w', Returned r) →
  ∃ n' w1 p rest,
    n = S n' ∧
    call_listener code dispatch_fn l value (note (Called i l value) w)
      = (w1, Returned p) ∧
    busy w1 ∧
    during quiet (note (Called i l value) w) w1 ∧
    for_each_listener code dispatch_fn n' (S i) value w1 = (w', Returned r) ∧
    calls (trace w') = calls (trace w) ++ (i, l, value) :: rest.
Proof.
  intros Hw Hi Hrun. destruct n as [| n]; simpl in Hrun; rewrite Hi in Hrun;
    [done |].
  pose proof (busy_note (Called i l value) w Hw) as Hw1.
  pose proof (call_listener_during code dispatch_fn dispatch_fn_busy
                l value _ Hw1) as Hq.
  destruct (call_listener code dispatch_fn l value
              (note (Called i l value) w)) as [w1 r1] eqn:Hcall.
  simpl in Hq. destruct r1 as [p | e |]; [| done | done].
  assert (busy w1) as Hb1 by by eapply busy_during.
  destruct (for_each_listener_visited code dispatch_fn dispatch_fn_busy
              n (S i) value w1 w' (Returned r) Hb1 Hrun)
    as (ls & (_ & Hcalls & _) & _).
  exists n, w1, p, (numbered (S i) value ls).
  do 5 (split; [done |]).
  rewrite Hcalls, (during_quiet_calls _ _ Hq). simpl.
  by rewrite calls_app, <- app_assoc.
Qed.

Lemma loop_reaches n i j value w w' r l :
  busy w →
  i ≤ j →
  listeners w !! j = Some l →
  for_each_listener code dispatch_fn n i value w = (w', Returned r) →
  ∃ nj wj c rest,
    for_each_listener code dispatch_fn n i value w
      = for_each_listener code dispatch_fn nj j value wj ∧
    busy wj ∧
    during inner w wj ∧
    listeners wj !! j = Some c ∧
    (c = l ∨ c = noop) ∧
    calls (trace w') = calls (trace wj) ++ (j, c, value) :: rest.
Proof.
  revert i w l. induction n as [| n IH]; intros i w l Hw Hij Hj Hrun.
  - destruct (decide (i = j)) as [-> | Hne].
    + by destruct (for_each_listener_first 0 j value w w' r l Hw Hj Hrun)
        as (n' & ? & ? & ? & ? & _).
    + destruct (lookup_lt_is_Some_2 (listeners w) i) as [li Hi].
      { apply lookup_lt_Some in Hj. lia. }
      by destruct (for_each_listener_first 0 i value w w' r li Hw Hi Hrun)
        as (n' & ? & ? & ? & ? & _).
  - destruct (decide (i = j)) as [-> | Hne].
    + destruct (for_each_listener_first (S n) j value w w' r l Hw Hj Hrun)
        as (n' & w1 & p & rest & _ & _ & _ & _ & _ & Hcalls).
      exists (S n), w, l, rest.
      split; [done |]. split; [done |]. split; [apply during_refl |].
      split; [done |]. split; [by left | done].
    + destruct (lookup_lt_is_Some_2 (listeners w) i) as [li Hi].
      { apply lookup_lt_Some in Hj. lia. }
      destruct (for_each_listener_first (S n) i value w w' r li Hw Hi Hrun)
        as (n' & w1 & p & rest & [= <-] & Hcall & Hb1 & Hq & Hrest & _).
      assert (during inner w w1) as Hd1.
      { eapply during_trans;
          [by apply (during_note inner (Called i li value)) |].
        eapply during_weaken; [apply quiet_inner | done]. }
      assert (∃ l1, listeners w1 !! j = Some l1 ∧ (l1 = l ∨ l1 = noop))
        as (l1 & Hj1 & Hl1).
      { destruct (proj2 (during_listeners _ _ _ Hd1) j l Hj); eauto. }
      destruct (IH (S i) w1 l1 Hb1 ltac:(lia) Hj1 Hrest)
        as (nj & wj & c & rest' & Heq & Hbj & Hdj & Hcj & Hc & Hcalls).
      exists nj, wj, c, rest'. split.
      { rewrite <- Heq. simpl. by rewrite Hi, Hcall. }
      split; [done |]. split; [by eapply during_trans |].
      split; [done |]. split; [| done].
      destruct Hc as [-> | ->]; [done | by right].
Qed.
End LoopReaches.


(** C10, as stated, fails on an emitter built with [unique: true]: when
    the loop runs [#dispatchCount] is no longer 0, so that the [listen]
    called by listener [fn 1] registers nothing; the dispatch returns and
    [fn 2] has not been called. *)
Lemma listen_during_unique_dispatch_registers_nothing :
  let w := unique_emitter_with [fn 1] in
  let '(w', r) := dispatch example_code 3 5 w in
  example_code 1 5 = [Listen (fn 2)] ∧
  r = Returned None ∧
  calls (trace w') = [(0, fn 1, 5)].
Proof. vm_compute. done. Qed.

(** C10, amended.  On an emitter that is not [unique], [listen] appends to
    the registry, also while a dispatch is going on; and when a dispatch
    returns, every slot the registry then has was visited, in order, with
    the value of this cycle, and a slot that holds a listener at the end
    was called with that listener: so were the slots appended while the
    loop was running, those from index [length (listeners w)] on.
    A dispatch that returns has run the loop to its end, from a world in
    which a dispatch is going on.  In such a world, let the loop call the
    listener of slot [i], and let that call return and leave in slot [j],
    which was not there before the call, the listener [l].  If the loop
    runs to its end, it comes to slot [j]; that slot then holds [l], or
    [noop] if [l] has been unregistered in between; and the loop calls what
    the slot holds, with the value of the cycle: [l] is called unless it
    was unregistered before its turn, whatever becomes of it afterwards.
    On a [unique] emitter a [listen] called while the dispatch is going on
    appends nothing. *)
Theorem listener_added_during_dispatch_is_called code fuel value w :
  (∀ l w0, unique w0 = false →
     listeners (listen l w0).1 = listeners w0 ++ [l]) ∧
  (unique w = false →
   unsubscribeCount w < maxUnsubscribeCount →
   ∀ w' r, dispatch code fuel value w = (w', Returned r) →
   ∃ ls,
     calls (trace w') = calls (trace w) ++ numbered 0 value ls ∧
     length ls = length (listeners w') ∧
     ∀ j l, listeners w' !! j = Some l → l ≠ noop → ls !! j = Some l) ∧
  (unsubscribeCount w < maxUnsubscribeCount →
   ∀ w' r, dispatch code (S fuel) value w = (w', Returned r) →
   busy (before_listeners w) ∧
   ∃ w2 r2,
     for_each_listener code (dispatch code fuel) fuel 0 value
       (before_listeners w) = (w2, Returned r2) ∧
     calls (trace w') = calls (trace w2)) ∧
  (∀ n i wi first w1 p j l w2 r2,
     busy wi →
     listeners wi !! i = Some first →
     call_listener code (dispatch code fuel) first value
       (note (Called i first value) wi) = (w1, Returned p) →
     length (listeners wi) ≤ j →
     listeners w1 !! j = Some l →
     for_each_listener code (dispatch code fuel) n i value wi
       = (w2, Returned r2) →
     ∃ nj wj c rest,
       for_each_listener code (dispatch code fuel) n i value wi
         = for_each_listener code (dispatch code fuel) nj j value wj ∧
       during inner w1 wj ∧
       listeners wj !! j = Some c ∧
       (c = l ∨ c = noop) ∧
       calls (trace w2) = calls (trace wj) ++ (j, c, value) :: rest) ∧
  (∀ l w0, unique w0 = true →
     isUniqueAndDone (before_listeners w0) = true ∧
     ∀ w1, isUniqueAndDone w1 = true →
           listeners (listen l w1).1 = listeners w1).
Proof.
  split; [| split; [| split; [| split]]].
  { intros l w0 Hu. unfold listen, isUniqueAndDone. rewrite Hu. simpl.
    unfold checkMaxListeners. simpl. by destruct (_ <? _). }
  - intros Hu Hmax w' r Hrun.
    destruct fuel as [| fuel]; [done |]. simpl in Hrun.
    destruct (dispatching w); [done |].
    unfold isUniqueAndDone in Hrun. rewrite Hu in Hrun. simpl in Hrun.
    destruct (for_each_listener code (dispatch code fuel) fuel 0 value
                (before_listeners w)) as [w2 [r2 | e |]] eqn:Hloop;
      simplify_eq.
    apply for_each_listener_visited in Hloop
      as (ls & (Hd & Hcalls & Hnow & _) & Hlen & _);
      [| apply dispatch_during_busy | by apply busy_before_listeners].
    specialize (Hlen r2 eq_refl (Nat.le_0_l _)). simpl in Hlen.
    assert (listeners (after_listeners w2) = listeners w2) as Hsame.
    { apply after_listeners_listeners.
      - by rewrite (during_unique _ _ _ Hd).
      - by rewrite (during_unsubscribeCount _ _ _ Hd). }
    exists ls.
    rewrite listeners_note, Hsame, trace_note, trace_after_listeners.
    split; [| split; [done |]].
    + rewrite calls_app, Hcalls. simpl. by rewrite app_nil_r.
    + intros j l Hj Hl.
      destruct (ls !! j) as [lj |] eqn:Hlj.
      * destruct (Hnow j lj Hlj) as [H | H]; simpl in H; congruence.
      * apply lookup_ge_None in Hlj. apply lookup_lt_Some in Hj. lia.
  - intros Hmax w' r Hrun. split; [by apply busy_before_listeners |].
    simpl in Hrun. destruct (dispatching w); [done |].
    destruct (isUniqueAndDone w); [done |].
    destruct (for_each_listener code (dispatch code fuel) fuel 0 value
                (before_listeners w)) as [w2 [r2 | e |]] eqn:Hloop;
      simplify_eq.
    exists w2, r2. split; [done |].
    rewrite trace_note, trace_after_listeners, calls_app. simpl.
    by rewrite app_nil_r.
  - intros n i wi first w1 p j l w2 r2 Hwi Hi Hcall Hj Hl Hrun.
    destruct (for_each_listener_first code (dispatch code fuel)
                (dispatch_during_busy code fuel) n i value wi w2 r2 first
                Hwi Hi Hrun)
      as (n' & w1' & p' & rest & -> & Hcall' & Hb1 & _ & Hrest & _).
    rewrite Hcall in Hcall'. simplify_eq.
    apply lookup_lt_Some in Hi as Hlt.
    destruct (loop_reaches code (dispatch code fuel)
                (dispatch_during_busy code fuel) n' (S i) j value w1' w2 r2 l
                Hb1 ltac:(lia) Hl Hrest)
      as (nj & wj & c & rest' & Heq & _ & Hd & Hc & Hor & Hcalls).
    exists nj, wj, c, rest'. split; [| done].
    rewrite <- Heq. simpl. by rewrite Hi, Hcall.
  - intros l w0 Hu. split.
    + unfold isUniqueAndDone. simpl. by rewrite Hu.
    + intros w1 Hdone. unfold listen. rewrite Hdone. by destruct (decide _).
Qed.

(** C3, as stated, fails.  A call refused by the reentrancy check returns
    with the flag set: here the call made from inside listener [fn 4].
    And when a listener throws, the flag stays set after the call has
    returned: the next dispatch is refused as if it were reentrant. *)
Lemma dispatching_flag_left_set :
  (let w := note (Called 0 (fn 4) 5) (before_listeners (emitter_with [fn 4])) in
   let '(w', r) := dispatch example_code 1 7 w in
   r = Threw DispatchLoopDetected ∧ dispatching w' = true) ∧
  (let '(w', r) := dispatch example_code 2 5 (emitter_with [fn 5]) in
   r = Threw (Reason 9) ∧ dispatching w' = true ∧
   (dispatch example_code 2 6 w').2 = Threw DispatchLoopDetected).
Proof. vm_compute. done. Qed.

(** C3, amended.  After a dispatch call that returns normally the flag is
    false; after a call refused by the uniqueness check it is false as
    well; a call refused by the reentrancy check leaves it true, the
    dispatch it was made from being still running. *)
Theorem dispatching_flag_after_dispatch code fuel value w :
  (∀ w' r, dispatch code fuel value w = (w', Returned r) →
     dispatching w' = false) ∧
  (dispatching w = false → isUniqueAndDone w = true →
     ∃ w', dispatch code (S fuel) value w = (w', Threw EventAlreadyEmitted) ∧
           dispatching w' = false) ∧
  (dispatching w = true →
     ∃ w', dispatch code (S fuel) value w = (w', Threw DispatchLoopDetected) ∧
           dispatching w' = true).
Proof.
  split; [| split].
  - intros w' r Hrun. destruct fuel as [| fuel]; [done |]. simpl in Hrun.
    destruct (dispatching w); [done |].
    destruct (isUniqueAndDone w); [done |].
    destruct (for_each_listener _ _ _ _ _ _) as [w2 [r2 | e |]];
      by simplify_eq.
  - intros Hd Hu. simpl. rewrite Hd, Hu. by eexists.
  - intros Hd. simpl. rewrite Hd. by eexists.
Qed.

(** C6, as stated, fails: listener [fn 3] calls [dispatch] and does not
    catch what it throws; the outer dispatch throws it in turn, and the
    listener registered after [fn 3] is not called. *)
Lemma uncaught_inner_dispatch_ends_the_outer_one :
  let w := emitter_with [fn 3; fn 0] in
  let '(w', r) := dispatch example_code 3 5 w in
  listeners w = [fn 3; fn 0] ∧
  r = Threw DispatchLoopDetected ∧
  calls (trace w') = [(0, fn 3, 5)].
Proof. vm_compute. done. Qed.

Lemma trace_only_refl w : trace_only w w.
Proof. by repeat split. Qed.

Lemma trace_only_note e w : trace_only w (note e w).
Proof. by repeat split. Qed.

Lemma trace_only_trans w1 w2 w3 :
  trace_only w1 w2 → trace_only w2 w3 → trace_only w1 w3.
Proof.
  intros (? & ? & ? & ? & ? & ? & ? & ? & ?) (? & ? & ? & ? & ? & ? & ? & ? & ?).
  repeat split; congruence.
Qed.

Lemma trace_only_busy w w' : trace_only w w' → busy w → busy w'.
Proof.
  intros (_ & _ & _ & _ & Hu & _ & _ & Hd & _) [? ?].
  split; congruence.
Qed.

Lemma run_only_dispatches code fuel cs w :
  busy w →
  Forall (λ c, ∃ v, c = Try (Dispatch v)) cs →
  ∃ w', run_cmds (dispatch code (S fuel)) cs w = (w', Returned None) ∧
        trace_only w w' ∧
        calls (trace w') = calls (trace w).
Proof.
  intros Hw Hcs. revert w Hw.
  induction Hcs as [| c cs [v ->] _ IH]; intros w Hw.
  - exists w. split; [done |]. split; [apply trace_only_refl | done].
  - destruct Hw as [Hd Hu].
    destruct (IH (note (DispatchRefused DispatchLoopDetected) w))
      as (w' & Hrun & Hw' & Hcalls); [done |].
    exists w'. cbn [run_cmds run_cmd dispatch]. rewrite Hd.
    split; [done |]. split.
    + eapply trace_only_trans; [apply trace_only_note | done].
    + rewrite Hcalls, trace_note, calls_app. simpl. by rewrite app_nil_r.
Qed.

Lemma call_only_dispatches code fuel i l value w :
  busy w →
  only_dispatches code value l →
  ∃ w', call_listener code (dispatch code (S fuel)) l value
          (note (Called i l value) w) = (w', Returned None) ∧
        trace_only w w' ∧
        calls (trace w') = calls (trace w) ++ [(i, l, value)].
Proof.
  intros Hw Hl. destruct l as [| id |]; [| | done].
  - eexists. split; [done |]. split; [apply trace_only_note |].
    by rewrite trace_note, calls_app.
  - destruct (run_only_dispatches code fuel (code id value)
                (note (Called i (fn id) value) w))
      as (w1 & Hrun & Hw1 & Hcalls1); [by apply busy_note | done |].
    exists w1. split; [done |]. split.
    + eapply trace_only_trans; [apply trace_only_note | done].
    + by rewrite Hcalls1, trace_note, calls_app.
Qed.

Lemma loop_only_dispatches code fuel value n i w :
  busy w →
  Forall (only_dispatches code value) (listeners w) →
  length (listeners w) ≤ n + i →
  ∃ w', for_each_listener code (dispatch code (S fuel)) n i value w
          = (w', Returned None) ∧
        busy w' ∧ listeners w' = listeners w ∧
        calls (trace w') =
          calls (trace w) ++ numbered i value (drop i (listeners w)).
Proof.
  revert i w. induction n as [| n IH]; intros i w Hw Hall Hlen;
    cbn [for_each_listener];
    destruct (listeners w !! i) as [l |] eqn:Hi.
  - apply lookup_lt_Some in Hi. lia.
  - exists w. apply lookup_ge_None in Hi.
    rewrite drop_ge by done. simpl. by rewrite app_nil_r.
  - assert (only_dispatches code value l) as Hl.
    { eapply Forall_forall; [exact Hall |]. by eapply list_elem_of_lookup_2. }
    destruct (call_only_dispatches code fuel i l value w Hw Hl)
      as (w1 & Hcall & Honly & Hcalls1).
    assert (listeners w1 = listeners w) as Hls1
      by by destruct Honly as (_ & _ & _ & ? & _).
    rewrite Hcall.
    destruct (IH (S i) w1) as (w' & Hrun & Hw' & Hls & Hcalls);
      [by eapply trace_only_busy | by rewrite Hls1 | rewrite Hls1; lia |].
    exists w'. split; [done |]. split; [done |].
    split; [congruence |].
    rewrite Hcalls, Hcalls1, Hls1, (drop_S _ _ _ Hi). simpl.
    by rewrite <- app_assoc.
  - exists w. apply lookup_ge_None in Hi.
    rewrite drop_ge by done. simpl. by rewrite app_nil_r.
Qed.

(** C6, amended.  A call of [dispatch] made while a dispatch is going on,
    as from a listener of the cycle, throws 'Dispatch loop detected.' and
    leaves the emitter as it was.  When the listener catches it, and does
    nothing else, the loop of the outer dispatch goes on to the next
    listener in a world that differs by its trace only; and when all the
    listeners are so, the outer dispatch returns normally, having called
    every listener of the registry in order. *)
Theorem reentrant_dispatch_refused_outer_goes_on code fuel value w :
  (dispatching w = true →
   ∀ v, dispatch code (S fuel) v w =
          (note (DispatchRefused DispatchLoopDetected) w,
           Threw DispatchLoopDetected)) ∧
  (busy w →
   ∀ n i l, listeners w !! i = Some l → only_dispatches code value l →
   ∃ w', trace_only w w' ∧
         calls (trace w') = calls (trace w) ++ [(i, l, value)] ∧
         for_each_listener code (dispatch code (S fuel)) (S n) i value w =
           for_each_listener code (dispatch code (S fuel)) n (S i) value w') ∧
  (dispatching w = false →
   isUniqueAndDone w = false →
   unsubscribeCount w < maxUnsubscribeCount →
   Forall (only_dispatches code value) (listeners w) →
   length (listeners w) ≤ fuel →
   ∃ w', dispatch code (S (S fuel)) value w = (w', Returned None) ∧
         dispatching w' = false ∧
         calls (trace w') =
           calls (trace w) ++ numbered 0 value (listeners w)).
Proof.
  split; [| split].
  - intros Hd v. simpl. by rewrite Hd.
  - intros Hw n i l Hi Hl.
    destruct (call_only_dispatches code fuel i l value w Hw Hl)
      as (w' & Hcall & Honly & Hcalls).
    exists w'. split; [done |]. split; [done |].
    cbn [for_each_listener]. rewrite Hi.
    change (dispatch code (S fuel)) with
      (λ value w, dispatch code (S fuel) value w) in Hcall.
    cbn [dispatch] in Hcall. cbn [dispatch]. by rewrite Hcall.
  - intros Hd Hu Hmax Hall Hlen.
    destruct (loop_only_dispatches code fuel value (S fuel) 0
                (before_listeners w))
      as (w2 & Hloop & Hw2 & Hls & Hcalls);
      [by apply busy_before_listeners | done | simpl; lia |].
    exists (note DispatchReturned (after_listeners w2)).
    cbn [dispatch]. rewrite Hd, Hu.
    change (dispatch code (S fuel)) with
      (λ value w, dispatch code (S fuel) value w) in Hloop.
    cbn [dispatch] in Hloop. cbn [dispatch]. rewrite Hloop.
    split; [done |]. split; [done |].
    rewrite trace_note, trace_after_listeners, calls_app, Hcalls.
    simpl. by rewrite app_nil_r.
Qed.

(** ** Lemmas: the dispatches of a [unique] emitter *)


Lemma refusals_explained_snoc tr e :
  refusals_explained tr →
  (∀ e', e = DispatchRefused e' →
     (e' = EventAlreadyEmitted ↔ DispatchReturned ∈ tr)) →
  refusals_explained (tr ++ [e]).
Proof.
  intros Htr He k e' Hk. apply lookup_app_Some in Hk as [Hk | [Hge Hk]].
  - rewrite take_app_le by (apply lookup_lt_Some in Hk; lia). by apply Htr.
  - apply list_lookup_singleton_Some in Hk as [Hk ->].
    assert (k = length tr) as -> by lia.
    rewrite take_app_length. by apply He.
Qed.

Lemma refusals_explained_inner tr evs :
  refusals_explained tr →
  DispatchReturned ∉ tr →
  Forall inner evs →
  refusals_explained (tr ++ evs) ∧ DispatchReturned ∉ tr ++ evs.
Proof.
  intros Htr Hnot Hevs. induction evs as [| e evs IH] using rev_ind.
  - by rewrite app_nil_r.
  - apply Forall_app in Hevs as [Hevs He]. rewrite Forall_singleton in He.
    destruct (IH Hevs) as [IH1 IH2]. rewrite app_assoc. split.
    + apply refusals_explained_snoc; [done |].
      intros e' ->. by destruct e'.
    + rewrite elem_of_app, list_elem_of_singleton.
      intros [Hin | Heq]; [by destruct IH2 | by subst].
Qed.

Lemma unique_inv_dispatch code fuel value w :
  unique_inv w → unique_inv (dispatch code fuel value w).1.
Proof.
  intros (Hu & Hmax & Htr & Hdone).
  destruct fuel as [| fuel]; [done |]. cbn [dispatch].
  destruct (dispatching w) eqn:Hd.
  { split; [done |]. split; [done |]. cbn [fst]. rewrite trace_note.
    assert (DispatchReturned ∉ trace w) as Hnot.
    { intros Hin. by apply Hdone in Hin as [? _]. }
    split.
    - apply refusals_explained_snoc; [done |]. intros e' [= <-].
      split; [done |]. intros Hin. by destruct Hnot.
    - rewrite elem_of_app, list_elem_of_singleton. simpl. rewrite Hd.
      split; [intros [Hin | Hin]; [by destruct Hnot | done] | by intros []]. }
  destruct (isUniqueAndDone w) eqn:Hud.
  { assert (dispatchCount w ≠ 0) as Hcount.
    { unfold isUniqueAndDone in Hud. rewrite Hu in Hud. simpl in Hud.
      apply negb_true_iff, Nat.eqb_neq in Hud. done. }
    assert (DispatchReturned ∈ trace w) as Hin by by apply Hdone.
    split; [done |]. split; [done |]. cbn [fst]. rewrite trace_note. split.
    - apply refusals_explained_snoc; [done |]. by intros e' [= <-].
    - rewrite elem_of_app. simpl. rewrite Hd. split; [done | by left]. }
  assert (dispatchCount w = 0) as Hcount.
  { unfold isUniqueAndDone in Hud. rewrite Hu in Hud. simpl in Hud.
    apply negb_false_iff, Nat.eqb_eq in Hud. done. }
  assert (DispatchReturned ∉ trace w) as Hnot.
  { intros Hin. by apply Hdone in Hin as [_ ?]. }
  destruct (for_each_listener code (dispatch code fuel) fuel 0 value
              (before_listeners w)) as [w2 r2] eqn:Hloop.
  apply for_each_listener_visited in Hloop as (ls & (Hdur & _) & _);
    [| apply dispatch_during_busy | by apply busy_before_listeners].
  destruct Hdur as [_ Hu2 _ Hmax2 _ Hcount2 Hd2 _ (evs & Htr2 & Hevs)].
  simpl in Hu2, Hmax2, Hcount2, Hd2, Htr2.
  destruct (refusals_explained_inner _ _ Htr Hnot Hevs) as [Htr' Hnot'].
  rewrite <- Htr2 in Htr', Hnot'.
  destruct r2 as [r | e |]; cbn [fst].
  - destruct (after_listeners_fields w2) as (Hu3 & Hd3 & Hcount3 & Hmax3).
    unfold unique_inv.
    rewrite unique_note, unsubscribeCount_note, dispatching_note,
      dispatchCount_note, trace_note, trace_after_listeners.
    split; [congruence |]. split; [lia |]. split.
    + by apply refusals_explained_snoc.
    + rewrite elem_of_app, list_elem_of_singleton, Hd3, Hcount3, Hcount2.
      split; [intros _; split; [done | lia] | by right].
  - unfold unique_inv.
    rewrite unique_note, unsubscribeCount_note, dispatching_note,
      dispatchCount_note, trace_note.
    split; [congruence |]. split; [lia |]. split.
    + by apply refusals_explained_snoc.
    + rewrite elem_of_app, list_elem_of_singleton, Hd2.
      split; [intros [Hin | Hin]; [by destruct Hnot' | done] | by intros []].
  - split; [congruence |]. split; [lia |]. split; [done |].
    rewrite Hd2. split; [intros Hin; by destruct Hnot' | by intros []].
Qed.

Lemma unique_inv_listen l w : unique_inv w → unique_inv (listen l w).1.
Proof.
  intros (Hu & Hmax & Htr & Hdone).
  destruct (listen_during l w)
    as [_ Hu' _ Hmax' _ Hcount' Hd' _ (evs & Htr' & Hevs)].
  split; [congruence |]. split; [lia |]. rewrite Htr', Hd', Hcount'.
  assert (evs = [] ∨ ∃ n m, evs = [Warned n m]) as [-> | (n & m & ->)].
  { clear -Htr'. unfold listen, checkMaxListeners in Htr'.
    destruct (isUniqueAndDone w); [destruct (decide _) | destruct (_ <? _)];
      simpl in Htr'.
    1,2,4: left; apply (app_inv_head (trace w)); by rewrite app_nil_r.
    right. eexists _, _. symmetry. by apply (app_inv_head (trace w)). }
  - by rewrite app_nil_r.
  - split.
    + by apply refusals_explained_snoc.
    + rewrite elem_of_app, list_elem_of_singleton, Hdone.
      split; [intros [? | ?]; done | by left].
Qed.

Lemma unique_inv_call_undo h w : unique_inv w → unique_inv (call_undo h w).
Proof.
  intros (Hu & Hmax & Htr & Hdone).
  destruct (call_undo_during h w Hmax) as [_ Hu' _ Hmax' _ Hcount' Hd' _ _].
  split; [congruence |]. split; [lia |].
  by rewrite trace_call_undo, Hd', Hcount'.
Qed.

Lemma unique_inv_run code fuel script w :
  unique_inv w → unique_inv (run code fuel script w).1.
Proof.
  unfold run. revert w. induction script as [| c cs IH]; intros w Hw; [done |].
  cbn [run_cmds].
  assert (unique_inv (run_cmd (dispatch code fuel) c w).1) as Hc.
  { clear IH. induction c as [e | l | h | value | c IHc | p]; simpl; auto.
    - pose proof (unique_inv_listen l w Hw) as H.
      by destruct (listen l w) as [w' [e |]].
    - by apply unique_inv_call_undo.
    - pose proof (unique_inv_dispatch code fuel value w Hw) as H.
      by destruct (dispatch code fuel value w) as [w' [r | e |]].
    - by destruct (run_cmd (dispatch code fuel) c w) as [w' [[r | e |] |]]. }
  destruct (run_cmd (dispatch code fuel) c w) as [w' [r |]]; auto.
Qed.

(** C4, as stated, fails: on an emitter built with [unique: true] and
    [listenAfterUniqueDispatched: 'error'], while the first dispatch runs
    [listen] already throws 'Event already emitted.'; listener [fn 1]
    calls it and does not catch, so that this first dispatch ends with
    that error, no dispatch having returned before. *)
Lemma first_dispatch_can_throw_already_emitted :
  let w := (run example_code 1 [Listen (fn 1)] (new_emitter 10 true error)).1 in
  let '(w', r) := dispatch example_code 3 5 w in
  r = Threw EventAlreadyEmitted ∧
  trace w' = [Called 0 (fn 1) 5; DispatchThrew EventAlreadyEmitted].
Proof. vm_compute. done. Qed.

(** C4, amended.  On an emitter built with [unique: true], whatever the
    code that owns it and its listeners do, a call of [#dispatch] is
    refused by its own check with 'Event already emitted.', before any
    listener is called, exactly when an earlier call of [#dispatch] has
    returned; and once one has returned, every further call is refused
    so, at once. *)
Theorem already_emitted_exactly_after_a_dispatch code fuel script maxL after :
  let w := (run code fuel script (new_emitter maxL true after)).1 in
  (∀ k e, trace w !! k = Some (DispatchRefused e) →
     (e = EventAlreadyEmitted ↔ DispatchReturned ∈ take k (trace w))) ∧
  (DispatchReturned ∈ trace w →
   ∀ value fuel',
     dispatch code (S fuel') value w =
       (note (DispatchRefused EventAlreadyEmitted) w, Threw EventAlreadyEmitted)).
Proof.
  intros w.
  assert (unique_inv w) as (Hu & _ & Htr & Hdone).
  { apply unique_inv_run. split; [done |].
    split; [unfold maxUnsubscribeCount; simpl; lia |]. split.
    - by intros k e H.
    - simpl. split; [by intros ?%elem_of_nil | by intros []]. }
  split; [done |].
  intros [Hd Hcount]%Hdone value fuel'. cbn [dispatch].
  unfold isUniqueAndDone. rewrite Hd, Hu.
  by destruct (dispatchCount w).
Qed.

(** ** The asynchronous dispatch (C2, C5) *)

(** C2, as stated, fails: listener [fn 5] throws, the loop of the async
    [#dispatch] has no [try], and the listener registered after [fn 5] is
    not called. *)
Lemma synchronous_throw_ends_the_async_loop :
  let w := emitter_with [fn 5; fn 0] in
  let '(w', r) := async_dispatch example_code 3 5 w in
  listeners w = [fn 5; fn 0] ∧
  r = RejectedNow (Reason 9) ∧
  calls (trace w') = [(0, fn 5, 5)].
Proof. vm_compute. done. Qed.

(** C2, amended.  When the async [#dispatch] reaches its [await], which it
    does unless a listener throws, every slot the registry had when it
    started has been called, with the listener it held or with the
    tombstone put in its place; what the promises returned by earlier
    listeners become plays no part.  When a listener throws, the promise
    of the dispatch is rejected with what it threw, and the listeners
    called are those up to that one, no other. *)
Theorem async_dispatch_calls_all_unless_one_throws code fuel value w w' :
  unsubscribeCount w < maxUnsubscribeCount →
  (∀ promises, async_dispatch code fuel value w = (w', Awaiting promises) →
     ∃ ls, calls (trace w') = calls (trace w) ++ numbered 0 value ls ∧
           length (listeners w) ≤ length ls ∧
           ∀ k l, listeners w !! k = Some l →
                  ls !! k = Some l ∨ ls !! k = Some noop) ∧
  (∀ e, async_dispatch code fuel value w = (w', RejectedNow e) →
     dispatching w = false → isUniqueAndDone w = false →
     (∀ st, completion st (RejectedNow e) = Rejected e) ∧
     ∃ ls l wk fuel',
       calls (trace w') = calls (trace w) ++ numbered 0 value (ls ++ [l]) ∧
       call_listener code (λ v w, dropped (async_dispatch code fuel' v w))
         l value wk = (w', Threw e)).
Proof.
  intros Hmax. split.
  - intros promises Hrun. destruct fuel as [| fuel]; [done |].
    cbn [async_dispatch] in Hrun.
    destruct (dispatching w); [done |].
    destruct (isUniqueAndDone w); [done |].
    destruct (for_each_listener_async _ _ _ _ _ _ _) as [w2 r2] eqn:Hloop.
    destruct r2 as [ps | e |]; simplify_eq.
    apply for_each_listener_async_visited in Hloop
      as (ls & (Hd & Hcalls & _ & Hthen) & Hlen & _);
      [| intros; apply async_dispatch_during_busy; done
       | by apply busy_before_listeners].
    specialize (Hlen _ eq_refl (Nat.le_0_l _)). simpl in Hlen.
    pose proof (proj1 (during_listeners _ _ _ Hd)) as Hgrow. simpl in Hgrow.
    exists ls. rewrite trace_after_listeners.
    split; [done |]. split; [lia |].
    intros k l Hk. destruct (ls !! k) as [lk |] eqn:Hlk.
    + destruct (Hthen k lk l Hlk Hk); subst; auto.
    + apply lookup_ge_None in Hlk. apply lookup_lt_Some in Hk. lia.
  - intros e Hrun Hd Hu. split; [done |].
    destruct fuel as [| fuel]; [done |]. cbn [async_dispatch] in Hrun.
    rewrite Hd, Hu in Hrun.
    destruct (for_each_listener_async _ _ _ _ _ _ _) as [w2 r2] eqn:Hloop.
    destruct r2 as [ps | e' |]; simplify_eq.
    apply for_each_listener_async_visited in Hloop
      as (ls & (_ & Hcalls & _) & _ & Hthrew);
      [| intros; apply async_dispatch_during_busy; done
       | by apply busy_before_listeners].
    destruct (Hthrew e eq_refl) as (ls0 & l & wk & -> & _ & Hcall).
    by exists ls0, l, wk, fuel.
Qed.

Lemma allSettled_Some st promises :
  (∀ p, p ∈ promises → st p ≠ Pending) →
  ∃ results, allSettled st promises = Some results ∧
             errors_of results = reasons st promises.
Proof.
  induction promises as [| p promises IH]; intros Hall.
  - by exists [].
  - destruct IH as (results & Hsome & Herrors).
    { intros q Hq. apply Hall. by right. }
    specialize (Hall p (list_elem_of_here _ _)).
    unfold reasons in *. simpl. rewrite Hsome.
    destruct (st p) as [| | reason]; [done | |]; eexists; split; try done.
    simpl. by rewrite Herrors.
Qed.

Lemma allSettled_None st promises p :
  p ∈ promises → st p = Pending → allSettled st promises = None.
Proof.
  intros Hin Hp. induction promises as [| q promises IH].
  - by apply elem_of_nil in Hin.
  - apply elem_of_cons in Hin as [<- | Hin]; simpl.
    + by rewrite Hp.
    + rewrite (IH Hin). by destruct (st q).
Qed.

Lemma loop_returns code dispatch_fn value rs n i promises w :
  Forall2 (returns code value) (listeners w) rs →
  length (listeners w) ≤ n + i →
  ∃ w', for_each_listener_async code dispatch_fn n i value promises w
          = (w', Awaiting (promises ++ omap id (drop i rs))) ∧
        trace_only w w'.
Proof.
  revert i promises w. induction n as [| n IH]; intros i promises w Hrs Hlen;
    cbn [for_each_listener_async];
    destruct (listeners w !! i) as [l |] eqn:Hi.
  - apply lookup_lt_Some in Hi. lia.
  - exists w. apply lookup_ge_None in Hi.
    rewrite drop_ge by (by rewrite <- (Forall2_length _ _ _ Hrs)).
    simpl. by rewrite app_nil_r.
  - destruct (Forall2_lookup_l _ _ _ _ _ Hrs Hi) as (r & Hr & Hreturns).
    rewrite (drop_S _ _ _ Hr).
    assert (call_listener code dispatch_fn l value (note (Called i l value) w)
            = (note (Called i l value) w, Returned r)) as ->.
    { destruct l as [| id |]; simpl in *; [by subst | | done].
      rewrite Hreturns. by destruct r. }
    assert (∀ promises', ∃ w',
              for_each_listener_async code dispatch_fn n (S i) value
                promises' (note (Called i l value) w)
                = (w', Awaiting (promises' ++ omap id (drop (S i) rs))) ∧
              trace_only w w') as Hnext.
    { intros promises'.
      destruct (IH (S i) promises' (note (Called i l value) w))
        as (w' & Hrun & Hw'); [done | simpl; lia |].
      exists w'. split; [done |]. by destruct Hw' as (? & ? & ? & ? & ? & ? & ? & ? & ?). }
    destruct r as [p |]; simpl.
    + destruct (Hnext (promises ++ [p])) as (w' & Hrun & Hw').
      exists w'. by rewrite Hrun, <- app_assoc.
    + apply Hnext.
  - exists w. apply lookup_ge_None in Hi.
    rewrite drop_ge by (by rewrite <- (Forall2_length _ _ _ Hrs)).
    simpl. by rewrite app_nil_r.
Qed.

(** C5, as stated, fails: listener [fn 6] returns promise 0, which is
    collected, then listener [fn 5] throws; the promise of the dispatch is
    rejected at once, with what [fn 5] threw, while promise 0 is still
    pending. *)
Lemma completion_settles_before_a_collected_promise :
  let w := emitter_with [fn 6; fn 5] in
  let '(w', r) := async_dispatch example_code 3 5 w in
  example_code 6 5 = [Return 0] ∧
  calls (trace w') = [(0, fn 6, 5); (1, fn 5, 5)] ∧
  completion (λ _, Pending) r = Rejected (Reason 9).
Proof. vm_compute. done. Qed.

(** C5, amended.  The promise of an async dispatch that has called its
    listeners without one of them throwing stays pending as long as one of
    the promises they returned is; when all are settled it is fulfilled if
    none was rejected, rejected with the very reason if one was, and
    rejected with an [AggregateError] of the reasons, in the order the
    promises were collected, if several were.  That order is the order of
    the calls: when the listeners do nothing but return, the dispatch
    collects what they return in the order of the registry. *)
Theorem async_completion_aggregates code fuel value w st :
  (∀ w' promises,
     async_dispatch code fuel value w = (w', Awaiting promises) →
     (completion st (Awaiting promises) ≠ Pending ↔
      ∀ p, p ∈ promises → st p ≠ Pending) ∧
     ((∀ p, p ∈ promises → st p ≠ Pending) →
      completion st (Awaiting promises) =
        match reasons st promises with
        | [] => Fulfilled
        | [reason] => Rejected reason
        | reason :: _ :: _ => Rejected (AggregateError (reasons st promises))
        end)) ∧
  (∀ rs,
     dispatching w = false → isUniqueAndDone w = false →
     Forall2 (returns code value) (listeners w) rs →
     length (listeners w) ≤ fuel →
     ∃ w', async_dispatch code (S fuel) value w
             = (w', Awaiting (omap id rs))).
Proof.
  split.
  - intros w' promises _.
    assert ((∀ p, p ∈ promises → st p ≠ Pending) →
            completion st (Awaiting promises) =
              throw_errors (reasons st promises)) as Hsettled.
    { intros Hall. destruct (allSettled_Some st promises Hall)
        as (results & Hsome & Herrors).
      simpl. by rewrite Hsome, Herrors. }
    split; [split |].
    + intros Hc p Hin Hp. apply Hc. simpl.
      by rewrite (allSettled_None st promises p Hin Hp).
    + intros Hall. rewrite (Hsettled Hall).
      by destruct (reasons st promises) as [| ? [| ? ?]].
    + intros Hall. rewrite (Hsettled Hall).
      by destruct (reasons st promises) as [| ? [| ? ?]].
  - intros rs Hd Hu Hrs Hlen. cbn [async_dispatch]. rewrite Hd, Hu.
    destruct (loop_returns code
                (λ value w, dropped (async_dispatch code fuel value w))
                value rs fuel 0 [] (before_listeners w))
      as (w2 & -> & _); [done | simpl; lia |].
    by eexists.
Qed.

(** ** Compaction (C1) *)


Lemma unsubscribeCount_stays_zero code fuel script w :
  unsubscribeCount w = 0 → unsubscribeCount (run code fuel script w).1 = 0.
Proof.
  assert (0 < maxUnsubscribeCount) as Hmax
    by (unfold maxUnsubscribeCount; simpl; lia).
  apply (run_inv code (λ _, True) (λ w, unsubscribeCount w = 0)); clear -Hmax.
  - intros. apply Forall_forall. intros. apply registers_only_any.
  - intros l w _ Hw. by rewrite (during_unsubscribeCount _ _ _ (listen_during l w)).
  - intros h w Hw.
    assert (unsubscribeCount w < maxUnsubscribeCount) as Hlt by lia.
    by rewrite (during_unsubscribeCount _ _ _ (call_undo_during h w Hlt)).
  - done.
  - done.
  - done.
  - done.
  - intros w Hw _. rewrite unsubscribeCount_note.
    pose proof (after_listeners_fields w) as (_ & _ & _ & H). lia.
  - apply Forall_forall. intros. apply registers_only_any.
Qed.

Lemma unsubscribeCount_clearIfMax w :
  unsubscribeCount (clearIfMaxUnsubscribeCountIsReached w)
    ≤ unsubscribeCount w.
Proof.
  unfold clearIfMaxUnsubscribeCountIsReached.
  destruct (_ <=? _); simpl; lia.
Qed.

(** C1: what the code does.  An undo function never adds to
    [#unsubscribeCount]; on an emitter, from its construction on, the count
    is 0 whatever has been unregistered, so that the threshold is never
    reached; and after 255 listeners have been registered and then all
    unregistered, no compaction has run: the registry holds 255
    tombstones. *)
Theorem unsubscribeCount_never_counts :
  (∀ h w, unsubscribeCount (call_undo h w) ≤ unsubscribeCount w) ∧
  (∀ code fuel script maxL once after,
     unsubscribeCount (run code fuel script (new_emitter maxL once after)).1
       = 0) ∧
  (let w := (run example_code 1 (register_then_unregister 255)
               default_emitter).1 in
   listeners w = replicate 255 noop ∧
   unsubscribeCount w = 0 ∧
   clearCount w = 0).
Proof.
  split; [| split].
  - intros h w. unfold call_undo.
    destruct (undos w !! h) as [[| index count l] |]; try done.
    destruct (decide _); [| done].
    destruct (decide (count ≠ clearCount w));
      (etrans; [apply unsubscribeCount_clearIfMax | done]).
  - intros. by apply unsubscribeCount_stays_zero.
  - vm_compute. done.
Qed.

(** ** The async generator (C8) *)

Lemma remove_expired_app now expired x rest :
  Forall (λ v, num_lt (expirationDate v) (finite now) = true) expired →
  num_lt (expirationDate x) (finite now) = false →
  remove_expired now (expired ++ x :: rest) = x :: rest.
Proof.
  intros Hexpired Hx. induction Hexpired as [| v expired Hv _ IH]; simpl.
  - by rewrite Hx.
  - by rewrite Hv.
Qed.


Lemma generator_listener_all_dropped more g :
  buffered g = false → pendingRead g = None →
  generator_listener_all more g = g.
Proof.
  intros Hb Hp. induction more as [| [now v] more IH]; [done |].
  unfold generator_listener_all in *. simpl.
  unfold generator_listener at 2. rewrite Hb, Hp. simpl. by rewrite Hp.
Qed.

Lemma generator_listener_config now v g :
  bufferSize (generator_listener now v g) = bufferSize g ∧
  windowTime (generator_listener now v g) = windowTime g.
Proof.
  destruct g as [size window vs read n rs].
  unfold generator_listener. destruct (buffered _); simpl.
  - destruct (num_lt size _); by destruct read.
  - by destruct read.
Qed.

Lemma generator_listener_values now v g :
  buffered g = true →
  values (generator_listener now v g) =
    if num_lt (bufferSize g) (finite (Z.of_nat (S (length (values g)))))
    then tail (values g ++
                 [mkPendingValue v (num_add (finite now) (windowTime g))])
    else values g ++ [mkPendingValue v (num_add (finite now) (windowTime g))].
Proof.
  intros Hb. destruct g as [size window vs read n rs].
  unfold generator_listener. rewrite Hb. cbn -[num_lt num_add Z.of_nat].
  rewrite length_app. simpl length. rewrite Nat.add_1_r.
  by destruct (num_lt size _), read.
Qed.

(** C8.  In the drop-to-latest regime a value that comes while a read is
    pending replaces the whole queue, with no expiration, and resolves that
    read; a value that comes while none is pending changes nothing.  So
    when values come in a row to a pending read, the first is kept, the
    read is resolved once, the others are dropped; and the next turn of
    the loop yields the value kept.  A generator that has not been pulled
    yet has no read pending: it takes no value in. *)
Theorem drop_to_latest_regime now v g :
  bufferSize g = finite 0 ∨ windowTime g = finite 0 →
  (∀ read, pendingRead g = Some read →
     generator_listener now v g =
       mkGenerator (bufferSize g) (windowTime g) [mkPendingValue v infinity]
         None (created g) (resolved g ++ [read])) ∧
  (pendingRead g = None → generator_listener now v g = g) ∧
  (∀ read more now', pendingRead g = Some read →
     let g' := generator_listener_all more (generator_listener now v g) in
     values g' = [mkPendingValue v infinity] ∧
     resolved g' = resolved g ++ [read] ∧
     pendingRead g' = None ∧
     (generator_turn None now' g').2 = Yield v) ∧
  (∀ size window,
     dispatched now v (toAsyncGenerator size window)
       = toAsyncGenerator size window).
Proof.
  intros Hregime.
  assert (buffered g = false) as Hb.
  { unfold buffered. destruct Hregime as [-> | ->]; simpl; [done |].
    apply andb_false_r. }
  assert (∀ read, pendingRead g = Some read →
            generator_listener now v g =
              mkGenerator (bufferSize g) (windowTime g)
                [mkPendingValue v infinity] None (created g)
                (resolved g ++ [read])) as Hpending.
  { intros read Hread. unfold generator_listener.
    rewrite Hb, Hread. simpl. by rewrite Hread. }
  split; [done |]. split; [| split; [| done]].
  - intros Hnone. unfold generator_listener. rewrite Hb, Hnone. simpl.
    by rewrite Hnone.
  - intros read more now' Hread g'. subst g'.
    rewrite (Hpending read Hread), generator_listener_all_dropped by done.
    done.
Qed.

(** ** The theorems at work on the example programs *)

(** C9 on an emitter with [fn 0] and [fn 1] registered: [fn 0] is
    unregistered, and a dispatch follows. *)
Lemma unregister_twice_and_never_called_witness :
  let w := emitter_with [fn 0; fn 1] in
  let w' := (run example_code 3 [Dispatch 5] (call_undo 0 w)).1 in
  call_undo 0 (call_undo 0 w) = call_undo 0 w ∧
  listeners (call_undo 0 w) !! 0 = Some noop ∧
  no_new_call_from 0 (trace w) (trace w') ∧
  no_new_call (fn 0) (trace w) (trace w').
Proof.
  intros w w'.
  assert (∀ id' value,
            Forall (registers_only (λ l, l ≠ fn 0)) (example_code id' value))
    as Hcode.
  { intros id' value.
    do 9 (destruct id' as [| id']; [by repeat constructor |]).
    by repeat constructor. }
  assert (∀ j, listeners w !! j = Some (fn 0) → j = 0) as Honly.
  { intros [| [| j]] Hj; [done | discriminate Hj | discriminate Hj]. }
  destruct (unregister_twice_and_never_called example_code 0 0 0 0%Z 0 w)
    as (Honce & Hslot & Hnever).
  destruct (Hslot eq_refl eq_refl ltac:(vm_compute; lia)) as [Hnoop Hfrom].
  split; [apply Honce |]. split; [exact Hnoop |]. split; [apply Hfrom |].
  apply (Hnever eq_refl ltac:(done) (λ _, eq_refl) eq_refl Honly Hcode).
  by repeat constructor.
Defined.

(** C10 on an emitter with [fn 1] registered, which registers [fn 2] when
    it is called, and on a unique one; then with a [fn 2] that unregisters
    itself when it is called: it is called all the same, in slot 1, and
    leaves a tombstone there. *)
Lemma listener_added_during_dispatch_is_called_witness :
  let w := emitter_with [fn 1] in
  let w' := (dispatch example_code 3 5 w).1 in
  listeners (listen (fn 2) w).1 = [fn 1; fn 2] ∧
  (∃ ls,
     calls (trace w') = calls (trace w) ++ numbered 0 5 ls ∧
     length ls = length (listeners w') ∧
     ∀ j l, listeners w' !! j = Some l → l ≠ noop → ls !! j = Some l) ∧
  listeners (listen (fn 2) (before_listeners (unique_emitter_with [fn 1]))).1
    = [fn 1] ∧
  (let dispatch_fn := dispatch self_removing_code 3 in
   let wi := before_listeners w in
   let w1 := (call_listener self_removing_code dispatch_fn (fn 1) 7
                (note (Called 0 (fn 1) 7) wi)).1 in
   let w2 := (for_each_listener self_removing_code dispatch_fn 3 0 7 wi).1 in
   let w3 := (dispatch self_removing_code 4 7 w).1 in
   listeners w1 = [fn 1; fn 2] ∧
   listeners w3 = [fn 1; noop] ∧
   calls (trace w3) = [(0, fn 1, 7); (1, fn 2, 7)] ∧
   calls (trace w3) = calls (trace w2) ∧
   ∃ nj wj c rest,
     for_each_listener self_removing_code dispatch_fn 3 0 7 wi
       = for_each_listener self_removing_code dispatch_fn nj 1 7 wj ∧
     during inner w1 wj ∧
     listeners wj !! 1 = Some c ∧
     (c = fn 2 ∨ c = noop) ∧
     calls (trace w2) = calls (trace wj) ++ (1, c, 7) :: rest).
Proof.
  intros w w'.
  pose proof (listener_added_during_dispatch_is_called example_code 3 5 w)
    as (Happend & Hcalled & _).
  pose proof (listener_added_during_dispatch_is_called example_code 3 5
                (unique_emitter_with [fn 1])) as (_ & _ & _ & _ & Hunique).
  pose proof (listener_added_during_dispatch_is_called self_removing_code 3 7
                w) as (_ & _ & Hloop & Hturn & _).
  split; [| split; [| split]].
  - apply (Happend (fn 2) w eq_refl).
  - apply (Hcalled eq_refl ltac:(vm_compute; lia) w' None).
    vm_compute. reflexivity.
  - apply (proj2 (Hunique (fn 2) (unique_emitter_with [fn 1]) eq_refl)).
    reflexivity.
  - intros dispatch_fn wi w1 w2 w3.
    destruct (Hloop ltac:(vm_compute; lia) w3 None eq_refl)
      as (Hbusy & w2' & r2 & Hrun & Hcalls).
    split; [reflexivity |]. split; [reflexivity |]. split; [reflexivity |].
    split; [reflexivity |].
    apply (Hturn 3 0 wi (fn 1) w1 None 1 (fn 2) w2 None Hbusy eq_refl
             eq_refl ltac:(vm_compute; lia) eq_refl eq_refl).
Defined.

(** C3 on an emitter whose dispatch returns, on a unique emitter that has
    dispatched, and inside a dispatch. *)
Lemma dispatching_flag_after_dispatch_witness :
  dispatching (dispatch example_code 3 5 (emitter_with [fn 4; fn 0])).1
    = false ∧
  (∃ w', dispatch example_code 1 6
           (dispatch example_code 3 5 (unique_emitter_with [fn 0])).1
         = (w', Threw EventAlreadyEmitted) ∧ dispatching w' = false) ∧
  (∃ w', dispatch example_code 1 6 (before_listeners (emitter_with [fn 4]))
         = (w', Threw DispatchLoopDetected) ∧ dispatching w' = true).
Proof.
  split; [| split].
  - apply (proj1 (dispatching_flag_after_dispatch example_code 3 5
                    (emitter_with [fn 4; fn 0])) _ None).
    vm_compute. reflexivity.
  - apply (proj1 (proj2 (dispatching_flag_after_dispatch example_code 0 6
             (dispatch example_code 3 5 (unique_emitter_with [fn 0])).1)));
      reflexivity.
  - apply (proj2 (proj2 (dispatching_flag_after_dispatch example_code 0 6
             (before_listeners (emitter_with [fn 4]))))).
    reflexivity.
Defined.

(** C6 on an emitter with [fn 4], a silent listener and [fn 4] again. *)
Lemma reentrant_dispatch_refused_outer_goes_on_witness :
  let w := emitter_with [fn 4; fn 0; fn 4] in
  (dispatch example_code 1 7 (before_listeners w)).2
    = Threw DispatchLoopDetected ∧
  ∃ w', dispatch example_code 5 5 w = (w', Returned None) ∧
        dispatching w' = false ∧
        calls (trace w') =
          calls (trace w) ++ numbered 0 5 [fn 4; fn 0; fn 4].
Proof.
  intros w. split.
  - rewrite (proj1 (reentrant_dispatch_refused_outer_goes_on example_code 0 5
                      (before_listeners w)) eq_refl 7).
    reflexivity.
  - apply (proj2 (proj2
             (reentrant_dispatch_refused_outer_goes_on example_code 3 5 w))).
    + reflexivity.
    + reflexivity.
    + vm_compute. lia.
    + vm_compute. repeat econstructor.
    + vm_compute. lia.
Defined.

(** C4 on a unique emitter with one listener, dispatched twice. *)
Lemma already_emitted_exactly_after_a_dispatch_witness :
  let w := (run example_code 3 [Listen (fn 0); Dispatch 5; Try (Dispatch 6)]
              (new_emitter 10 true default)).1 in
  trace w !! 2 = Some (DispatchRefused EventAlreadyEmitted) ∧
  DispatchReturned ∈ take 2 (trace w).
Proof.
  intros w. split; [reflexivity |].
  apply (proj1 (already_emitted_exactly_after_a_dispatch example_code 3
                  [Listen (fn 0); Dispatch 5; Try (Dispatch 6)] 10 default)
           2 EventAlreadyEmitted); reflexivity.
Defined.

(** C2 on an emitter with two listeners that return promises, and on one
    whose first listener throws. *)
Lemma async_dispatch_calls_all_unless_one_throws_witness :
  (let w := emitter_with [fn 6; fn 7] in
   let w' := (async_dispatch example_code 3 5 w).1 in
   ∃ ls, calls (trace w') = calls (trace w) ++ numbered 0 5 ls ∧
         length (listeners w) ≤ length ls ∧
         ∀ k l, listeners w !! k = Some l →
                ls !! k = Some l ∨ ls !! k = Some noop) ∧
  (let w := emitter_with [fn 5; fn 0] in
   let w' := (async_dispatch example_code 3 5 w).1 in
   ∃ ls l wk fuel',
     calls (trace w') = calls (trace w) ++ numbered 0 5 (ls ++ [l]) ∧
     call_listener example_code
       (λ v w, dropped (async_dispatch example_code fuel' v w)) l 5 wk
       = (w', Threw (Reason 9))).
Proof.
  split; intros w w'.
  - apply (proj1 (async_dispatch_calls_all_unless_one_throws example_code 3 5
                    w w' ltac:(vm_compute; lia)) [0; 1]).
    vm_compute. reflexivity.
  - apply (proj2 (async_dispatch_calls_all_unless_one_throws example_code 3 5
                    w w' ltac:(vm_compute; lia)) (Reason 9));
      vm_compute; reflexivity.
Defined.

(** C5 on three listeners that return the promises 0, 1 and 2: the second
    and the third are rejected. *)
Lemma async_completion_aggregates_witness :
  let w := emitter_with [fn 6; fn 7; fn 8] in
  (∃ w', async_dispatch example_code 4 5 w = (w', Awaiting [0; 1; 2])) ∧
  completion example_states (Awaiting [0; 1; 2]) =
    Rejected (AggregateError [Reason 2; Reason 3]).
Proof.
  intros w.
  pose proof (async_completion_aggregates example_code 3 5 w example_states)
    as [_ Hcollect].
  pose proof (async_completion_aggregates example_code 4 5 w example_states)
    as [Hsettle _].
  split.
  - apply (Hcollect [Some 0; Some 1; Some 2]); try reflexivity.
    vm_compute. by repeat constructor.
  - apply (Hsettle (async_dispatch example_code 4 5 w).1 [0; 1; 2] eq_refl).
    intros p Hp. by do 3 (destruct p as [| p]; [done |]).
Defined.

(** C8 with [{ bufferSize: 0 }], a read pending: the values 7, 8, 9 come
    in a row. *)
Lemma drop_to_latest_regime_witness :
  let g := (generator_turn None 0 (generator_start (finite 0) infinity)).1 in
  let g' := generator_listener_all [(2%Z, 8); (3%Z, 9)]
              (generator_listener 1 7 g) in
  pendingRead g = Some 0 ∧
  values g' = [mkPendingValue 7 infinity] ∧
  resolved g' = [0] ∧
  pendingRead g' = None ∧
  (generator_turn None 4 g').2 = Yield 7.
Proof.
  intros g g'. split; [reflexivity |].
  apply (proj1 (proj2 (proj2 (drop_to_latest_regime 1 7 g (or_introl eq_refl))))
           0 [(2%Z, 8); (3%Z, 9)] 4%Z eq_refl).
Defined.

(** ** More of the two [#dispatch]: what a throwing listener leaves behind *)

Lemma run_busy_quiet code fuel script w :
  busy w → during quiet w (run code fuel script w).1.
Proof.
  intros Hw. apply run_cmds_during; [| done].
  intros. by apply dispatch_during_busy.
Qed.

Lemma run_async_busy_quiet code fuel script w :
  busy w → during quiet w (run_async code fuel script w).1.
Proof.
  intros Hw. apply run_cmds_during; [| done].
  intros. by apply async_dispatch_during_busy.
Qed.

(** X1.  [#dispatch] has no [try]: when a listener throws, the loop ends
    and [#dispatching] stays true.  From then on the emitter is stuck:
    whatever code runs next, the flag stays set, every call of [dispatch]
    throws 'Dispatch loop detected.' and no listener is called any more. *)
Theorem listener_throw_blocks_the_emitter code fuel value w w' e :
  dispatching w = false →
  isUniqueAndDone w = false →
  unsubscribeCount w < maxUnsubscribeCount →
  dispatch code fuel value w = (w', Threw e) →
  dispatching w' = true ∧
  ∀ fuel' script,
    let w'' := (run code fuel' script w').1 in
    dispatching w'' = true ∧
    calls (trace w'') = calls (trace w') ∧
    ∀ fuel'' v,
      dispatch code (S fuel'') v w'' =
        (note (DispatchRefused DispatchLoopDetected) w'',
         Threw DispatchLoopDetected).
Proof.
  intros Hd Hu Hmax Hrun.
  destruct fuel as [| fuel]; [done |]. cbn [dispatch] in Hrun.
  rewrite Hd, Hu in Hrun.
  destruct (for_each_listener code (dispatch code fuel) fuel 0 value
              (before_listeners w)) as [w2 [r2 | e2 |]] eqn:Hloop;
    simplify_eq.
  apply for_each_listener_visited in Hloop as (ls & (Hdur & _) & _);
    [| apply dispatch_during_busy | by apply busy_before_listeners].
  assert (busy (note (DispatchThrew e) w2)) as Hbusy.
  { apply busy_note. eapply busy_during; [| exact Hdur].
    by apply busy_before_listeners. }
  split; [apply Hbusy |].
  intros fuel' script w''.
  pose proof (run_busy_quiet code fuel' script _ Hbusy) as Hq. fold w'' in Hq.
  assert (dispatching w'' = true) as Hd''.
  { rewrite (during_dispatching _ _ _ Hq). apply Hbusy. }
  split; [done |]. split; [by apply during_quiet_calls |].
  intros fuel'' v. cbn [dispatch]. by rewrite Hd''.
Qed.

(** X2.  The same holds of the async [#dispatch]: a listener that throws,
    instead of returning a rejected promise, leaves [#dispatching] true;
    from then on every call of [dispatch] returns a promise rejected with
    'Dispatch loop detected.' and no listener is called any more. *)
Theorem async_listener_throw_blocks_the_emitter code fuel value w w' e :
  dispatching w = false →
  isUniqueAndDone w = false →
  unsubscribeCount w < maxUnsubscribeCount →
  async_dispatch code fuel value w = (w', RejectedNow e) →
  dispatching w' = true ∧
  ∀ fuel' script,
    let w'' := (run_async code fuel' script w').1 in
    dispatching w'' = true ∧
    calls (trace w'') = calls (trace w') ∧
    ∀ fuel'' v st,
      async_dispatch code (S fuel'') v w'' =
        (w'', RejectedNow DispatchLoopDetected) ∧
      completion st (RejectedNow DispatchLoopDetected) =
        Rejected DispatchLoopDetected.
Proof.
  intros Hd Hu Hmax Hrun.
  destruct fuel as [| fuel]; [done |]. cbn [async_dispatch] in Hrun.
  rewrite Hd, Hu in Hrun.
  destruct (for_each_listener_async _ _ _ _ _ _ _) as [w2 r2] eqn:Hloop.
  destruct r2 as [ps | e2 |]; simplify_eq.
  apply for_each_listener_async_visited in Hloop as (ls & (Hdur & _) & _);
    [| intros; by apply async_dispatch_during_busy
     | by apply busy_before_listeners].
  assert (busy w') as Hbusy.
  { eapply busy_during; [| exact Hdur]. by apply busy_before_listeners. }
  split; [apply Hbusy |].
  intros fuel' script w''.
  pose proof (run_async_busy_quiet code fuel' script _ Hbusy) as Hq.
  fold w'' in Hq.
  assert (dispatching w'' = true) as Hd''.
  { rewrite (during_dispatching _ _ _ Hq). apply Hbusy. }
  split; [done |]. split; [by apply during_quiet_calls |].
  intros fuel'' v st. cbn [async_dispatch]. by rewrite Hd''.
Qed.

(** X1 on an emitter whose first listener, [fn 5], throws. *)
Lemma listener_throw_blocks_the_emitter_witness :
  let w' := (dispatch example_code 3 5 (emitter_with [fn 5; fn 0])).1 in
  dispatching w' = true ∧
  ∀ fuel' script,
    let w'' := (run example_code fuel' script w').1 in
    dispatching w'' = true ∧
    calls (trace w'') = calls (trace w') ∧
    ∀ fuel'' v,
      dispatch example_code (S fuel'') v w'' =
        (note (DispatchRefused DispatchLoopDetected) w'',
         Threw DispatchLoopDetected).
Proof.
  intros w'.
  apply (listener_throw_blocks_the_emitter example_code 3 5
           (emitter_with [fn 5; fn 0]) w' (Reason 9)).
  - reflexivity.
  - reflexivity.
  - vm_compute. lia.
  - vm_compute. reflexivity.
Defined.

(** X2 on an async emitter whose first listener, [fn 5], throws. *)
Lemma async_listener_throw_blocks_the_emitter_witness :
  let w' := (async_dispatch example_code 3 5 (emitter_with [fn 5; fn 0])).1 in
  dispatching w' = true ∧
  ∀ fuel' script,
    let w'' := (run_async example_code fuel' script w').1 in
    dispatching w'' = true ∧
    calls (trace w'') = calls (trace w') ∧
    ∀ fuel'' v st,
      async_dispatch example_code (S fuel'') v w'' =
        (w'', RejectedNow DispatchLoopDetected) ∧
      completion st (RejectedNow DispatchLoopDetected) =
        Rejected DispatchLoopDetected.
Proof.
  intros w'.
  apply (async_listener_throw_blocks_the_emitter example_code 3 5
           (emitter_with [fn 5; fn 0]) w' (Reason 9)).
  - reflexivity.
  - reflexivity.
  - vm_compute. lia.
  - vm_compute. reflexivity.
Defined.

(** ** More of [unique]: one cycle at most *)

Lemma one_cycle_during w w' : one_cycle w → during quiet w w' → one_cycle w'.
Proof.
  intros (Hu & Hmax & Hzero & Hcalls) Hq.
  pose proof (during_quiet_calls _ _ Hq) as Hsame. destruct Hq.
  unfold one_cycle. rewrite Hsame. split; [congruence |].
  split; [lia |]. split; [| done]. intros H0. apply Hzero. congruence.
Qed.

Lemma one_cycle_dispatch code fuel value w :
  one_cycle w → one_cycle (dispatch code fuel value w).1.
Proof.
  intros Hw. pose proof Hw as (Hu & Hmax & Hzero & Hcalls).
  destruct fuel as [| fuel]; [done |]. cbn [dispatch].
  destruct (dispatching w) eqn:Hd.
  { eapply one_cycle_during; [done |]. by apply (during_note quiet). }
  destruct (isUniqueAndDone w) eqn:Hud.
  { cbn [fst]. unfold one_cycle.
    rewrite trace_note, calls_app, app_nil_r. done. }
  assert (dispatchCount w = 0) as Hcount.
  { unfold isUniqueAndDone in Hud. rewrite Hu in Hud. simpl in Hud.
    by apply negb_false_iff, Nat.eqb_eq in Hud. }
  destruct (for_each_listener code (dispatch code fuel) fuel 0 value
              (before_listeners w)) as [w2 r2] eqn:Hloop.
  apply for_each_listener_visited in Hloop as (ls & (Hdur & Hc & _) & _);
    [| apply dispatch_during_busy | by apply busy_before_listeners].
  simpl in Hc. rewrite (Hzero Hcount) in Hc. simpl in Hc.
  destruct Hdur as [_ Hu2 _ Hmax2 _ Hcount2 _ _ _].
  simpl in Hu2, Hmax2, Hcount2.
  assert (one_cycle w2) as Hw2.
  { split; [congruence |]. split; [lia |]. split; [lia |]. by exists value, ls. }
  destruct r2 as [r | e |]; cbn [fst]; [| | done].
  - destruct (after_listeners_fields w2) as (Hu3 & _ & Hcount3 & Hmax3).
    unfold one_cycle.
    rewrite unique_note, unsubscribeCount_note, dispatchCount_note,
      trace_note, trace_after_listeners, calls_app, app_nil_r.
    split; [congruence |]. split; [lia |]. split; [lia |].
    by exists value, ls.
  - unfold one_cycle.
    rewrite unique_note, unsubscribeCount_note, dispatchCount_note,
      trace_note, calls_app, app_nil_r.
    split; [congruence |]. split; [lia |]. split; [lia |].
    by exists value, ls.
Qed.

(** X3.  On an emitter built with [unique: true], whatever the code that
    owns it and its listeners do, all the calls of listeners ever made
    belong to one cycle: they carry one and the same value and come from
    the slots 0, 1, 2, ... in turn, so that no slot is called twice. *)
Theorem unique_emitter_runs_one_cycle code fuel script maxL after :
  ∃ value ls,
    calls (trace (run code fuel script (new_emitter maxL true after)).1)
      = numbered 0 value ls.
Proof.
  assert (one_cycle (run code fuel script (new_emitter maxL true after)).1)
    as (_ & _ & _ & H); [| done].
  apply (run_cmds_inv (λ _, True) one_cycle).
  - intros l w _ Hw. eapply one_cycle_during; [done | apply listen_during].
  - intros h w Hw. eapply one_cycle_during; [done |].
    apply call_undo_during. by destruct Hw as (_ & ? & _).
  - intros value w. apply one_cycle_dispatch.
  - apply Forall_forall. intros. apply registers_only_any.
  - split; [done |]. split; [unfold maxUnsubscribeCount; simpl; lia |].
    split; [done |]. by exists 0, [].
Qed.

(** ** More of [AsyncEventEmitter.#dispatch]: dispatches that overlap *)

(** X4.  The async [#dispatch] clears [#dispatching] before it awaits: when
    it gets to its [await] the flag is false.  So the check against
    reentrancy covers the calls of the listeners only: a second dispatch,
    made while promises collected by the first are still pending, and the
    promise of the first with them, is not refused; it calls the listeners
    again and collects what they return. *)
Theorem async_dispatches_overlap code fuel value value' w rs rs' :
  (∀ w' promises,
     async_dispatch code fuel value w = (w', Awaiting promises) →
     dispatching w' = false) ∧
  (dispatching w = false →
   unique w = false →
   unsubscribeCount w < maxUnsubscribeCount →
   Forall2 (returns code value) (listeners w) rs →
   Forall2 (returns code value') (listeners w) rs' →
   length (listeners w) ≤ fuel →
   ∃ w1 w2,
     async_dispatch code (S fuel) value w = (w1, Awaiting (omap id rs)) ∧
     async_dispatch code (S fuel) value' w1 = (w2, Awaiting (omap id rs')) ∧
     ∀ st p, p ∈ omap id rs → st p = Pending →
       completion st (Awaiting (omap id rs)) = Pending).
Proof.
  split.
  - intros w' promises Hrun. destruct fuel as [| fuel]; [done |].
    cbn [async_dispatch] in Hrun.
    destruct (dispatching w); [done |].
    destruct (isUniqueAndDone w); [done |].
    destruct (for_each_listener_async _ _ _ _ _ _ _) as [w2 r2].
    destruct r2 as [ps | e |]; simplify_eq.
    by destruct (after_listeners_fields w2) as (_ & ? & _).
  - intros Hd Hu Hmax Hrs Hrs' Hlen.
    assert (∀ w0 v rs0,
              dispatching w0 = false → unique w0 = false →
              unsubscribeCount w0 < maxUnsubscribeCount →
              Forall2 (returns code v) (listeners w0) rs0 →
              length (listeners w0) ≤ fuel →
              ∃ w1, async_dispatch code (S fuel) v w0
                      = (w1, Awaiting (omap id rs0)) ∧
                    dispatching w1 = false ∧ unique w1 = false ∧
                    unsubscribeCount w1 < maxUnsubscribeCount ∧
                    listeners w1 = listeners w0) as Hone.
    { intros w0 v rs0 Hd0 Hu0 Hmax0 Hrs0 Hlen0. cbn [async_dispatch].
      unfold isUniqueAndDone. rewrite Hd0, Hu0. cbn [andb].
      destruct (loop_returns code
                  (λ value w, dropped (async_dispatch code fuel value w))
                  v rs0 fuel 0 [] (before_listeners w0))
        as (w2 & -> & Hto); [done | simpl; lia |].
      destruct Hto as (_ & Hu2 & _ & Hls2 & Hmax2 & _). simpl in *.
      exists (after_listeners w2). split; [done |].
      destruct (after_listeners_fields w2) as (Hu3 & Hd3 & _ & Hmax3).
      split; [done |]. split; [congruence |]. split; [lia |].
      rewrite after_listeners_listeners by (congruence || lia). done. }
    destruct (Hone w value rs Hd Hu Hmax Hrs Hlen)
      as (w1 & Hrun1 & Hd1 & Hu1 & Hmax1 & Hls1).
    destruct (Hone w1 value' rs') as (w2 & Hrun2 & _); try done.
    { by rewrite Hls1. }
    { by rewrite Hls1. }
    exists w1, w2. split; [done |]. split; [done |].
    intros st p Hin Hp. simpl. by rewrite (allSettled_None st _ p Hin Hp).
Qed.

(** X4 on an emitter with listeners [fn 6] and [fn 7], which return the
    promises 0 and 1. *)
Lemma async_dispatches_overlap_witness :
  let w := emitter_with [fn 6; fn 7] in
  ∃ w1 w2,
    async_dispatch example_code 3 5 w = (w1, Awaiting [0; 1]) ∧
    async_dispatch example_code 3 8 w1 = (w2, Awaiting [0; 1]) ∧
    ∀ st p, p ∈ [0; 1] → st p = Pending →
      completion st (Awaiting [0; 1]) = Pending.
Proof.
  intros w.
  apply (proj2 (async_dispatches_overlap example_code 2 5 8 w
                  [Some 0; Some 1] [Some 0; Some 1])).
  - reflexivity.
  - reflexivity.
  - vm_compute. lia.
  - vm_compute. repeat econstructor.
  - vm_compute. repeat econstructor.
  - vm_compute. lia.
Defined.

(** ** More of [listen]: tombstones and [maxListeners] *)

(** X5.  No compaction ever running, the registry of an emitter that is not
    [unique] never gets shorter, whatever is unregistered: a slot keeps its
    listener or holds a tombstone.  Tombstones count as listeners for
    [checkMaxListeners]: once the registry has [maxListeners] slots, every
    call of [listen], whatever has run in between, appends its listener and
    warns. *)
Theorem registry_never_shrinks code fuel script w :
  unique w = false →
  unsubscribeCount w = 0 →
  let w' := (run code fuel script w).1 in
  slots_le (listeners w) (listeners w') ∧
  (maxListeners w ≤ length (listeners w) →
   ∀ l, listeners (listen l w').1 = listeners w' ++ [l] ∧
        trace (listen l w').1 =
          trace w' ++ [Warned (S (length (listeners w'))) (maxListeners w)]).
Proof.
  intros Hu Hzero w'.
  assert (0 < maxUnsubscribeCount) as Hpos
    by (unfold maxUnsubscribeCount; simpl; lia).
  assert (unique w' = false ∧ unsubscribeCount w' = 0 ∧
          maxListeners w' = maxListeners w ∧
          slots_le (listeners w) (listeners w')) as (Hu' & _ & Hm' & Hle).
  { refine (run_inv code (λ _, True)
              (λ w', unique w' = false ∧ unsubscribeCount w' = 0 ∧
                     maxListeners w' = maxListeners w ∧
                     slots_le (listeners w) (listeners w'))
              _ _ _ _ _ _ _ _ fuel script w _ _).
    - intros. apply Forall_forall. intros. apply registers_only_any.
    - intros l w0 _ (? & ? & ? & ?). destruct (listen_during l w0).
      repeat split; try congruence; by eapply slots_le_trans.
    - intros h w0 (? & ? & ? & ?).
      destruct (call_undo_during h w0); [lia |].
      repeat split; try congruence; by eapply slots_le_trans.
    - done.
    - done.
    - done.
    - done.
    - intros w0 (Hu0 & Hz0 & Hm0 & Hle0) _.
      unfold after_listeners. rewrite Hu0, clearIfMax_id by lia. done.
    - apply Forall_forall. intros. apply registers_only_any.
    - repeat split; try done. apply slots_le_refl. }
  split; [done |]. intros Hfull l.
  unfold listen, isUniqueAndDone. rewrite Hu'. cbn [andb].
  unfold checkMaxListeners. cbn [listeners set_listeners maxListeners].
  rewrite length_app. cbn [length]. rewrite Nat.add_1_r, Hm'.
  destruct Hle as [Hlen _].
  destruct (Nat.ltb_spec (maxListeners w) (S (length (listeners w'))));
    [done | lia].
Qed.

(** X5 on an emitter with [maxListeners: 2]: two listeners are registered
    and unregistered, and the third registration warns. *)
Lemma registry_never_shrinks_witness :
  let w := (run example_code 1 [Listen (fn 0); Listen (fn 9)]
              (new_emitter 2 false default)).1 in
  let w' := (run example_code 1 [Undo 0; Undo 1] w).1 in
  listeners w' = [noop; noop] ∧
  slots_le (listeners w) (listeners w') ∧
  listeners (listen (fn 1) w').1 = [noop; noop; fn 1] ∧
  trace (listen (fn 1) w').1 = trace w' ++ [Warned 3 2].
Proof.
  intros w w'.
  pose proof (registry_never_shrinks example_code 1 [Undo 0; Undo 1] w
                eq_refl eq_refl) as [Hle Hwarn].
  split; [reflexivity |]. split; [exact Hle |].
  apply (Hwarn ltac:(vm_compute; lia) (fn 1)).
Defined.

(** ** More of [toAsyncGenerator]: whole runs *)

Lemma generator_run_dispatched now v steps a :
  generator_run (Dispatched now v :: steps) a
    = generator_run steps (dispatched now v a).
Proof. done. Qed.

Lemma generator_run_resumed signal now steps a :
  generator_run (Resumed signal now :: steps) a =
    ((generator_run steps (resume signal now a).1).1,
     (resume signal now a).2 :: (generator_run steps (resume signal now a).1).2).
Proof.
  cbn [generator_run]. destruct (resume signal now a) as [a1 t].
  cbn [fst snd]. by destruct (generator_run steps a1).
Qed.

Lemma yields_cons t ts : yields (t :: ts) = yields [t] ++ yields ts.
Proof. apply (omap_app _ [t] ts). Qed.

Lemma remove_expired_sublist now vs : remove_expired now vs `sublist_of` vs.
Proof.
  induction vs as [| v vs IH]; simpl; [done |].
  destruct (num_lt _ _); [by apply sublist_cons | done].
Qed.

Lemma tail_sublist {A} (l : list A) : tail l `sublist_of` l.
Proof. destruct l; [done | by apply sublist_cons]. Qed.

Lemma generator_listener_cases now v g :
  values (generator_listener now v g) =
    if buffered g then
      if num_lt (bufferSize g) (finite (Z.of_nat (S (length (values g)))))
      then tail (values g ++
                   [mkPendingValue v (num_add (finite now) (windowTime g))])
      else values g ++ [mkPendingValue v (num_add (finite now) (windowTime g))]
    else
      match pendingRead g with
      | Some _ => [mkPendingValue v infinity]
      | None => values g
      end.
Proof.
  destruct (buffered g) eqn:Hb; [by apply generator_listener_values |].
  unfold generator_listener. rewrite Hb.
  destruct (pendingRead g) eqn:Hp; simpl; by rewrite Hp.
Qed.

Lemma generator_listener_buffered now v g :
  buffered (generator_listener now v g) = buffered g.
Proof.
  unfold buffered. by destruct (generator_listener_config now v g) as [-> ->].
Qed.

Lemma queued_dispatched now v a :
  queued (dispatched now v a) `sublist_of` queued a ++ [v].
Proof.
  destruct a as [size window | g |]; simpl; try apply sublist_nil_l.
  rewrite generator_listener_cases.
  destruct (buffered g); [destruct (num_lt _ _) |
                          destruct (pendingRead g)]; simpl.
  - rewrite fmap_tail, fmap_app. apply tail_sublist.
  - by rewrite fmap_app.
  - by apply sublist_inserts_l.
  - by apply sublist_inserts_r.
Qed.

Lemma resume_queued signal now a :
  yields [(resume signal now a).2] ++ queued (resume signal now a).1
    `sublist_of` queued a.
Proof.
  assert (∀ g, yields [(generator_turn signal now g).2] ++
               queued (running (generator_turn signal now g).1)
                 `sublist_of` queued (running g)) as Hturn.
  { intros g. unfold generator_turn. destruct signal as [reason |]; simpl.
    { done. }
    pose proof (remove_expired_sublist now (values g)) as Hsub.
    destruct (remove_expired now (values g)) as [| x rest]; simpl.
    - apply sublist_nil_l.
    - by apply (fmap_sublist value) in Hsub. }
  destruct a as [size window | g |]; simpl; [| | done].
  - destruct signal; simpl; done.
  - specialize (Hturn g).
    destruct (generator_turn signal now g) as [g1 [x | read | reason |]];
      simpl in *; try done.
    apply sublist_nil_l.
Qed.

(** X6.  Whatever the options, and however dispatches, pulls and aborts
    follow one another, a generator invents no value and keeps the order:
    the values it has yielded, followed by those it still has in its
    queue, are a subsequence of the values it had in its queue followed
    by those dispatched.  For a generator that starts empty the values
    yielded are a subsequence of the values dispatched. *)
Theorem generator_yields_what_was_dispatched steps a :
  yields (generator_run steps a).2 ++ queued (generator_run steps a).1
    `sublist_of` queued a ++ dispatched_values steps.
Proof.
  revert a. induction steps as [| [now v | signal now] steps IH]; intros a.
  - simpl. by rewrite app_nil_r.
  - rewrite generator_run_dispatched. etrans; [apply IH |].
    change (dispatched_values (Dispatched now v :: steps))
      with ([v] ++ dispatched_values steps).
    rewrite (app_assoc (queued a)).
    apply sublist_app; [apply queued_dispatched | done].
  - rewrite generator_run_resumed. cbn [fst snd].
    change (dispatched_values (Resumed signal now :: steps))
      with (dispatched_values steps).
    rewrite yields_cons, <- app_assoc. etrans.
    + apply sublist_app; [reflexivity | apply IH].
    + rewrite app_assoc.
      apply sublist_app; [apply resume_queued | done].
Qed.

Lemma remove_expired_never now vs :
  Forall (λ v, expirationDate v = infinity) vs → remove_expired now vs = vs.
Proof. destruct 1 as [| v vs Hv _]; simpl; [done |]. by rewrite Hv. Qed.

Lemma unbounded_listener now v g :
  unbounded g →
  unbounded (generator_listener now v g) ∧
  values (generator_listener now v g) = values g ++ [mkPendingValue v infinity].
Proof.
  intros (Hs & Hw & Hall).
  assert (buffered g = true) as Hb by (unfold buffered; by rewrite Hs, Hw).
  pose proof (generator_listener_values now v g Hb) as Hvalues.
  rewrite Hs, Hw in Hvalues. simpl in Hvalues.
  destruct (generator_listener_config now v g) as [Hs' Hw'].
  split; [| done]. split; [congruence |]. split; [congruence |].
  rewrite Hvalues. apply Forall_app. split; [done |]. by constructor.
Qed.

Lemma unbounded_turn now g :
  unbounded g →
  unbounded (generator_turn None now g).1 ∧
  yields [(generator_turn None now g).2] ++
    (value <$> values (generator_turn None now g).1) = value <$> values g.
Proof.
  intros (Hs & Hw & Hall). unfold generator_turn. simpl.
  rewrite (remove_expired_never now _ Hall).
  destruct (values g) as [| x rest] eqn:Hvalues; simpl.
  - done.
  - split; [| done]. split; [done |]. split; [done |].
    by apply Forall_cons in Hall as [_ ?].
Qed.

Lemma unbounded_run steps g :
  no_abort steps → unbounded g →
  queued (running g) ++ dispatched_values steps =
    yields (generator_run steps (running g)).2 ++
    queued (generator_run steps (running g)).1.
Proof.
  intros Hsteps. revert g.
  induction Hsteps as [| [now v | [reason |] now] steps Hs _ IH]; intros g Hg.
  - simpl. by rewrite app_nil_r.
  - rewrite generator_run_dispatched. simpl dispatched.
    destruct (unbounded_listener now v g Hg) as [Hg' Hvalues].
    rewrite <- (IH _ Hg'). simpl. by rewrite Hvalues, fmap_app, <- app_assoc.
  - done.
  - rewrite generator_run_resumed. cbn [fst snd].
    destruct (unbounded_turn now g Hg) as [Hg' Hturn].
    assert (resume None now (running g) =
              (running (generator_turn None now g).1,
               (generator_turn None now g).2)) as ->.
    { simpl. unfold generator_turn.
      by destruct (remove_expired now (values g)). }
    cbn [fst snd]. rewrite yields_cons, <- app_assoc, <- (IH _ Hg').
    change (dispatched_values (Resumed None now :: steps))
      with (dispatched_values steps).
    rewrite app_assoc. f_equal. simpl queued. by rewrite <- Hturn.
Qed.

(** X7.  [emitter[Symbol.asyncIterator]()] is [toAsyncGenerator()] with
    its default options, a buffer and a window without bound.  Once its
    first pull has started it, and as long as no signal aborts it, it loses
    nothing: however dispatches and pulls follow one another, the values
    dispatched are, in order, those yielded so far followed by those still
    in the queue. *)
Theorem default_iterator_loses_nothing now steps :
  no_abort steps →
  let r := generator_run (Resumed None now :: steps) asyncIterator in
  dispatched_values steps = yields r.2 ++ queued r.1.
Proof.
  intros Hsteps r. subst r. rewrite generator_run_resumed.
  change (resume None now asyncIterator)
    with (running (mkGenerator infinity infinity [] (Some 0) 1 []), Await 0).
  cbn [fst snd]. rewrite yields_cons. simpl.
  by rewrite <- unbounded_run.
Qed.

(** X7 on a run: a first pull, two values dispatched, a pull, a third
    value. *)
Lemma default_iterator_loses_nothing_witness :
  let steps := [Dispatched 10 1; Dispatched 11 2; Resumed None 12;
                Dispatched 13 3] in
  let r := generator_run (Resumed None 9 :: steps) asyncIterator in
  yields r.2 = [1] ∧ queued r.1 = [2; 3] ∧
  dispatched_values steps = yields r.2 ++ queued r.1.
Proof.
  intros steps r. split; [reflexivity |]. split; [reflexivity |].
  apply (default_iterator_loses_nothing 9 steps).
  repeat constructor.
Defined.

Lemma within_bounds_listener now v g :
  within_bounds g → within_bounds (generator_listener now v g).
Proof.
  unfold within_bounds.
  rewrite generator_listener_buffered, generator_listener_cases.
  destruct (generator_listener_config now v g) as [-> _].
  destruct (buffered g).
  - intros Hg. destruct (num_lt _ (finite (Z.of_nat (S _)))) eqn:Hfull.
    + destruct (values g); simpl in *; [done |].
      by rewrite length_app, Nat.add_1_r.
    + by rewrite length_app, Nat.add_1_r.
  - destruct (pendingRead g); simpl; [lia | done].
Qed.

Lemma num_lt_shorter size n m :
  m ≤ n →
  num_lt size (finite (Z.of_nat n)) = false →
  num_lt size (finite (Z.of_nat m)) = false.
Proof.
  destruct size as [z |]; simpl; [| done].
  rewrite !Z.ltb_ge. lia.
Qed.

Lemma within_bounds_turn signal now g :
  within_bounds g → within_bounds (generator_turn signal now g).1.
Proof.
  unfold generator_turn. destruct signal; [done |]. simpl.
  pose proof (sublist_length _ _ (remove_expired_sublist now (values g)))
    as Hlen.
  unfold within_bounds, buffered.
  destruct (remove_expired now (values g)) as [| x rest]; simpl in *;
    destruct (_ && _); intros Hg;
    try (eapply num_lt_shorter; [| exact Hg]); simpl; lia.
Qed.

Lemma within_bounds_start size window :
  within_bounds (generator_start size window).
Proof.
  unfold within_bounds, buffered, generator_start. simpl.
  destruct (_ && _); [| lia].
  destruct size as [z |]; simpl; [| done]. apply Z.ltb_ge. lia.
Qed.

(** X8.  However dispatches, pulls and aborts follow one another, the
    queue of a generator stays within the bounds of its regime: in the
    buffered regime it never holds more than [bufferSize] values, in the
    drop-to-latest regime never more than one. *)
Theorem generator_queue_is_bounded steps size window :
  match (generator_run steps (toAsyncGenerator size window)).1 with
  | running g => within_bounds g
  | _ => True
  end.
Proof.
  assert (∀ a,
            match a with running g => within_bounds g | _ => True end →
            match (generator_run steps a).1 with
            | running g => within_bounds g
            | _ => True
            end) as Hrun; [| by apply Hrun].
  induction steps as [| [now v | signal now] steps IH]; intros a Ha.
  - done.
  - rewrite generator_run_dispatched. apply IH.
    destruct a as [s w | g |]; simpl; try done.
    by apply within_bounds_listener.
  - rewrite generator_run_resumed. cbn [fst]. apply IH.
    destruct a as [s w | g |]; simpl; [| | done].
    + pose proof (within_bounds_turn signal now _
                    (within_bounds_start s w)) as H.
      by destruct (generator_turn signal now _) as [g1 [| | |]].
    + pose proof (within_bounds_turn signal now g Ha) as H.
      by destruct (generator_turn signal now g) as [g1 [| | |]].
Qed.





(** ** More of [listen] and of the undo functions: slots and indices *)

Lemma array_set_slot a i x :
  i < length a → array_set a (Z.of_nat i) x = <[i := x]> a.
Proof.
  intros Hi. unfold array_set.
  destruct (Z.ltb_spec (Z.of_nat i) 0); [lia |].
  destruct (Z.ltb_spec (Z.of_nat i) (Z.of_nat (length a))); [| lia].
  by rewrite Nat2Z.id.
Qed.

Lemma handles_ok_listen l w :
  l ≠ hole → handles_ok w → handles_ok (listen l w).1.
Proof.
  intros Hl Hw. pose proof Hw as (Hhole & Hzero & Hclear & Hslot & Hdistinct).
  unfold listen. destruct (isUniqueAndDone w) eqn:Hud.
  - destruct (decide _); cbn [fst]; [done |].
    split; [done |]. split; [done |]. split.
    { destruct Hclear as [? | (? & ? & _)]; [by left | right].
      split; [done |]. split; [done | exact Hud]. }
    simpl. split.
    + intros h index count l' Hh. apply lookup_app_Some in Hh as [Hh | [_ Hh]].
      * by apply (Hslot h).
      * by apply list_lookup_singleton_Some in Hh as [_ ?].
    + intros h h' index count count' l1 l2 Hh Hh'.
      apply lookup_app_Some in Hh as [Hh | [_ Hh]];
        [| by apply list_lookup_singleton_Some in Hh as [_ ?]].
      apply lookup_app_Some in Hh' as [Hh' | [_ Hh']];
        [| by apply list_lookup_singleton_Some in Hh' as [_ ?]].
      by apply (Hdistinct h h' index count count' l1 l2).
  - assert (clearCount w = 0) as Hc.
    { destruct Hclear as [? | (_ & _ & ?)]; [done | congruence]. }
    assert (handles_ok
              (set_undos
                 (undos w ++
                  [undo_fn (Z.of_nat (length (listeners w))) (clearCount w) l])
                 (set_listeners (listeners w ++ [l]) w))) as Hok.
    { split; [| split; [done |]; split; [by left |]; split]; simpl.
      - rewrite elem_of_app, list_elem_of_singleton. by intros [? | ?].
      - intros h index count l' Hh Hindex.
        apply lookup_app_Some in Hh as [Hh | [_ Hh]].
        + destruct (Hslot h index count l' Hh Hindex) as [? Hi].
          split; [done |]. intros _.
          destruct (Hi Hc) as (i & ? & ?). exists i. split; [done |].
          by apply lookup_app_l_Some.
        + apply list_lookup_singleton_Some in Hh as [_ Hh]. simplify_eq.
          split; [done |]. intros _. exists (length (listeners w)).
          split; [done |]. by rewrite lookup_app_r, Nat.sub_diag.
      - intros h h' index count count' l1 l2 Hh Hh' Hindex.
        apply lookup_app_Some in Hh as [Hh | [Hlen Hh]];
          apply lookup_app_Some in Hh' as [Hh' | [Hlen' Hh']].
        + by apply (Hdistinct h h' index count count' l1 l2).
        + apply list_lookup_singleton_Some in Hh' as [_ Hh']. simplify_eq.
          destruct (Hslot h _ count l1 Hh Hindex) as [_ Hi].
          destruct (Hi Hc) as (i & Heq & Hi').
          apply lookup_lt_Some in Hi'. lia.
        + apply list_lookup_singleton_Some in Hh as [_ Hh]. simplify_eq.
          destruct (Hslot h' _ count' l2 Hh' Hindex) as [_ Hi].
          destruct (Hi Hc) as (i & Heq & Hi').
          apply lookup_lt_Some in Hi'. lia.
        + apply list_lookup_singleton_Some in Hh as [Hh _].
          apply list_lookup_singleton_Some in Hh' as [Hh' _]. lia. }
    unfold checkMaxListeners. cbn [fst]. by destruct (_ <? _).
Qed.

Lemma call_undo_slot h index count l w :
  handles_ok w →
  undos w !! h = Some (undo_fn index count l) → index ≠ (-1)%Z →
  (∃ i, index = Z.of_nat i ∧ listeners w !! i = Some l ∧
        call_undo h w =
          set_undos (<[h := undo_fn (-1)%Z count l]> (undos w))
            (set_listeners (<[i := noop]> (listeners w)) w)) ∨
  (listeners w = [] ∧
   call_undo h w =
     set_undos (<[h := undo_fn (-1)%Z (clearCount w) l]> (undos w))
       (set_listeners [] w)).
Proof.
  intros (Hhole & Hzero & Hclear & Hslot & Hdistinct) Hh Hindex.
  assert (unsubscribeCount w < maxUnsubscribeCount) as Hmax.
  { rewrite Hzero. unfold maxUnsubscribeCount. simpl. lia. }
  destruct (Hslot h index count l Hh Hindex) as [-> Hi].
  unfold call_undo. rewrite Hh.
  destruct (decide (index ≠ (-1)%Z)); [| done].
  destruct Hclear as [Hc | (Hc & Hnil & _)].
  - left. destruct (Hi Hc) as (i & -> & Hi'). exists i.
    split; [done |]. split; [done |]. rewrite Hc.
    destruct (decide (0 ≠ 0)); [done |].
    rewrite clearIfMax_id by done.
    by rewrite array_set_slot by by eapply lookup_lt_Some.
  - right. split; [done |]. rewrite Hc, Hnil.
    destruct (decide (0 ≠ 1)) as [_ | Hn]; [| by destruct Hn].
    by rewrite clearIfMax_id.
Qed.

Lemma handles_ok_call_undo h w : handles_ok w → handles_ok (call_undo h w).
Proof.
  intros Hw.
  destruct (undos w !! h) as [[| index count l] |] eqn:Hh;
    try (unfold call_undo; by rewrite Hh).
  destruct (decide (index = (-1)%Z)) as [-> | Hindex].
  { unfold call_undo. rewrite Hh. by destruct (decide _). }
  pose proof Hw as (Hhole & Hzero & Hclear & Hslot & Hdistinct).
  assert (∀ h' index' count' l' dead us,
            <[h := dead]> (undos w) !! h' = Some (undo_fn index' count' l') →
            dead = undo_fn (-1)%Z us l → index' ≠ (-1)%Z →
            h' ≠ h ∧ undos w !! h' = Some (undo_fn index' count' l')) as Hold.
  { intros h' index' count' l' dead us Hh' -> Hindex'.
    apply list_lookup_insert_Some in Hh' as [(-> & ? & _) | [? ?]];
      [by simplify_eq | done]. }
  destruct (call_undo_slot h index count l w Hw Hh Hindex)
    as [(i & -> & Hi & ->) | (Hnil & ->)].
  - split; [| split; [done |]; split; [| split]]; simpl.
    + intros Hin. apply list_elem_of_lookup in Hin as [j Hj].
      apply list_lookup_insert_Some in Hj as [(_ & ? & _) | [_ Hj]];
        [done |].
      apply Hhole. by eapply list_elem_of_lookup_2.
    + destruct Hclear as [? | (_ & Hnil & _)]; [by left |].
      by rewrite Hnil in Hi.
    + intros h' index' count' l' Hh' Hindex'.
      destruct (Hold _ _ _ _ _ _ Hh' eq_refl Hindex') as [Hne Hold'].
      destruct (Hslot h' index' count' l' Hold' Hindex') as [? Hi'].
      split; [done |]. intros Hc. destruct (Hi' Hc) as (i' & -> & Hi'').
      exists i'. split; [done |].
      rewrite list_lookup_insert_ne; [done |]. intros ->.
      by destruct Hne; apply (Hdistinct h' h _ _ _ _ _ Hold' Hh).
    + intros h1 h2 index' c1 c2 l1 l2 H1 H2 Hindex'.
      destruct (Hold _ _ _ _ _ _ H1 eq_refl Hindex') as [_ H1'].
      destruct (Hold _ _ _ _ _ _ H2 eq_refl Hindex') as [_ H2'].
      by apply (Hdistinct h1 h2 index' c1 c2 l1 l2).
  - split; [| split; [done |]; split; [| split]]; simpl.
    + apply not_elem_of_nil.
    + destruct Hclear as [? | (? & _ & ?)]; [by left | by right].
    + intros h' index' count' l' Hh' Hindex'.
      destruct (Hold _ _ _ _ _ _ Hh' eq_refl Hindex') as [Hne Hold'].
      destruct (Hslot h' index' count' l' Hold' Hindex') as [? Hi'].
      split; [done |]. intros Hc. destruct (Hi' Hc) as (i' & -> & Hi'').
      by rewrite Hnil in Hi''.
    + intros h1 h2 index' c1 c2 l1 l2 H1 H2 Hindex'.
      destruct (Hold _ _ _ _ _ _ H1 eq_refl Hindex') as [_ H1'].
      destruct (Hold _ _ _ _ _ _ H2 eq_refl Hindex') as [_ H2'].
      by apply (Hdistinct h1 h2 index' c1 c2 l1 l2).
Qed.

Lemma handles_ok_before w : handles_ok w → handles_ok (before_listeners w).
Proof.
  intros (Hhole & Hzero & Hclear & Hslot & Hdistinct).
  split; [done |]. split; [done |]. split; [| done].
  destruct Hclear as [? | (? & ? & Hud)]; [by left | right].
  split; [done |]. split; [done |].
  unfold isUniqueAndDone in *. simpl.
  by apply andb_true_iff in Hud as [-> _].
Qed.

Lemma handles_ok_after w :
  handles_ok w → dispatchCount w ≠ 0 → handles_ok (after_listeners w).
Proof.
  intros (Hhole & Hzero & Hclear & Hslot & Hdistinct) Hcount.
  unfold after_listeners. destruct (unique w) eqn:Hu.
  - split; [apply not_elem_of_nil |]. split; [done |]. split; [| split].
    + right. split; [done |]. split; [done |].
      unfold isUniqueAndDone. simpl. rewrite Hu.
      by destruct (dispatchCount w).
    + intros h index count l Hh Hindex.
      destruct (Hslot h index count l Hh Hindex) as [? _]. by split.
    + done.
  - rewrite clearIfMax_id
      by (rewrite Hzero; unfold maxUnsubscribeCount; simpl; lia).
    split; [done |]. split; [done |]. split; [| done].
    destruct Hclear as [? | (? & ? & Hud)]; [by left | right].
    split; [done |]. split; [done |].
    unfold isUniqueAndDone in *. simpl. by rewrite Hu in Hud.
Qed.

Lemma handles_ok_new maxL once after :
  handles_ok (new_emitter maxL once after).
Proof.
  split; [apply not_elem_of_nil |]. split; [done |]. split; [by left |].
  split; intros *; simpl; by rewrite lookup_nil.
Qed.

Lemma handles_ok_run code fuel script w :
  (∀ id value, Forall (registers_only (λ l, l ≠ hole)) (code id value)) →
  Forall (registers_only (λ l, l ≠ hole)) script →
  handles_ok w → handles_ok (run code fuel script w).1.
Proof.
  intros Hcode Hscript Hw.
  refine (run_inv code (λ l, l ≠ hole) handles_ok Hcode _ _ _ _ _ _ _
            fuel script w Hscript Hw).
  - intros. by apply handles_ok_listen.
  - intros. by apply handles_ok_call_undo.
  - done.
  - done.
  - done.
  - intros. by apply handles_ok_before.
  - intros w0 Hw0 Hcount. by apply (handles_ok_after w0).
Qed.

(** The same for code that owns an async emitter. *)

Lemma dropped_fst r : (dropped r).1 = r.1.
Proof. by destruct r as [w [ps | e |]]. Qed.

Section AsyncInvariantOfBodies.
Variable code : Code.
Variable allowed : Listener → Prop.
Variable P : World → Prop.
Hypothesis code_allowed : ∀ id value, Forall (registers_only allowed) (code id value).
Hypothesis P_listen : ∀ l w, allowed l → P w → P (listen l w).1.
Hypothesis P_undo : ∀ h w, P w → P (call_undo h w).
Hypothesis P_called : ∀ i l value w,
  listeners w !! i = Some l → P w → P (note (Called i l value) w).
Variable dispatch_fn : GValue → World → World * Completion.
Hypothesis P_dispatch_fn : ∀ value w, P w → P (dispatch_fn value w).1.

Lemma for_each_listener_async_inv n i value promises w :
  P w → P (for_each_listener_async code dispatch_fn n i value promises w).1.
Proof.
  revert i promises w. induction n as [| n IH]; intros i promises w Hw; simpl;
    destruct (listeners w !! i) as [l |] eqn:Hi; try done.
  pose proof (call_listener_inv code allowed P code_allowed P_listen P_undo
                dispatch_fn P_dispatch_fn l value _
                (P_called i l value w Hi Hw)) as H.
  destruct (call_listener code dispatch_fn l value _)
    as [w1 [[p |] | e |]]; auto.
Qed.
End AsyncInvariantOfBodies.

Section AsyncInvariant.
Variable code : Code.
Variable allowed : Listener → Prop.
Variable P : World → Prop.
Hypothesis code_allowed : ∀ id value, Forall (registers_only allowed) (code id value).
Hypothesis P_listen : ∀ l w, allowed l → P w → P (listen l w).1.
Hypothesis P_undo : ∀ h w, P w → P (call_undo h w).
Hypothesis P_called : ∀ i l value w,
  listeners w !! i = Some l → P w → P (note (Called i l value) w).
Hypothesis P_before : ∀ w, P w → P (before_listeners w).
Hypothesis P_after : ∀ w, P w → dispatchCount w ≠ 0 → P (after_listeners w).

Lemma async_dispatch_inv_count fuel value w :
  P w →
  P (async_dispatch code fuel value w).1 ∧
  dispatchCount w ≤ dispatchCount (async_dispatch code fuel value w).1.
Proof.
  revert value w. induction fuel as [| fuel IH]; intros value w Hw; simpl.
  - done.
  - destruct (dispatching w); [done |].
    destruct (isUniqueAndDone w); [done |].
    pose proof (for_each_listener_async_inv code allowed
                  (λ w', P w' ∧ S (dispatchCount w) ≤ dispatchCount w')
                  code_allowed) as Hloop.
    destruct (Hloop) with
      (dispatch_fn := λ value w, dropped (async_dispatch code fuel value w))
      (n := fuel) (i := 0) (value := value) (promises := @nil Promise)
      (w := before_listeners w) as [HP Hcount].
    + intros l w' Hl [HP' Hc']. split; [by apply P_listen |].
      by rewrite dispatchCount_listen.
    + intros h w' [HP' Hc']. split; [by apply P_undo |].
      by rewrite dispatchCount_call_undo.
    + intros i l v w' Hi [HP' Hc']. split; [by apply P_called | done].
    + intros v w' [HP' Hc']. rewrite dropped_fst.
      destruct (IH v w' HP') as [HP'' Hc'']. split; [done | lia].
    + split; [by apply P_before | done].
    + destruct (for_each_listener_async code _ fuel 0 value [] _)
        as [w1 r]; cbn [fst] in *.
      destruct r as [ps | e |]; cbn [fst]; [| split; [done | lia] ..].
      split; [apply P_after; [done | lia] |].
      pose proof (after_listeners_fields w1) as (_ & _ & -> & _). lia.
Qed.

Lemma run_async_inv fuel script w :
  Forall (registers_only allowed) script →
  P w → P (run_async code fuel script w).1.
Proof.
  apply run_cmds_inv; auto. intros value w0 Hw0. rewrite dropped_fst.
  by apply async_dispatch_inv_count.
Qed.
End AsyncInvariant.

Lemma handles_ok_run_async code fuel script w :
  (∀ id value, Forall (registers_only (λ l, l ≠ hole)) (code id value)) →
  Forall (registers_only (λ l, l ≠ hole)) script →
  handles_ok w → handles_ok (run_async code fuel script w).1.
Proof.
  intros Hcode Hscript Hw.
  refine (run_async_inv code (λ l, l ≠ hole) handles_ok Hcode _ _ _ _ _
            fuel script w Hscript Hw).
  - intros. by apply handles_ok_listen.
  - intros. by apply handles_ok_call_undo.
  - done.
  - intros. by apply handles_ok_before.
  - intros w0 Hw0 Hcount. by apply (handles_ok_after w0).
Qed.

Lemma handles_ok_slots w :
  handles_ok w →
  (hole ∉ listeners w) ∧
  (∀ h index count l,
     undos w !! h = Some (undo_fn index count l) → index ≠ (-1)%Z →
     (∃ i, index = Z.of_nat i ∧ listeners w !! i = Some l ∧
           listeners (call_undo h w) = <[i := noop]> (listeners w)) ∨
     (listeners w = [] ∧ listeners (call_undo h w) = [])) ∧
  (∀ h h' index count count' l l',
     undos w !! h = Some (undo_fn index count l) →
     undos w !! h' = Some (undo_fn index count' l') →
     index ≠ (-1)%Z → h = h') ∧
  (∀ h, length (listeners (call_undo h w)) = length (listeners w)).
Proof.
  intros Hw. pose proof Hw as (Hhole & _ & _ & _ & Hdistinct).
  assert (∀ h index count l,
            undos w !! h = Some (undo_fn index count l) → index ≠ (-1)%Z →
            (∃ i, index = Z.of_nat i ∧ listeners w !! i = Some l ∧
                  listeners (call_undo h w) = <[i := noop]> (listeners w)) ∨
            (listeners w = [] ∧ listeners (call_undo h w) = [])) as Hslots.
  { intros h index count l Hh Hindex.
    destruct (call_undo_slot h index count l w Hw Hh Hindex)
      as [(i & ? & ? & ->) | (? & ->)]; [left | by right].
    by exists i. }
  split; [done |]. split; [done |]. split; [done |].
  intros h. destruct (undos w !! h) as [[| index count l] |] eqn:Hh;
    try (unfold call_undo; by rewrite Hh).
  destruct (decide (index = (-1)%Z)) as [-> | Hindex].
  { unfold call_undo. rewrite Hh. by destruct (decide _). }
  destruct (Hslots h index count l Hh Hindex)
    as [(i & _ & _ & ->) | (-> & ->)]; [by rewrite length_insert | done].
Qed.

(** X10.  On an [EventEmitter], from its construction on and whatever the
    code that owns it and its listeners do with [listen], the undo
    functions and [dispatch], registering functions only: the registry has
    no empty slot, so that the loop of [#dispatch] never calls what is not
    a function; an undo function that has not run yet holds the index of
    the slot where its listener is, and running it writes the tombstone
    there and nowhere else, unless the registry is the empty one of a
    [unique] emitter that has dispatched, which it leaves empty; no two of
    these undo functions hold the same index; and no undo function changes
    the length of the registry. *)
Theorem undo_functions_keep_their_slots code fuel script maxL once after :
  (∀ id value, Forall (registers_only (λ l, l ≠ hole)) (code id value)) →
  Forall (registers_only (λ l, l ≠ hole)) script →
  let w := (run code fuel script (new_emitter maxL once after)).1 in
  (hole ∉ listeners w) ∧
  (∀ h index count l,
     undos w !! h = Some (undo_fn index count l) → index ≠ (-1)%Z →
     (∃ i, index = Z.of_nat i ∧ listeners w !! i = Some l ∧
           listeners (call_undo h w) = <[i := noop]> (listeners w)) ∨
     (listeners w = [] ∧ listeners (call_undo h w) = [])) ∧
  (∀ h h' index count count' l l',
     undos w !! h = Some (undo_fn index count l) →
     undos w !! h' = Some (undo_fn index count' l') →
     index ≠ (-1)%Z → h = h') ∧
  (∀ h, length (listeners (call_undo h w)) = length (listeners w)).
Proof.
  intros Hcode Hscript w. apply handles_ok_slots.
  apply handles_ok_run; [done | done |]. apply handles_ok_new.
Qed.

(** X11.  The same holds on an [AsyncEventEmitter], whose [listen] and
    undo functions are the same code: no empty slot, every undo function
    that has not run yet holds the index of the slot of its listener and
    writes its tombstone there, no two hold the same index, and none
    changes the length of the registry. *)
Theorem async_undo_functions_keep_their_slots code fuel script maxL once after :
  (∀ id value, Forall (registers_only (λ l, l ≠ hole)) (code id value)) →
  Forall (registers_only (λ l, l ≠ hole)) script →
  let w := (run_async code fuel script (new_emitter maxL once after)).1 in
  (hole ∉ listeners w) ∧
  (∀ h index count l,
     undos w !! h = Some (undo_fn index count l) → index ≠ (-1)%Z →
     (∃ i, index = Z.of_nat i ∧ listeners w !! i = Some l ∧
           listeners (call_undo h w) = <[i := noop]> (listeners w)) ∨
     (listeners w = [] ∧ listeners (call_undo h w) = [])) ∧
  (∀ h h' index count count' l l',
     undos w !! h = Some (undo_fn index count l) →
     undos w !! h' = Some (undo_fn index count' l') →
     index ≠ (-1)%Z → h = h') ∧
  (∀ h, length (listeners (call_undo h w)) = length (listeners w)).
Proof.
  intros Hcode Hscript w. apply handles_ok_slots.
  apply handles_ok_run_async; [done | done |]. apply handles_ok_new.
Qed.

(** The example listeners register functions only. *)
Lemma example_code_registers_functions id value :
  Forall (registers_only (λ l, l ≠ hole)) (example_code id value).
Proof.
  do 9 (destruct id as [| id]; [by repeat constructor |]).
  by repeat constructor.
Qed.

(** None of them registers [fn 20]. *)
Lemma example_code_registers_functions_only id value :
  Forall (registers_only (λ l, l ≠ fn 20 ∧ l ≠ hole)) (example_code id value).
Proof.
  do 9 (destruct id as [| id]; [by repeat constructor |]).
  by repeat constructor.
Qed.

(** X10 on an emitter where [fn 0] and [fn 1] are registered and [fn 0] is
    unregistered. *)
Lemma undo_functions_keep_their_slots_witness :
  let script := [Listen (fn 0); Listen (fn 1); Undo 0] in
  let w := (run example_code 3 script default_emitter).1 in
  listeners w = [noop; fn 1] ∧
  listeners (call_undo 1 w) = [noop; noop] ∧
  (hole ∉ listeners w) ∧
  (∀ h index count l,
     undos w !! h = Some (undo_fn index count l) → index ≠ (-1)%Z →
     (∃ i, index = Z.of_nat i ∧ listeners w !! i = Some l ∧
           listeners (call_undo h w) = <[i := noop]> (listeners w)) ∨
     (listeners w = [] ∧ listeners (call_undo h w) = [])) ∧
  (∀ h h' index count count' l l',
     undos w !! h = Some (undo_fn index count l) →
     undos w !! h' = Some (undo_fn index count' l') →
     index ≠ (-1)%Z → h = h') ∧
  (∀ h, length (listeners (call_undo h w)) = length (listeners w)).
Proof.
  intros script w. split; [reflexivity |]. split; [reflexivity |].
  apply (undo_functions_keep_their_slots example_code 3 script 10 false default).
  - apply example_code_registers_functions.
  - by repeat constructor.
Defined.

(** X11 on the same, as an async emitter. *)
Lemma async_undo_functions_keep_their_slots_witness :
  let script := [Listen (fn 0); Listen (fn 1); Undo 0] in
  let w := (run_async example_code 3 script default_emitter).1 in
  listeners w = [noop; fn 1] ∧
  listeners (call_undo 1 w) = [noop; noop] ∧
  (hole ∉ listeners w) ∧
  (∀ h index count l,
     undos w !! h = Some (undo_fn index count l) → index ≠ (-1)%Z →
     (∃ i, index = Z.of_nat i ∧ listeners w !! i = Some l ∧
           listeners (call_undo h w) = <[i := noop]> (listeners w)) ∨
     (listeners w = [] ∧ listeners (call_undo h w) = [])) ∧
  (∀ h h' index count count' l l',
     undos w !! h = Some (undo_fn index count l) →
     undos w !! h' = Some (undo_fn index count' l') →
     index ≠ (-1)%Z → h = h') ∧
  (∀ h, length (listeners (call_undo h w)) = length (listeners w)).
Proof.
  intros script w. split; [reflexivity |]. split; [reflexivity |].
  apply (async_undo_functions_keep_their_slots example_code 3 script
           10 false default).
  - apply example_code_registers_functions.
  - by repeat constructor.
Defined.

(** ** [untilNext] *)

Lemma resolutions_app id tr1 tr2 :
  resolutions id (tr1 ++ tr2) = resolutions id tr1 ++ resolutions id tr2.
Proof. apply omap_app. Qed.

Lemma resolutions_snoc_other id tr e :
  (∀ i value, e ≠ Called i (fn id) value) →
  resolutions id (tr ++ [e]) = resolutions id tr.
Proof.
  intros He. rewrite resolutions_app.
  destruct e as [i [| id' |] value | | | |]; simpl; try apply app_nil_r.
  destruct (decide (id' = id)) as [-> | ?]; [| apply app_nil_r].
  by destruct (He i value).
Qed.

Lemma resolutions_snoc_called id tr i value :
  resolutions id (tr ++ [Called i (fn id) value])
    = resolutions id tr ++ [value].
Proof.
  rewrite resolutions_app. simpl. by destruct (decide (id = id)).
Qed.

Lemma resolutions_quiet id evs : Forall quiet evs → resolutions id evs = [].
Proof.
  induction 1 as [| e evs He _ IH]; [done |].
  change (e :: evs) with ([e] ++ evs). rewrite resolutions_app, IH.
  by destruct e.
Qed.

Lemma during_quiet_resolutions id w w' :
  during quiet w w' → resolutions id (trace w') = resolutions id (trace w).
Proof.
  intros [_ _ _ _ _ _ _ _ (evs & -> & F)].
  by rewrite resolutions_app, (resolutions_quiet id evs F), app_nil_r.
Qed.

Lemma resolutions_of_calls id j value tr :
  (j, fn id, value) ∈ calls tr → value ∈ resolutions id tr.
Proof.
  unfold calls, resolutions. rewrite !list_elem_of_omap.
  intros (e & He & Hcall). exists e. split; [done |].
  destruct e as [i l v | | | |]; simplify_eq. by destruct (decide (id = id)).
Qed.

Lemma never_resolved code id fuel script w :
  (∀ id' value, Forall (registers_only (λ l, l ≠ fn id)) (code id' value)) →
  Forall (registers_only (λ l, l ≠ fn id)) script →
  (fn id ∉ listeners w) →
  (fn id ∉ listeners (run code fuel script w).1) ∧
  resolutions id (trace (run code fuel script w).1) = resolutions id (trace w).
Proof.
  intros Hcode Hscript Hnotin.
  refine (run_inv code (λ l, l ≠ fn id)
            (λ w', (fn id ∉ listeners w') ∧
                   resolutions id (trace w') = resolutions id (trace w))
            Hcode _ _ _ _ _ _ _ fuel script w Hscript (conj Hnotin eq_refl)).
  - intros l w' Hl [Hn Hr]. split.
    + destruct (listen_listeners l w') as [-> | ->]; [done |].
      rewrite elem_of_app, list_elem_of_singleton. by intros [? | ?].
    + by rewrite (during_quiet_resolutions id _ _ (listen_during l w')).
  - intros h w' [Hn Hr]. split; [by apply notin_call_undo |].
    by rewrite trace_call_undo.
  - intros i l value w' Hi [Hn Hr]. split; [done |].
    rewrite trace_note, resolutions_snoc_other; [done |].
    intros i' value' [= ? ? ?]. subst.
    apply Hn. by eapply list_elem_of_lookup_2.
  - intros e w' [Hn Hr]. split; [done |].
    by rewrite trace_note, resolutions_snoc_other.
  - intros e w' [Hn Hr]. split; [done |].
    by rewrite trace_note, resolutions_snoc_other.
  - by intros w' [Hn Hr].
  - intros w' [Hn Hr] _. split; [by apply notin_after_listeners |].
    by rewrite trace_note, trace_after_listeners, resolutions_snoc_other.
Qed.

Section InvariantOfGuardedBodies.
Variable okL : Listener → Prop.
Variable okU : nat → Prop.
Variable P : World → Prop.
Hypothesis P_listen : ∀ l w, okL l → P w → P (listen l w).1.
Hypothesis P_undo : ∀ h w, okU h → P w → P (call_undo h w).
Variable dispatch_fn : GValue → World → World * Completion.
Hypothesis P_dispatch_fn : ∀ value w, P w → P (dispatch_fn value w).1.

Lemma run_cmd_guarded c w :
  registers_only okL c → undoes_only okU c →
  P w → P (run_cmd dispatch_fn c w).1.
Proof.
  intros Hl Hu Hw. induction c as [e | l | h | value | c IH | p]; simpl; auto.
  - pose proof (P_listen l w Hl Hw) as H.
    by destruct (listen l w) as [w' [e |]].
  - pose proof (P_dispatch_fn value w Hw) as H.
    by destruct (dispatch_fn value w) as [w' [r | e |]].
  - specialize (IH Hl Hu).
    by destruct (run_cmd dispatch_fn c w) as [w' [[r | e |] |]].
Qed.

Lemma run_cmds_guarded cs w :
  Forall (λ c, registers_only okL c ∧ undoes_only okU c) cs →
  P w → P (run_cmds dispatch_fn cs w).1.
Proof.
  intros Hcs. revert w.
  induction Hcs as [| c cs [Hl Hu] _ IH]; intros w Hw; simpl.
  - done.
  - pose proof (run_cmd_guarded c w Hl Hu Hw) as H.
    destruct (run_cmd dispatch_fn c w) as [w' [r |]]; auto.
Qed.
End InvariantOfGuardedBodies.

Section InvariantOfCalls.
Variable code : Code.
Variable P : World → Prop.
Variable dispatch_fn : GValue → World → World * Completion.
Variable value : GValue.
Hypothesis P_call : ∀ i l w,
  listeners w !! i = Some l → P w →
  P (call_listener code dispatch_fn l value (note (Called i l value) w)).1.

Lemma for_each_listener_calls n i w :
  P w → P (for_each_listener code dispatch_fn n i value w).1.
Proof.
  revert i w. induction n as [| n IH]; intros i w Hw; simpl;
    destruct (listeners w !! i) as [l |] eqn:Hi; try done.
  pose proof (P_call i l w Hi Hw) as H.
  destruct (call_listener code dispatch_fn l value _) as [w1 [r | e |]];
    auto.
Qed.

Lemma for_each_listener_async_calls n i promises w :
  P w → P (for_each_listener_async code dispatch_fn n i value promises w).1.
Proof.
  revert i promises w. induction n as [| n IH]; intros i promises w Hw; simpl;
    destruct (listeners w !! i) as [l |] eqn:Hi; try done.
  pose proof (P_call i l w Hi Hw) as H.
  destruct (call_listener code dispatch_fn l value _)
    as [w1 [[p |] | e |]]; auto.
Qed.
End InvariantOfCalls.

Lemma registers_only_weaken (A B : Listener → Prop) c :
  (∀ l, A l → B l) → registers_only A c → registers_only B c.
Proof. intros HAB. induction c; simpl; auto. Qed.

Lemma listen_undos l w : ∃ us, undos (listen l w).1 = undos w ++ us.
Proof.
  unfold listen. destruct (isUniqueAndDone w).
  - destruct (decide _); simpl; [exists []; by rewrite app_nil_r |].
    by eexists.
  - unfold checkMaxListeners. simpl. destruct (_ <? _); by eexists.
Qed.

Lemma listen_appends l w :
  isUniqueAndDone w = false →
  listeners (listen l w).1 = listeners w ++ [l] ∧
  undos (listen l w).1 =
    undos w ++ [undo_fn (Z.of_nat (length (listeners w))) (clearCount w) l] ∧
  (listen l w).2 = None.
Proof.
  intros Hud. unfold listen, checkMaxListeners. rewrite Hud. simpl.
  by destruct (_ <? _).
Qed.

Lemma call_undo_inert h w :
  (∀ index count l,
     undos w !! h = Some (undo_fn index count l) → index = (-1)%Z) →
  call_undo h w = w.
Proof.
  intros Hdead. unfold call_undo.
  destruct (undos w !! h) as [[| index count l] |]; try done.
  rewrite (Hdead index count l eq_refl). by destruct (decide _).
Qed.

Lemma handles_ok_max w :
  handles_ok w → unsubscribeCount w < maxUnsubscribeCount.
Proof.
  intros (_ & -> & _). unfold maxUnsubscribeCount. simpl. lia.
Qed.

Section UntilNextCycle.
Variable code : Code.
Variables id h i : nat.
Variable value : GValue.
Hypothesis code_ok : ∀ id' v,
  Forall (λ c, registers_only (λ l, l ≠ fn id ∧ l ≠ hole) c ∧
               undoes_only (λ h', h' ≠ h) c) (code id' v).

Lemma awaited_note e w :
  (∀ j v, e ≠ Called j (fn id) v) →
  awaited id h i value w → awaited id h i value (note e w).
Proof.
  intros He (Hd & Hok & Hc & Hstate).
  split; [done |]. split; [done |]. split; [done |].
  destruct Hstate as [(Hi & Honly & Hh & Hr) | (Hn & Hr)]; [left | right].
  - split; [done |]. split; [done |]. split; [done |].
    by rewrite trace_note, resolutions_snoc_other.
  - split; [done |]. by rewrite trace_note, resolutions_snoc_other.
Qed.

Lemma awaited_listen l w :
  l ≠ fn id ∧ l ≠ hole →
  awaited id h i value w → awaited id h i value (listen l w).1.
Proof.
  intros [Hl Hl'] (Hd & Hok & Hc & Hstate).
  pose proof (listen_during l w) as Hq.
  split; [by rewrite (during_dispatching _ _ _ Hq) |].
  split; [by apply handles_ok_listen |].
  split; [by rewrite (during_clearCount _ _ _ Hq) |].
  destruct Hstate as [(Hi & Honly & Hh & Hr) | (Hn & Hr)]; [left | right];
    rewrite <- (during_quiet_resolutions id _ _ Hq) in Hr.
  - destruct (listen_undos l w) as [us Hus]. unfold armed. rewrite Hus.
    split; [| split; [| split; [by apply lookup_app_l_Some | done]]].
    + destruct (listen_listeners l w) as [-> | ->]; [done |].
      by apply lookup_app_l_Some.
    + intros j Hj. destruct (listen_listeners l w) as [Hls | Hls];
        rewrite Hls in Hj; [by apply Honly |].
      apply lookup_app_Some in Hj as [Hj | [_ Hj]]; [by apply Honly |].
      by apply list_lookup_singleton_Some in Hj as [_ ?].
  - split; [| done].
    destruct (listen_listeners l w) as [-> | ->]; [done |].
    rewrite elem_of_app, list_elem_of_singleton. by intros [? | ?].
Qed.

Lemma awaited_call_undo h' w :
  h' ≠ h →
  awaited id h i value w → awaited id h i value (call_undo h' w).
Proof.
  intros Hne (Hd & Hok & Hc & Hstate).
  pose proof (call_undo_during h' w (handles_ok_max w Hok)) as Hq.
  split; [by rewrite (during_dispatching _ _ _ Hq) |].
  split; [by apply handles_ok_call_undo |].
  split; [by rewrite (during_clearCount _ _ _ Hq) |].
  destruct Hstate as [(Hi & Honly & Hh & Hr) | (Hn & Hr)]; [left | right].
  - destruct (undos w !! h') as [[| index count l] |] eqn:Hh';
      try (rewrite call_undo_inert; [done | intros; congruence]).
    destruct (decide (index = (-1)%Z)) as [-> | Hindex].
    { rewrite call_undo_inert; [done | intros; congruence]. }
    destruct (call_undo_slot h' index count l w Hok Hh' Hindex)
      as [(i' & -> & Hi' & ->) | (Hnil & _)]; [| by rewrite Hnil in Hi].
    assert (i' ≠ i) as Hslot.
    { intros ->. destruct Hok as (_ & _ & _ & _ & Hdistinct).
      by destruct Hne; apply (Hdistinct h' h _ _ _ _ _ Hh' Hh). }
    unfold armed. simpl. split; [by rewrite list_lookup_insert_ne |].
    split; [| split; [by rewrite list_lookup_insert_ne | done]].
    intros j Hj.
    apply list_lookup_insert_Some in Hj as [(_ & ? & _) | [_ Hj]];
      [done | by apply Honly].
  - split; [by apply notin_call_undo | by rewrite trace_call_undo].
Qed.

Lemma awaited_dispatch code' fuel v w :
  awaited id h i value w → awaited id h i value (dispatch code' fuel v w).1.
Proof.
  intros Hw. pose proof Hw as (Hd & _).
  destruct (dispatch_busy code' fuel v w Hd) as [-> | ->]; [done |].
  by apply awaited_note.
Qed.

Lemma awaited_async_dispatch code' fuel v w :
  awaited id h i value w →
  awaited id h i value (dropped (async_dispatch code' fuel v w)).1.
Proof.
  intros Hw. pose proof Hw as (Hd & _). rewrite dropped_fst.
  by destruct (async_dispatch_busy code' fuel v w Hd) as [-> | ->].
Qed.

Variable dispatch_fn : GValue → World → World * Completion.
Hypothesis dispatch_fn_awaited : ∀ v w,
  awaited id h i value w → awaited id h i value (dispatch_fn v w).1.

Lemma awaited_call j l w :
  listeners w !! j = Some l →
  awaited id h i value w →
  awaited id h i value
    (call_listener (with_untilNext id h code) dispatch_fn l value
       (note (Called j l value) w)).1.
Proof.
  intros Hj Hw. destruct l as [| id' |]; simpl.
  - by apply awaited_note.
  - unfold with_untilNext. destruct (decide (id' = id)) as [-> | Hid].
    + destruct Hw as (Hd & Hok & Hc & [(Hi & Honly & Hh & Hr) | (Hn & _)]);
        [| by destruct Hn; eapply list_elem_of_lookup_2].
      pose proof (Honly j Hj) as ->. simpl.
      set (w1 := note (Called i (fn id) value) w).
      assert (handles_ok w1) as Hok1 by done.
      pose proof (call_undo_during h w1 (handles_ok_max w1 Hok1)) as Hq.
      split; [by rewrite (during_dispatching _ _ _ Hq) |].
      split; [by apply handles_ok_call_undo |].
      split; [by rewrite (during_clearCount _ _ _ Hq) |].
      right. split.
      * assert (Z.of_nat i ≠ (-1)%Z) as Hindex by lia.
        destruct (call_undo_slot h _ 0 (fn id) w1 Hok1 Hh Hindex)
          as [(i' & Heq & _ & ->) | (Hnil & _)];
          [| simpl in Hnil; by rewrite Hnil in Hi].
        apply Nat2Z.inj in Heq as <-. simpl. intros Hin.
        apply list_elem_of_lookup in Hin as [k Hk].
        apply list_lookup_insert_Some in Hk as [(_ & ? & _) | [Hne Hk]];
          [done |].
        by destruct Hne; symmetry; apply Honly.
      * rewrite trace_call_undo. unfold w1.
        by rewrite trace_note, resolutions_snoc_called, Hr.
    + apply (run_cmds_guarded (λ l, l ≠ fn id ∧ l ≠ hole) (λ h', h' ≠ h)
               (awaited id h i value)).
      * intros. by apply awaited_listen.
      * intros. by apply awaited_call_undo.
      * apply dispatch_fn_awaited.
      * apply code_ok.
      * apply awaited_note; [| done]. by intros ? ? [= ?].
  - by apply awaited_note.
Qed.

Lemma awaited_loop n j w :
  awaited id h i value w →
  awaited id h i value
    (for_each_listener (with_untilNext id h code) dispatch_fn n j value w).1.
Proof.
  apply for_each_listener_calls. intros. by apply awaited_call.
Qed.

Lemma awaited_async_loop n j promises w :
  awaited id h i value w →
  awaited id h i value
    (for_each_listener_async (with_untilNext id h code) dispatch_fn
       n j value promises w).1.
Proof.
  apply for_each_listener_async_calls. intros. by apply awaited_call.
Qed.
End UntilNextCycle.

Lemma untilNext_registers signal id code w :
  (∀ reason, signal ≠ Some (Some reason)) →
  isUniqueAndDone w = false →
  untilNext signal id code w =
    ((listen (fn id) w).1, with_untilNext id (length (undos w)) code,
     mkUntilNext id (Some (length (undos w)))
       match signal with Some _ => true | None => false end None).
Proof.
  intros Hs Hud. destruct (listen_appends (fn id) w Hud) as (_ & _ & Hnone).
  unfold untilNext.
  destruct signal as [[reason |] |]; [by destruct (Hs reason) | |];
    by destruct (listen (fn id) w) as [w' [e |]]; simplify_eq.
Qed.

Lemma handles_ok_clearCount w :
  handles_ok w → isUniqueAndDone w = false → clearCount w = 0.
Proof.
  intros (_ & _ & [? | (_ & _ & ?)] & _) Hud; [done | congruence].
Qed.

Lemma armed_after_listen id w :
  handles_ok w → isUniqueAndDone w = false →
  (fn id ∉ listeners w) → resolutions id (trace w) = [] →
  armed id (length (undos w)) (length (listeners w)) (listen (fn id) w).1.
Proof.
  intros Hok Hud Hnotin Hr.
  destruct (listen_appends (fn id) w Hud) as (Hls & Hus & _).
  unfold armed. rewrite Hls, Hus, (handles_ok_clearCount w Hok Hud).
  split; [by rewrite lookup_app_r, Nat.sub_diag |].
  split; [| split; [by rewrite lookup_app_r, Nat.sub_diag |]].
  - intros j Hj. apply lookup_app_Some in Hj as [Hj | [? Hj]].
    + destruct Hnotin. by eapply list_elem_of_lookup_2.
    + apply list_lookup_singleton_Some in Hj as [? _]. lia.
  - by rewrite (during_quiet_resolutions id _ _ (listen_during (fn id) w)).
Qed.

Lemma with_untilNext_registers (A : Listener → Prop) id h code :
  (∀ id' v, Forall (registers_only A) (code id' v)) →
  ∀ id' v, Forall (registers_only A) (with_untilNext id h code id' v).
Proof.
  intros Hcode id' v. unfold with_untilNext.
  destruct (decide _); [by repeat constructor | apply Hcode].
Qed.

(** X12.  When there is nothing to wait for, [untilNext] registers nothing
    and its promise is settled at once or never: with a signal that is
    already aborted the promise is rejected with the reason of the signal;
    on a [unique] emitter that has dispatched, it is rejected with 'Event
    already emitted.' if the emitter was built with
    [listenAfterUniqueDispatched: 'error'], and otherwise it stays pending
    whatever runs next, its listener being in no registry. *)
Theorem untilNext_with_nothing_to_await id code w :
  (∀ reason tr,
     (untilNext (Some (Some reason)) id code w).1.1 = w ∧
     untilNext_promise (untilNext (Some (Some reason)) id code w).2 tr
       = RejectedWith reason) ∧
  (isUniqueAndDone w = true →
   ∀ signal, (∀ reason, signal ≠ Some (Some reason)) →
   (listenAfterUniqueDispatched w = error →
    ∀ tr, (untilNext signal id code w).1.1 = w ∧
          untilNext_promise (untilNext signal id code w).2 tr
            = RejectedWith EventAlreadyEmitted) ∧
   (listenAfterUniqueDispatched w = default →
    (fn id ∉ listeners w) → resolutions id (trace w) = [] →
    (∀ id' v, Forall (registers_only (λ l, l ≠ fn id)) (code id' v)) →
    listeners (untilNext signal id code w).1.1 = listeners w ∧
    ∀ fuel script,
      Forall (registers_only (λ l, l ≠ fn id)) script →
      untilNext_promise (untilNext signal id code w).2
        (trace (run (untilNext signal id code w).1.2 fuel script
                  (untilNext signal id code w).1.1).1)
        = StillPending)).
Proof.
  split; [done |]. intros Hud signal Hs.
  assert (untilNext signal id code w =
            match listen (fn id) w with
            | (w', Some e) => (w', code, mkUntilNext id None false (Some e))
            | (w', None) =>
                (w', with_untilNext id (length (undos w)) code,
                 mkUntilNext id (Some (length (undos w)))
                   match signal with Some _ => true | None => false end None)
            end) as ->.
  { unfold untilNext.
    destruct signal as [[reason |] |]; [by destruct (Hs reason) | done ..]. }
  unfold listen. rewrite Hud. split.
  - intros ->. by destruct (decide _).
  - intros Hdefault Hnotin Hr Hcode. rewrite Hdefault.
    destruct (decide _); [done |]. cbn [fst snd]. split; [done |].
    intros fuel script Hscript.
    destruct (never_resolved (with_untilNext id (length (undos w)) code) id
                fuel script (set_undos (undos w ++ [undo_noop]) w))
      as [_ Hnever]; [by apply with_untilNext_registers | done | done |].
    unfold untilNext_promise. cbn [rejection selfListener].
    rewrite Hnever. simpl. by rewrite Hr.
Qed.

(** X12 on a [unique] emitter that has dispatched: [untilNext] is called,
    then two more dispatches are tried. *)
Lemma untilNext_with_nothing_to_await_witness :
  let w := (dispatch example_code 3 5 (unique_emitter_with [fn 0])).1 in
  let r := untilNext None 20 example_code w in
  listeners r.1.1 = listeners w ∧
  ∀ fuel,
    untilNext_promise r.2
      (trace (run r.1.2 fuel [Try (Dispatch 6); Try (Dispatch 7)] r.1.1).1)
      = StillPending.
Proof.
  intros w r.
  destruct (proj2 (untilNext_with_nothing_to_await 20 example_code w)
              eq_refl None ltac:(done)) as [_ Hpending].
  destruct Hpending as [Hls Hpending].
  - reflexivity.
  - vm_compute. by intros ?%elem_of_nil.
  - reflexivity.
  - intros id' v. eapply Forall_impl;
      [apply example_code_registers_functions_only |].
    intros c. apply registers_only_weaken. by intros l [? ?].
  - split; [exact Hls |]. intros fuel. apply Hpending.
    by repeat constructor.
Defined.

Lemma numbered_lookup s value ls k l :
  ls !! k = Some l → (s + k, l, value) ∈ numbered s value ls.
Proof.
  revert s k. induction ls as [| x ls IH]; intros s k Hk; [done |].
  destruct k as [| k]; simpl in *.
  - simplify_eq. rewrite Nat.add_0_r. apply list_elem_of_here.
  - apply list_elem_of_further. rewrite <- Nat.add_succ_comm. by apply IH.
Qed.

Lemma untilNext_cycle code id value fuel w :
  handles_ok w → isUniqueAndDone w = false → dispatching w = false →
  (fn id ∉ listeners w) → resolutions id (trace w) = [] →
  (∀ id' v,
     Forall (λ c, registers_only (λ l, l ≠ fn id ∧ l ≠ hole) c ∧
                  undoes_only (λ h, h ≠ length (undos w)) c) (code id' v)) →
  let w1 := (listen (fn id) w).1 in
  let code1 := with_untilNext id (length (undos w)) code in
  let w2 := (dispatch code1 fuel value w1).1 in
  (resolutions id (trace w2) = [] ∨ resolutions id (trace w2) = [value]) ∧
  (∀ r, (dispatch code1 fuel value w1).2 = Returned r →
     (fn id ∉ listeners w2) ∧ resolutions id (trace w2) = [value]).
Proof.
  intros Hok Hud Hd Hnotin Hr Hcode w1 code1 w2.
  set (h := length (undos w)) in *. set (i := length (listeners w)).
  pose proof (armed_after_listen id w Hok Hud Hnotin Hr) as Harmed.
  fold h i w1 in Harmed.
  pose proof (listen_during (fn id) w) as Hq. fold w1 in Hq.
  assert (handles_ok w1) as Hok1 by by apply handles_ok_listen.
  assert (clearCount w1 = 0) as Hc1.
  { rewrite (during_clearCount _ _ _ Hq). by apply handles_ok_clearCount. }
  assert (dispatching w1 = false) as Hd1
    by by rewrite (during_dispatching _ _ _ Hq).
  assert (isUniqueAndDone w1 = false) as Hud1
    by (unfold w1; by rewrite isUniqueAndDone_listen).
  assert (resolutions id (trace w1) = []) as Hr1 by apply Harmed.
  subst w2. destruct fuel as [| fuel]; [by split; [left |] |].
  cbn [dispatch]. rewrite Hd1, Hud1.
  assert (awaited id h i value (before_listeners w1)) as Hstart.
  { split; [done |]. split; [by apply handles_ok_before |].
    split; [done |]. by left. }
  pose proof (awaited_loop code id h i value Hcode (dispatch code1 fuel)
                (awaited_dispatch id h i value code1 fuel) fuel 0 _ Hstart)
    as Hend. fold code1 in Hend.
  destruct (for_each_listener code1 (dispatch code1 fuel) fuel 0 value
              (before_listeners w1)) as [w2 r2] eqn:Hloop.
  cbn [fst] in Hend. destruct Hend as (_ & _ & _ & Hstate).
  assert (resolutions id (trace w2) = [] ∨
          resolutions id (trace w2) = [value]) as Hcases.
  { destruct Hstate as [(_ & _ & _ & ?) | (_ & ?)]; auto. }
  destruct r2 as [r | e |]; cbn [fst snd].
  - rewrite trace_note, trace_after_listeners, resolutions_snoc_other by done.
    split; [done |]. intros _ _. rewrite listeners_note.
    destruct Hstate as [(Hi & _ & _ & Hnone) | (Hn & Hone)];
      [| split; [by apply notin_after_listeners | done]].
    apply for_each_listener_visited in Hloop
      as (ls & (_ & Hcalls & Hnow & _) & Hlen & _);
      [| apply dispatch_during_busy
       | apply busy_before_listeners; by apply handles_ok_max].
    specialize (Hlen r eq_refl (Nat.le_0_l _)). simpl in Hlen.
    destruct (ls !! i) as [l |] eqn:Hl.
    + assert (l = fn id) as ->.
      { destruct (Hnow i l Hl) as [H | H]; simpl in H; congruence. }
      assert ((i, fn id, value) ∈ calls (trace w2)) as Hin.
      { rewrite Hcalls, elem_of_app. right.
        by apply (numbered_lookup 0 value ls i). }
      apply resolutions_of_calls in Hin. rewrite Hnone in Hin.
      by apply elem_of_nil in Hin.
    + apply lookup_ge_None in Hl. apply lookup_lt_Some in Hi. lia.
  - rewrite trace_note, resolutions_snoc_other by done. by split.
  - by split.
Qed.

(** X13.  [untilNext] registers a listener of its own, and its promise is
    pending until that listener is called.  However the next dispatch
    ends, it has called that listener once at most; when it returns, the
    promise is resolved with the value dispatched, the listener has
    unregistered itself, and it is called never again, whatever runs next:
    one call of [untilNext] takes one event.  The emitter is one used
    through [listen], its undo functions and [dispatch], and no other code
    holds the undo function of this listener. *)
Theorem untilNext_resolves_once signal id code w value fuel :
  (∀ reason, signal ≠ Some (Some reason)) →
  handles_ok w → isUniqueAndDone w = false → dispatching w = false →
  (fn id ∉ listeners w) → resolutions id (trace w) = [] →
  (∀ id' v,
     Forall (λ c, registers_only (λ l, l ≠ fn id ∧ l ≠ hole) c ∧
                  undoes_only (λ h, h ≠ length (undos w)) c) (code id' v)) →
  let w1 := (untilNext signal id code w).1.1 in
  let code1 := (untilNext signal id code w).1.2 in
  let u := (untilNext signal id code w).2 in
  let w2 := (dispatch code1 fuel value w1).1 in
  listeners w1 = listeners w ++ [fn id] ∧
  untilNext_promise u (trace w1) = StillPending ∧
  (untilNext_promise u (trace w2) = StillPending ∨
   untilNext_promise u (trace w2) = ResolvedWith value) ∧
  (∀ r, (dispatch code1 fuel value w1).2 = Returned r →
     untilNext_promise u (trace w2) = ResolvedWith value ∧
     (fn id ∉ listeners w2) ∧
     ∀ fuel' script,
       Forall (registers_only (λ l, l ≠ fn id)) script →
       resolutions id (trace (run code1 fuel' script w2).1) = [value]).
Proof.
  intros Hs Hok Hud Hd Hnotin Hr Hcode.
  rewrite (untilNext_registers signal id code w Hs Hud). cbn [fst snd].
  destruct (untilNext_cycle code id value fuel w Hok Hud Hd Hnotin Hr Hcode)
    as [Hcases Hreturned].
  set (w1 := (listen (fn id) w).1) in *.
  set (code1 := with_untilNext id (length (undos w)) code) in *.
  set (w2 := (dispatch code1 fuel value w1).1) in *.
  destruct (listen_appends (fn id) w Hud) as (Hls & _).
  split; [done |].
  unfold untilNext_promise. cbn [rejection selfListener].
  split; [| split].
  - unfold w1.
    by rewrite (during_quiet_resolutions id _ _ (listen_during (fn id) w)), Hr.
  - destruct Hcases as [-> | ->]; auto.
  - intros r Hret. destruct (Hreturned r Hret) as [Hn Hone].
    rewrite Hone. split; [done |]. split; [done |].
    intros fuel' script Hscript.
    destruct (never_resolved code1 id fuel' script w2) as [_ ->];
      try done.
    apply with_untilNext_registers. intros id' v.
    eapply Forall_impl; [apply Hcode |]. intros c [Hc _]. revert Hc.
    apply registers_only_weaken. by intros l [? ?].
Qed.

(** The example listeners register neither [fn 20] nor what is not a
    function, and call no undo function. *)
Lemma example_code_keeps_out id value :
  Forall (λ c, registers_only (λ l, l ≠ fn 20 ∧ l ≠ hole) c ∧
               undoes_only (λ h, h ≠ 1) c) (example_code id value).
Proof.
  do 9 (destruct id as [| id]; [by repeat constructor |]).
  by repeat constructor.
Qed.

(** X13 on an emitter with a listener [fn 0]: [untilNext] is called, then
    5 is dispatched. *)
Lemma untilNext_resolves_once_witness :
  let w := emitter_with [fn 0] in
  let r := untilNext None 20 example_code w in
  let w2 := (dispatch r.1.2 3 5 r.1.1).1 in
  listeners r.1.1 = [fn 0; fn 20] ∧
  untilNext_promise r.2 (trace r.1.1) = StillPending ∧
  untilNext_promise r.2 (trace w2) = ResolvedWith 5 ∧
  listeners w2 = [fn 0; noop] ∧
  ∀ fuel' script,
    Forall (registers_only (λ l, l ≠ fn 20)) script →
    resolutions 20 (trace (run r.1.2 fuel' script w2).1) = [5].
Proof.
  intros w r w2.
  assert (handles_ok w) as Hok.
  { apply handles_ok_run; [apply example_code_registers_functions | |
                           apply handles_ok_new].
    by repeat constructor. }
  destruct (untilNext_resolves_once None 20 example_code w 5 3)
    as (Hls & Hpending & _ & Hreturned).
  - done.
  - exact Hok.
  - reflexivity.
  - reflexivity.
  - vm_compute. intros Hin. repeat (apply elem_of_cons in Hin as [? | Hin]);
      try done. by apply elem_of_nil in Hin.
  - reflexivity.
  - apply example_code_keeps_out.
  - destruct (Hreturned None eq_refl) as (Hresolved & _ & Honce).
    split; [exact Hls |]. split; [exact Hpending |].
    split; [exact Hresolved |]. split; [reflexivity | exact Honce].
Defined.

Lemma registered_once_call_undo id h i h' w :
  registered_once id h i w → registered_once id h i (call_undo h' w).
Proof.
  intros (Hok & Honly & Hh).
  destruct (undos w !! h') as [[| index count l] |] eqn:Hh';
    try (rewrite call_undo_inert; [done | intros; congruence]).
  destruct (decide (index = (-1)%Z)) as [-> | Hindex].
  { rewrite call_undo_inert; [done | intros; congruence]. }
  split; [by apply handles_ok_call_undo |].
  destruct (call_undo_slot h' index count l w Hok Hh' Hindex)
    as [(i' & -> & Hi' & ->) | (Hnil & ->)]; simpl.
  - split.
    + intros j Hj.
      apply list_lookup_insert_Some in Hj as [(_ & ? & _) | [_ Hj]];
        [done | by apply Honly].
    + intros Hin. apply list_elem_of_lookup in Hin as [j Hj].
      apply list_lookup_insert_Some in Hj as [(_ & ? & _) | [Hne Hj]];
        [done |].
      pose proof (Honly j Hj) as ->.
      pose proof (Hh (list_elem_of_lookup_2 _ _ _ Hj)) as Hh0.
      rewrite list_lookup_insert_ne; [done |].
      intros ->. rewrite Hh' in Hh0. by simplify_eq.
  - split; [intros j Hj; by rewrite lookup_nil in Hj |].
    by intros ?%elem_of_nil.
Qed.

Lemma registered_once_run code id h i fuel script w :
  (∀ id' v, Forall (registers_only (λ l, l ≠ fn id ∧ l ≠ hole)) (code id' v)) →
  Forall (registers_only (λ l, l ≠ fn id ∧ l ≠ hole)) script →
  registered_once id h i w →
  registered_once id h i (run code fuel script w).1.
Proof.
  intros Hcode Hscript Hw.
  refine (run_inv code (λ l, l ≠ fn id ∧ l ≠ hole) (registered_once id h i)
            Hcode _ _ _ _ _ _ _ fuel script w Hscript Hw).
  - intros l w0 [Hl Hl'] (Hok & Honly & Hh).
    split; [by apply handles_ok_listen |].
    destruct (listen_undos l w0) as [us Hus]. rewrite Hus.
    destruct (listen_listeners l w0) as [-> | ->].
    + split; [done |]. intros Hin. by apply lookup_app_l_Some, Hh.
    + split.
      * intros j Hj. apply lookup_app_Some in Hj as [Hj | [_ Hj]];
          [by apply Honly |].
        by apply list_lookup_singleton_Some in Hj as [_ ?].
      * rewrite elem_of_app, list_elem_of_singleton.
        intros [Hin | ?]; [| done]. by apply lookup_app_l_Some, Hh.
  - intros. by apply registered_once_call_undo.
  - done.
  - done.
  - done.
  - intros w0 (Hok & Honly & Hh). split; [by apply handles_ok_before | done].
  - intros w0 (Hok & Honly & Hh) Hcount.
    split; [by apply (handles_ok_after w0) |].
    unfold after_listeners. destruct (unique w0); simpl.
    + split; [intros j Hj; by rewrite lookup_nil in Hj |].
      by intros ?%elem_of_nil.
    + by rewrite clearIfMax_id by by apply handles_ok_max.
Qed.

(** X14.  The signal given to [untilNext] aborts, some code having run
    since.  If the listener of [untilNext] has been called by then, the
    abort changes nothing.  If not, the promise is rejected with the
    reason of the signal; the listener is unregistered, so that it is
    called never again, whatever runs next; and a further abort changes
    nothing. *)
Theorem untilNext_abort_unregisters id code w reason fuel script :
  handles_ok w → isUniqueAndDone w = false →
  (fn id ∉ listeners w) → resolutions id (trace w) = [] →
  (∀ id' v, Forall (registers_only (λ l, l ≠ fn id ∧ l ≠ hole)) (code id' v)) →
  Forall (registers_only (λ l, l ≠ fn id ∧ l ≠ hole)) script →
  let r := untilNext (Some None) id code w in
  let w2 := (run r.1.2 fuel script r.1.1).1 in
  (resolutions id (trace w2) ≠ [] →
   untilNext_abort reason r.2 w2 = (w2, r.2)) ∧
  (resolutions id (trace w2) = [] →
   let a := untilNext_abort reason r.2 w2 in
   (∀ tr, untilNext_promise a.2 tr = RejectedWith reason) ∧
   (fn id ∉ listeners a.1) ∧
   (∀ fuel' script',
      Forall (registers_only (λ l, l ≠ fn id)) script' →
      resolutions id (trace (run r.1.2 fuel' script' a.1).1) = []) ∧
   (∀ reason' w', untilNext_abort reason' a.2 w' = (w', a.2))).
Proof.
  intros Hok Hud Hnotin Hr Hcode Hscript.
  rewrite (untilNext_registers (Some None) id code w ltac:(done) Hud).
  cbn [fst snd].
  set (h := length (undos w)). set (i := length (listeners w)).
  set (w1 := (listen (fn id) w).1).
  set (code1 := with_untilNext id h code).
  set (w2 := (run code1 fuel script w1).1).
  assert (∀ id' v, Forall (registers_only (λ l, l ≠ fn id ∧ l ≠ hole))
                     (code1 id' v)) as Hcode1
    by by apply with_untilNext_registers.
  assert (registered_once id h i w2) as (Hok2 & Honly2 & Hh2).
  { apply registered_once_run; [done | done |].
    destruct (armed_after_listen id w Hok Hud Hnotin Hr) as (_ & ? & ? & _).
    split; [by apply handles_ok_listen |]. done. }
  unfold untilNext_abort. cbn [stopSelfListener rejection selfListener onAbort].
  split.
  - intros Hne. by destruct (resolutions id (trace w2)).
  - intros Hnone. rewrite Hnone. cbn [fst snd]. split; [done |].
    assert (fn id ∉ listeners (call_undo h w2)) as Hgone.
    { destruct (decide (fn id ∈ listeners w2)) as [Hin | Hnot];
        [| by apply notin_call_undo].
      assert (Z.of_nat i ≠ (-1)%Z) as Hindex by lia.
      destruct (call_undo_slot h _ 0 (fn id) w2 Hok2 (Hh2 Hin) Hindex)
        as [(i' & Heq & _ & ->) | (Hnil & _)];
        [| rewrite Hnil in Hin; by apply elem_of_nil in Hin].
      apply Nat2Z.inj in Heq as <-. simpl. intros Hin'.
      apply list_elem_of_lookup in Hin' as [k Hk].
      apply list_lookup_insert_Some in Hk as [(_ & ? & _) | [Hne Hk]];
        [done |].
      by destruct Hne; symmetry; apply Honly2. }
    split; [done |]. split; [| done].
    intros fuel' script' Hscript'.
    destruct (never_resolved code1 id fuel' script' (call_undo h w2))
      as [_ ->]; try done.
    + intros id' v. eapply Forall_impl; [apply Hcode1 |].
      intros c. apply registers_only_weaken. by intros l [? ?].
    + by rewrite trace_call_undo.
Qed.

(** X14 on an emitter with a listener [fn 0]: [untilNext] is called with a
    signal, [fn 9] is registered, then the signal aborts. *)
Lemma untilNext_abort_unregisters_witness :
  let w := emitter_with [fn 0] in
  let r := untilNext (Some None) 20 example_code w in
  let w2 := (run r.1.2 3 [Listen (fn 9)] r.1.1).1 in
  let a := untilNext_abort (Reason 1) r.2 w2 in
  listeners w2 = [fn 0; fn 20; fn 9] ∧
  listeners a.1 = [fn 0; noop; fn 9] ∧
  (∀ tr, untilNext_promise a.2 tr = RejectedWith (Reason 1)) ∧
  (fn 20 ∉ listeners a.1) ∧
  (∀ fuel' script',
     Forall (registers_only (λ l, l ≠ fn 20)) script' →
     resolutions 20 (trace (run r.1.2 fuel' script' a.1).1) = []) ∧
  (∀ reason' w', untilNext_abort reason' a.2 w' = (w', a.2)).
Proof.
  intros w r w2 a.
  assert (handles_ok w) as Hok.
  { apply handles_ok_run; [apply example_code_registers_functions | |
                           apply handles_ok_new].
    by repeat constructor. }
  destruct (untilNext_abort_unregisters 20 example_code w (Reason 1) 3
              [Listen (fn 9)]) as [_ Habort].
  - exact Hok.
  - reflexivity.
  - vm_compute. intros Hin. repeat (apply elem_of_cons in Hin as [? | Hin]);
      try done. by apply elem_of_nil in Hin.
  - reflexivity.
  - apply example_code_registers_functions_only.
  - by repeat constructor.
  - split; [reflexivity |]. split; [reflexivity |].
    apply Habort. reflexivity.
Defined.

(** ** [EventsEmitter] *)

Lemma default_options_call_undo h w :
  default_options w → default_options (call_undo h w).
Proof.
  unfold call_undo. destruct (undos w !! h) as [[| index count l] |]; try done.
  destruct (decide _); [| done].
  unfold clearIfMaxUnsubscribeCountIsReached.
  destruct (decide (count ≠ clearCount w)); by destruct (_ <=? _).
Qed.

Lemma default_options_dispatch code fuel value w :
  default_options w → default_options (dispatch code fuel value w).1.
Proof.
  apply (dispatch_inv code (λ _, True) default_options).
  - intros. apply Forall_forall. intros. apply registers_only_any.
  - intros l w0 _ (? & ? & ?). destruct (listen_during l w0).
    repeat split; congruence.
  - intros. by apply default_options_call_undo.
  - done.
  - done.
  - done.
  - done.
  - intros w0 (? & Hu & ?) _. unfold after_listeners. rewrite Hu.
    unfold clearIfMaxUnsubscribeCountIsReached. by destruct (_ <=? _).
Qed.

Lemma events_listen_lookup type type' l m :
  (events_listen type l m).1 !! type' =
    if decide (type' = type)
    then Some (listen l match m !! type with
                        | Some source => source
                        | None => default_emitter
                        end).1
    else m !! type'.
Proof.
  unfold events_listen.
  destruct (listen l _) as [w' r]. simpl.
  destruct (decide (type' = type)) as [-> | Hne].
  - by rewrite lookup_insert_eq.
  - by rewrite lookup_insert_ne.
Qed.

Lemma events_run_emitters code fuel steps m :
  (∀ type w, m !! type = Some w → default_options w) →
  let m' := events_run code fuel steps m in
  (∀ type w, m' !! type = Some w → default_options w) ∧
  (∀ type, is_Some (m' !! type) ↔
           is_Some (m !! type) ∨ type ∈ listened_types steps).
Proof.
  revert m.
  induction steps as [| [type l | type h | type value] steps IH];
    intros m Hm; cbn [events_run].
  - split; [done |]. intros type. split; [by left |].
    by intros [? | ?%elem_of_nil].
  - destruct (IH (events_listen type l m).1) as [Hoptions Hsome].
    { intros type' w'. rewrite events_listen_lookup.
      destruct (decide _) as [-> | _]; [| by apply Hm]. intros [= <-].
      assert (default_options match m !! type with
                              | Some source => source
                              | None => default_emitter
                              end) as (? & ? & ?).
      { destruct (m !! type) as [w |] eqn:Hw; [by apply (Hm type) | done]. }
      destruct (listen_during l match m !! type with
                                | Some source => source
                                | None => default_emitter
                                end).
      repeat split; congruence. }
    split; [done |]. intros type'. rewrite Hsome, events_listen_lookup.
    change (listened_types (ListenTo type l :: steps))
      with (type :: listened_types steps).
    rewrite elem_of_cons. destruct (decide (type' = type)) as [-> | Hne].
    + split; [by right; left | by left].
    + by intuition.
  - destruct (IH (events_undo type h m)) as [Hoptions Hsome].
    { intros type' w'. unfold events_undo.
      destruct (m !! type) as [w |] eqn:Hw; [| by apply Hm].
      destruct (decide (type' = type)) as [-> | Hne].
      - rewrite lookup_insert_eq. intros [= <-].
        by apply default_options_call_undo, (Hm type).
      - rewrite lookup_insert_ne by done. by apply Hm. }
    split; [done |]. intros type'. rewrite Hsome.
    change (listened_types (UndoOf type h :: steps))
      with (listened_types steps).
    assert (is_Some (events_undo type h m !! type') ↔ is_Some (m !! type'))
      as ->; [| done].
    unfold events_undo.
    destruct (m !! type) as [w |] eqn:Hw; [| done].
    destruct (decide (type' = type)) as [-> | Hne].
    + rewrite lookup_insert_eq, Hw. by split.
    + by rewrite lookup_insert_ne.
  - destruct (IH (events_dispatch code fuel type value m).1)
      as [Hoptions Hsome].
    { intros type' w'. unfold events_dispatch.
      destruct (m !! type) as [w |] eqn:Hw; [| by apply Hm].
      pose proof (default_options_dispatch code fuel value w (Hm _ _ Hw)) as H.
      destruct (dispatch code fuel value w) as [w1 r]. simpl in *.
      destruct (decide (type' = type)) as [-> | Hne].
      - rewrite lookup_insert_eq. by intros [= <-].
      - rewrite lookup_insert_ne by done. by apply Hm. }
    split; [done |]. intros type'. rewrite Hsome.
    change (listened_types (DispatchTo type value :: steps))
      with (listened_types steps).
    assert (is_Some ((events_dispatch code fuel type value m).1 !! type') ↔
            is_Some (m !! type')) as ->; [| done].
    unfold events_dispatch.
    destruct (m !! type) as [w |] eqn:Hw; [| done].
    destruct (dispatch code fuel value w) as [w1 r]. simpl.
    destruct (decide (type' = type)) as [-> | Hne].
    + rewrite lookup_insert_eq, Hw. by split.
    + by rewrite lookup_insert_ne.
Qed.

(** X15.  An [EventsEmitter], from its construction on and whatever its
    owner and the listeners do: it has an emitter for a type exactly when
    [listen] has been called for that type, whatever has been unregistered
    since; a dispatch for a type that has never been listened to does
    nothing and throws nothing; the emitters all have the default options,
    so that [listen] never throws and never ignores a listener: it appends
    the listener to the registry of the type, which it creates empty when
    the type is new. *)
Theorem events_emitter_keeps_one_emitter_per_type code fuel steps :
  let m := events_run code fuel steps new_events_emitter in
  (∀ type, is_Some (m !! type) ↔ type ∈ listened_types steps) ∧
  (∀ type value fuel',
     type ∉ listened_types steps →
     events_dispatch code fuel' type value m = (m, Returned None)) ∧
  (∀ type w, m !! type = Some w → default_options w) ∧
  (∀ type l,
     (events_listen type l m).2 = None ∧
     ∃ w', (events_listen type l m).1 !! type = Some w' ∧
           listeners w' =
             match m !! type with
             | Some w => listeners w
             | None => []
             end ++ [l]).
Proof.
  intros m.
  destruct (events_run_emitters code fuel steps new_events_emitter)
    as [Hoptions Hsome].
  { unfold new_events_emitter. by intros type w ?%lookup_empty_Some. }
  fold m in Hoptions, Hsome.
  assert (∀ type, is_Some (m !! type) ↔ type ∈ listened_types steps) as Hdom.
  { intros type. rewrite Hsome. unfold new_events_emitter.
    rewrite lookup_empty. split; [by intros [?%is_Some_None | ?] | by right]. }
  split; [done |]. split; [| split; [done |]].
  - intros type value fuel' Hnot. unfold events_dispatch.
    destruct (m !! type) as [w |] eqn:Hw; [| done].
    destruct Hnot. apply Hdom. by rewrite Hw.
  - intros type l.
    assert (default_options match m !! type with
                            | Some source => source
                            | None => default_emitter
                            end) as (_ & Hu & _).
    { destruct (m !! type) as [w |] eqn:Hw; [by apply (Hoptions type) | done]. }
    pose proof (events_listen_lookup type type l m) as Hlookup.
    rewrite decide_True in Hlookup by done.
    unfold events_listen in *.
    destruct (listen_appends l match m !! type with
                               | Some source => source
                               | None => default_emitter
                               end) as (Hls & _ & Hnone).
    { unfold isUniqueAndDone. by rewrite Hu. }
    destruct (listen l _) as [w' r]. simpl in *. split; [done |].
    exists w'. split; [done |]. rewrite Hls. by destruct (m !! type).
Qed.

(** ** More of the undo functions: unregistering while a dispatch runs *)

Lemma no_new_call_from_note k tr0 tr e :
  (∀ id value, e ≠ Called k (fn id) value) →
  no_new_call_from k tr0 tr → no_new_call_from k tr0 (tr ++ [e]).
Proof.
  intros He H id value. rewrite calls_app, elem_of_app.
  intros [Hin | Hin]; [by apply H |].
  destruct e; simpl in Hin; try by apply elem_of_nil in Hin.
  apply list_elem_of_singleton in Hin. destruct (He id value). congruence.
Qed.

Lemma retired_loop code fuel k tr0 n i value w :
  dispatching w = true → retired k w →
  no_new_call_from k tr0 (trace w) →
  no_new_call_from k tr0
    (trace (for_each_listener code (dispatch code fuel) n i value w).1).
Proof.
  intros Hd Hretired Hcalls.
  refine (proj2 (proj2 (for_each_listener_inv code (λ _, True)
            (λ w, dispatching w = true ∧ retired k w ∧
                  no_new_call_from k tr0 (trace w))
            _ _ _ _ (dispatch code fuel) _ n i value w
            (conj Hd (conj Hretired Hcalls))))).
  - intros. apply Forall_forall. intros. apply registers_only_any.
  - intros l w0 _ (Hd0 & Hr0 & Hc0).
    split; [by rewrite (during_dispatching _ _ _ (listen_during l w0)) |].
    split; [by apply retired_listen |]. unfold no_new_call_from.
    by rewrite (during_quiet_calls _ _ (listen_during l w0)).
  - intros h w0 (Hd0 & Hr0 & Hc0). pose proof Hr0 as [Hmax _].
    split; [by rewrite (during_dispatching _ _ _ (call_undo_during h w0 Hmax)) |].
    split; [by apply retired_call_undo |]. by rewrite trace_call_undo.
  - intros j l v w0 Hj (Hd0 & Hr0 & Hc0). split; [done |]. split; [done |].
    rewrite trace_note. apply no_new_call_from_note; [| done].
    intros id v' [= ? ? ?]. subst.
    destruct Hr0 as [_ [(x & Hk & Hx) | [Hlen _]]].
    + rewrite Hj in Hk. simplify_eq. by destruct (Hx id).
    + apply lookup_lt_Some in Hj. lia.
  - intros v w0 (Hd0 & Hr0 & Hc0).
    destruct (dispatch_busy code fuel v w0 Hd0) as [-> | ->]; [done |].
    split; [done |]. split; [done |]. cbn [fst]. rewrite trace_note.
    by apply no_new_call_from_note.
Qed.

(** X16.  An undo function that runs while a dispatch is going on, as from
    a listener of the cycle, takes effect in that very cycle: the slot
    holds the tombstone at once, and the rest of the loop, wherever it
    stands and whatever the other listeners do, calls no listener from
    that slot. *)
Theorem unregistered_during_dispatch_is_skipped code fuel k h id value w :
  busy w →
  undos w !! h = Some (undo_fn (Z.of_nat k) (clearCount w) (fn id)) →
  listeners w !! k = Some (fn id) →
  listeners (call_undo h w) !! k = Some noop ∧
  ∀ n i,
    no_new_call_from k (trace w)
      (trace (for_each_listener code (dispatch code fuel) n i value
                (call_undo h w)).1).
Proof.
  intros [Hd Hmax] Hh Hk.
  pose proof (call_undo_during h w Hmax) as Hq.
  assert (listeners (call_undo h w) !! k = Some noop) as Hnoop.
  { unfold call_undo. rewrite Hh.
    destruct (decide _) as [_ | Hneg]; [| lia].
    destruct (decide _) as [Hne | _]; [done |].
    rewrite clearIfMax_id by done. simpl.
    rewrite array_set_slot by by eapply lookup_lt_Some.
    apply list_lookup_insert_eq. by eapply lookup_lt_Some. }
  split; [done |]. intros n i. apply retired_loop.
  - by rewrite (during_dispatching _ _ _ Hq).
  - split; [by rewrite (during_unsubscribeCount _ _ _ Hq) |].
    left. by exists noop.
  - rewrite trace_call_undo. by intros ? ?.
Qed.

(** X16 on an emitter with [fn 0] and [fn 5]: while [fn 0] is being
    called, the undo function of [fn 5] runs; the loop goes on and [fn 5],
    which would throw, is not called. *)
Lemma unregistered_during_dispatch_is_skipped_witness :
  let w := note (Called 0 (fn 0) 7)
             (before_listeners (emitter_with [fn 0; fn 5])) in
  let w' := (for_each_listener example_code (dispatch example_code 3) 3 1 7
               (call_undo 1 w)).1 in
  calls (trace w') = [(0, fn 0, 7); (1, noop, 7)] ∧
  listeners (call_undo 1 w) !! 1 = Some noop ∧
  ∀ n i,
    no_new_call_from 1 (trace w)
      (trace (for_each_listener example_code (dispatch example_code 3) n i 7
                (call_undo 1 w)).1).
Proof.
  intros w w'. split; [reflexivity |].
  apply (unregistered_during_dispatch_is_skipped example_code 3 1 1 5 7 w).
  - split; [reflexivity | vm_compute; lia].
  - reflexivity.
  - reflexivity.
Defined.

(** ** [AsyncEventEmitter.untilNext] *)

Lemma never_resolved_async code id fuel script w :
  (∀ id' value, Forall (registers_only (λ l, l ≠ fn id)) (code id' value)) →
  Forall (registers_only (λ l, l ≠ fn id)) script →
  (fn id ∉ listeners w) →
  (fn id ∉ listeners (run_async code fuel script w).1) ∧
  resolutions id (trace (run_async code fuel script w).1)
    = resolutions id (trace w).
Proof.
  intros Hcode Hscript Hnotin.
  refine (run_async_inv code (λ l, l ≠ fn id)
            (λ w', (fn id ∉ listeners w') ∧
                   resolutions id (trace w') = resolutions id (trace w))
            Hcode _ _ _ _ _ fuel script w Hscript (conj Hnotin eq_refl)).
  - intros l w' Hl [Hn Hr]. split.
    + destruct (listen_listeners l w') as [-> | ->]; [done |].
      rewrite elem_of_app, list_elem_of_singleton. by intros [? | ?].
    + by rewrite (during_quiet_resolutions id _ _ (listen_during l w')).
  - intros h w' [Hn Hr]. split; [by apply notin_call_undo |].
    by rewrite trace_call_undo.
  - intros i l value w' Hi [Hn Hr]. split; [done |].
    rewrite trace_note, resolutions_snoc_other; [done |].
    intros i' value' [= ? ? ?]. subst.
    apply Hn. by eapply list_elem_of_lookup_2.
  - by intros w' [Hn Hr].
  - intros w' [Hn Hr] _. split; [by apply notin_after_listeners |].
    by rewrite trace_after_listeners.
Qed.

Lemma untilNext_async_cycle code id value fuel w :
  handles_ok w → isUniqueAndDone w = false → dispatching w = false →
  (fn id ∉ listeners w) → resolutions id (trace w) = [] →
  (∀ id' v,
     Forall (λ c, registers_only (λ l, l ≠ fn id ∧ l ≠ hole) c ∧
                  undoes_only (λ h, h ≠ length (undos w)) c) (code id' v)) →
  let w1 := (listen (fn id) w).1 in
  let code1 := with_untilNext id (length (undos w)) code in
  let w2 := (async_dispatch code1 fuel value w1).1 in
  (resolutions id (trace w2) = [] ∨ resolutions id (trace w2) = [value]) ∧
  (∀ promises, (async_dispatch code1 fuel value w1).2 = Awaiting promises →
     (fn id ∉ listeners w2) ∧ resolutions id (trace w2) = [value]).
Proof.
  intros Hok Hud Hd Hnotin Hr Hcode w1 code1 w2.
  set (h := length (undos w)) in *. set (i := length (listeners w)).
  pose proof (armed_after_listen id w Hok Hud Hnotin Hr) as Harmed.
  fold h i w1 in Harmed.
  pose proof (listen_during (fn id) w) as Hq. fold w1 in Hq.
  assert (handles_ok w1) as Hok1 by by apply handles_ok_listen.
  assert (clearCount w1 = 0) as Hc1.
  { rewrite (during_clearCount _ _ _ Hq). by apply handles_ok_clearCount. }
  assert (dispatching w1 = false) as Hd1
    by by rewrite (during_dispatching _ _ _ Hq).
  assert (isUniqueAndDone w1 = false) as Hud1
    by (unfold w1; by rewrite isUniqueAndDone_listen).
  assert (resolutions id (trace w1) = []) as Hr1 by apply Harmed.
  subst w2. destruct fuel as [| fuel]; [by split; [left |] |].
  cbn [async_dispatch]. rewrite Hd1, Hud1.
  assert (awaited id h i value (before_listeners w1)) as Hstart.
  { split; [done |]. split; [by apply handles_ok_before |].
    split; [done |]. by left. }
  pose proof (awaited_async_loop code id h i value Hcode
                (λ v w, dropped (async_dispatch code1 fuel v w))
                (awaited_async_dispatch id h i value code1 fuel)
                fuel 0 [] _ Hstart) as Hend.
  fold code1 in Hend.
  destruct (for_each_listener_async code1 _ fuel 0 value []
              (before_listeners w1)) as [w2 r2] eqn:Hloop.
  cbn [fst] in Hend. destruct Hend as (_ & _ & _ & Hstate).
  assert (resolutions id (trace w2) = [] ∨
          resolutions id (trace w2) = [value]) as Hcases.
  { destruct Hstate as [(_ & _ & _ & ?) | (_ & ?)]; auto. }
  destruct r2 as [ps | e |]; cbn [fst snd]; [| by split ..].
  rewrite trace_after_listeners. split; [done |]. intros _ _.
  destruct Hstate as [(Hi & _ & _ & Hnone) | (Hn & Hone)];
    [| split; [by apply notin_after_listeners | done]].
  apply for_each_listener_async_visited in Hloop
    as (ls & (_ & Hcalls & Hnow & _) & Hlen & _);
    [| intros; by apply async_dispatch_during_busy
     | apply busy_before_listeners; by apply handles_ok_max].
  specialize (Hlen ps eq_refl (Nat.le_0_l _)). simpl in Hlen.
  destruct (ls !! i) as [l |] eqn:Hl.
  - assert (l = fn id) as ->.
    { destruct (Hnow i l Hl) as [H | H]; simpl in H; congruence. }
    assert ((i, fn id, value) ∈ calls (trace w2)) as Hin.
    { rewrite Hcalls, elem_of_app. right.
      by apply (numbered_lookup 0 value ls i). }
    apply resolutions_of_calls in Hin. rewrite Hnone in Hin.
    by apply elem_of_nil in Hin.
  - apply lookup_ge_None in Hl. apply lookup_lt_Some in Hi. lia.
Qed.

(** X18.  [AsyncEventEmitter.untilNext] is the same code.  Its listener is
    called once at most by the next dispatch; when that dispatch gets to
    its [await], no listener having thrown, the promise of [untilNext] is
    resolved with the value dispatched, whatever becomes of the promises
    the dispatch has collected and of its own; the listener has
    unregistered itself and is called never again. *)
Theorem async_untilNext_resolves_once signal id code w value fuel :
  (∀ reason, signal ≠ Some (Some reason)) →
  handles_ok w → isUniqueAndDone w = false → dispatching w = false →
  (fn id ∉ listeners w) → resolutions id (trace w) = [] →
  (∀ id' v,
     Forall (λ c, registers_only (λ l, l ≠ fn id ∧ l ≠ hole) c ∧
                  undoes_only (λ h, h ≠ length (undos w)) c) (code id' v)) →
  let w1 := (untilNext signal id code w).1.1 in
  let code1 := (untilNext signal id code w).1.2 in
  let u := (untilNext signal id code w).2 in
  let w2 := (async_dispatch code1 fuel value w1).1 in
  listeners w1 = listeners w ++ [fn id] ∧
  untilNext_promise u (trace w1) = StillPending ∧
  (untilNext_promise u (trace w2) = StillPending ∨
   untilNext_promise u (trace w2) = ResolvedWith value) ∧
  (∀ promises,
     (async_dispatch code1 fuel value w1).2 = Awaiting promises →
     untilNext_promise u (trace w2) = ResolvedWith value ∧
     (fn id ∉ listeners w2) ∧
     ∀ fuel' script,
       Forall (registers_only (λ l, l ≠ fn id)) script →
       resolutions id (trace (run_async code1 fuel' script w2).1) = [value]).
Proof.
  intros Hs Hok Hud Hd Hnotin Hr Hcode.
  rewrite (untilNext_registers signal id code w Hs Hud). cbn [fst snd].
  destruct (untilNext_async_cycle code id value fuel w
              Hok Hud Hd Hnotin Hr Hcode) as [Hcases Hawait].
  set (w1 := (listen (fn id) w).1) in *.
  set (code1 := with_untilNext id (length (undos w)) code) in *.
  set (w2 := (async_dispatch code1 fuel value w1).1) in *.
  destruct (listen_appends (fn id) w Hud) as (Hls & _).
  split; [done |].
  unfold untilNext_promise. cbn [rejection selfListener].
  split; [| split].
  - unfold w1.
    by rewrite (during_quiet_resolutions id _ _ (listen_during (fn id) w)), Hr.
  - destruct Hcases as [-> | ->]; auto.
  - intros ps Hps. destruct (Hawait ps Hps) as [Hn Hone].
    rewrite Hone. split; [done |]. split; [done |].
    intros fuel' script Hscript.
    destruct (never_resolved_async code1 id fuel' script w2) as [_ ->];
      try done.
    apply with_untilNext_registers. intros id' v.
    eapply Forall_impl; [apply Hcode |]. intros c [Hc _]. revert Hc.
    apply registers_only_weaken. by intros l [? ?].
Qed.

(** X18 on an async emitter with a listener [fn 6], which returns promise
    0: [untilNext] is called, then 5 is dispatched. *)
Lemma async_untilNext_resolves_once_witness :
  let w := emitter_with [fn 6] in
  let r := untilNext None 20 example_code w in
  let w2 := (async_dispatch r.1.2 3 5 r.1.1).1 in
  (async_dispatch r.1.2 3 5 r.1.1).2 = Awaiting [0] ∧
  completion (λ _, Pending) (Awaiting [0]) = Pending ∧
  untilNext_promise r.2 (trace w2) = ResolvedWith 5 ∧
  listeners w2 = [fn 6; noop] ∧
  ∀ fuel' script,
    Forall (registers_only (λ l, l ≠ fn 20)) script →
    resolutions 20 (trace (run_async r.1.2 fuel' script w2).1) = [5].
Proof.
  intros w r w2.
  assert (handles_ok w) as Hok.
  { apply handles_ok_run; [apply example_code_registers_functions | |
                           apply handles_ok_new].
    by repeat constructor. }
  destruct (async_untilNext_resolves_once None 20 example_code w 5 3)
    as (_ & _ & _ & Hawait).
  - done.
  - exact Hok.
  - reflexivity.
  - reflexivity.
  - vm_compute. intros Hin. repeat (apply elem_of_cons in Hin as [? | Hin]);
      try done. by apply elem_of_nil in Hin.
  - reflexivity.
  - apply example_code_keeps_out.
  - destruct (Hawait [0] eq_refl) as (Hresolved & _ & Honce).
    split; [reflexivity |]. split; [reflexivity |].
    split; [exact Hresolved |]. split; [reflexivity | exact Honce].
Defined.

(** ** More of [unique] on an [AsyncEventEmitter] *)

Lemma one_cycle_async_dispatch code fuel value w :
  one_cycle w → one_cycle (dropped (async_dispatch code fuel value w)).1.
Proof.
  intros Hw. pose proof Hw as (Hu & Hmax & Hzero & Hcalls).
  rewrite dropped_fst.
  destruct fuel as [| fuel]; [done |]. cbn [async_dispatch].
  destruct (dispatching w) eqn:Hd; [done |].
  destruct (isUniqueAndDone w) eqn:Hud; [done |].
  assert (dispatchCount w = 0) as Hcount.
  { unfold isUniqueAndDone in Hud. rewrite Hu in Hud. simpl in Hud.
    by apply negb_false_iff, Nat.eqb_eq in Hud. }
  destruct (for_each_listener_async code _ fuel 0 value []
              (before_listeners w)) as [w2 r2] eqn:Hloop.
  apply for_each_listener_async_visited in Hloop
    as (ls & (Hdur & Hc & _) & _);
    [| intros; by apply async_dispatch_during_busy
     | by apply busy_before_listeners].
  simpl in Hc. rewrite (Hzero Hcount) in Hc. simpl in Hc.
  destruct Hdur as [_ Hu2 _ Hmax2 _ Hcount2 _ _ _].
  simpl in Hu2, Hmax2, Hcount2.
  assert (one_cycle w2) as Hw2.
  { split; [congruence |]. split; [lia |]. split; [lia |]. by exists value, ls. }
  destruct r2 as [ps | e |]; cbn [fst]; [| done ..].
  destruct (after_listeners_fields w2) as (Hu3 & _ & Hcount3 & Hmax3).
  unfold one_cycle. rewrite trace_after_listeners.
  split; [congruence |]. split; [lia |]. split; [lia |].
  by exists value, ls.
Qed.

(** X19.  On an [AsyncEventEmitter] built with [unique: true] as well, all
    the calls of listeners ever made belong to one cycle: they carry one
    and the same value and come from the slots 0, 1, 2, ... in turn. *)
Theorem async_unique_emitter_runs_one_cycle code fuel script maxL after :
  ∃ value ls,
    calls (trace (run_async code fuel script (new_emitter maxL true after)).1)
      = numbered 0 value ls.
Proof.
  assert (one_cycle
            (run_async code fuel script (new_emitter maxL true after)).1)
    as (_ & _ & _ & H); [| done].
  apply (run_cmds_inv (λ _, True) one_cycle).
  - intros l w _ Hw. eapply one_cycle_during; [done | apply listen_during].
  - intros h w Hw. eapply one_cycle_during; [done |].
    apply call_undo_during. by destruct Hw as (_ & ? & _).
  - intros value w. apply one_cycle_async_dispatch.
  - apply Forall_forall. intros. apply registers_only_any.
  - split; [done |]. split; [unfold maxUnsubscribeCount; simpl; lia |].
    split; [done |]. by exists 0, [].
Qed.

(** ** The generator with its numbers and its emitter (C7) *)

Section Binary64Generator.
Import Binary64.

Lemma ltb_infinity x : PrimFloat.ltb PrimFloat.infinity x = false.
Proof.
  rewrite FloatAxioms.ltb_spec.
  change (FloatOps.Prim2SF PrimFloat.infinity)
    with (SpecFloat.S754_infinity false).
  by destruct (FloatOps.Prim2SF x) as [[] | [] | | [] m e].
Qed.

Lemma remove_expired_unexpired now expired x rest :
  Forall (λ v, PrimFloat.ltb (expirationDate v) now = true) expired →
  PrimFloat.ltb (expirationDate x) now = false →
  remove_expired now (expired ++ x :: rest) = x :: rest.
Proof.
  intros Hexpired Hx. induction Hexpired as [| v expired Hv _ IH]; simpl.
  - by rewrite Hx.
  - by rewrite Hv.
Qed.

Lemma remove_expired_expired now expired :
  Forall (λ v, PrimFloat.ltb (expirationDate v) now = true) expired →
  remove_expired now expired = [].
Proof.
  induction 1 as [| v expired Hv _ IH]; simpl; [done |]. by rewrite Hv.
Qed.

Lemma generator_listener_locals now v g :
  bufferSize (generator_listener now v g) = bufferSize g ∧
  windowTime (generator_listener now v g) = windowTime g ∧
  stack (generator_listener now v g) = stack g ∧
  created (generator_listener now v g) = created g ∧
  pendingRead (generator_listener now v g) = None.
Proof.
  destruct g as [size window vs read undo n rs].
  unfold generator_listener. destruct (buffered _); simpl.
  - destruct (PrimFloat.ltb size _); by destruct read.
  - by destruct read.
Qed.

Lemma generator_listener_queue now v g :
  buffered g = true →
  let queue :=
    values g ++ [mkPendingValue v (PrimFloat.add now (windowTime g))] in
  values (generator_listener now v g) =
    if PrimFloat.ltb (bufferSize g) (number_of_nat (length queue))
    then tail queue else queue.
Proof.
  intros Hb. destruct g as [size window vs read undo n rs].
  unfold generator_listener. rewrite Hb. simpl.
  by destruct (PrimFloat.ltb size _), read.
Qed.

Lemma generator_listener_resolves now v g read :
  pendingRead g = Some read →
  resolved (generator_listener now v g) = resolved g ++ [read].
Proof.
  intros Hread. destruct g as [size window vs read' undo n rs].
  simpl in Hread. subst read'.
  unfold generator_listener. destruct (buffered _); simpl; [| done].
  by destruct (PrimFloat.ltb size _).
Qed.

Lemma generator_listener_latest now v g read :
  buffered g = false → pendingRead g = Some read →
  values (generator_listener now v g) = [mkPendingValue v PrimFloat.infinity].
Proof.
  intros Hb Hread. unfold generator_listener. rewrite Hb, Hread. simpl.
  by rewrite Hread.
Qed.

Lemma buffered_three_values g a b c t1 t2 t3 t4 t5 :
  bufferSize g = number_of_nat 2 → windowTime g = number_of_nat 1000 →
  values g = [] →
  PrimFloat.ltb (PrimFloat.add t2 (number_of_nat 1000)) t4 = false →
  PrimFloat.ltb (PrimFloat.add t3 (number_of_nat 1000)) t5 = false →
  let g3 := generator_listener t3 c
              (generator_listener t2 b (generator_listener t1 a g)) in
  ∃ g4 g5, generator_turn None t4 g3 = (g4, Yield b) ∧
           generator_turn None t5 g4 = (g5, Yield c).
Proof.
  intros Hsize Hwindow Hempty H4 H5 g3.
  assert (∀ g, bufferSize g = number_of_nat 2 →
            windowTime g = number_of_nat 1000 → buffered g = true)
    as Hregime.
  { intros g' Hs Hw. unfold buffered. by rewrite Hs, Hw. }
  set (g1 := generator_listener t1 a g) in *.
  set (g2 := generator_listener t2 b g1) in *.
  destruct (generator_listener_locals t1 a g) as (Hs1 & Hw1 & _).
  destruct (generator_listener_locals t2 b g1) as (Hs2 & Hw2 & _).
  fold g1 in Hs1, Hw1. fold g2 in Hs2, Hw2.
  rewrite Hsize in Hs1. rewrite Hwindow in Hw1.
  rewrite Hs1 in Hs2. rewrite Hw1 in Hw2.
  pose proof (generator_listener_queue t1 a g (Hregime _ Hsize Hwindow))
    as H1.
  pose proof (generator_listener_queue t2 b g1 (Hregime _ Hs1 Hw1)) as H2.
  pose proof (generator_listener_queue t3 c g2 (Hregime _ Hs2 Hw2)) as H3.
  fold g1 in H1. fold g2 in H2. fold g3 in H3.
  rewrite Hsize, Hwindow, Hempty in H1. simpl in H1.
  change (PrimFloat.ltb (number_of_nat 2) (number_of_nat 1)) with false in H1.
  rewrite Hs1, Hw1, H1 in H2. simpl in H2.
  change (PrimFloat.ltb (number_of_nat 2) (number_of_nat 2)) with false in H2.
  rewrite Hs2, Hw2, H2 in H3. simpl in H3.
  change (PrimFloat.ltb (number_of_nat 2) (number_of_nat 3)) with true in H3.
  simpl in H3.
  eexists _, _. split.
  - unfold generator_turn. cbn [values set_values]. rewrite H3.
    cbn [remove_expired expirationDate]. rewrite H4. reflexivity.
  - unfold generator_turn.
    cbn [values set_values remove_expired expirationDate]. rewrite H5.
    reflexivity.
Qed.

(** A dispatch on an emitter whose one listener does nothing to it: the
    listener is called once, and the emitter is left as it was, but for its
    counter and its trace. *)
Lemma dispatch_alone code fuel v id w :
  listeners w = [fn id] → code id v = [] → unique w = false →
  dispatching w = false → unsubscribeCount w < maxUnsubscribeCount →
  ∃ w', dispatch code (S (S fuel)) v w = (w', Returned None) ∧
        trace w' = trace w ++ [Called 0 (fn id) v; DispatchReturned] ∧
        listeners w' = [fn id] ∧ unique w' = false ∧
        dispatching w' = false ∧
        unsubscribeCount w' = unsubscribeCount w.
Proof.
  destruct w as [maxL u after ls n cc dc d us tr]. simpl.
  intros -> Hcode -> -> Hmax.
  cbn -[Nat.leb maxUnsubscribeCount]. rewrite Hcode.
  destruct fuel; cbn -[Nat.leb maxUnsubscribeCount];
    (eexists; split; [reflexivity |]);
    unfold after_listeners;
    cbn -[Nat.leb maxUnsubscribeCount clearIfMaxUnsubscribeCountIsReached];
    rewrite clearIfMax_id by done; simpl; by rewrite <- app_assoc.
Qed.

Lemma dispatched_alone code fuel now v id g w :
  listeners w = [fn id] → unique w = false → dispatching w = false →
  unsubscribeCount w < maxUnsubscribeCount →
  ∃ w', dispatched code (S (S fuel)) now v (w, running id g)
          = (w', running id (generator_listener now v g), Returned None) ∧
        listeners w' = [fn id] ∧ unique w' = false ∧
        dispatching w' = false ∧
        unsubscribeCount w' < maxUnsubscribeCount.
Proof.
  intros Hl Hu Hd Hmax.
  destruct (dispatch_alone (with_generator (running id g) code) fuel v id w)
    as (w' & Hrun & Htrace & Hl' & Hu' & Hd' & Hmax'); try done.
  { unfold with_generator. by destruct (decide (id = id)). }
  exists w'. unfold dispatched. rewrite Hrun, Htrace, drop_app_length.
  simpl. destruct (decide (id = id)); [| done]. simpl.
  repeat split; try done. lia.
Qed.

Lemma generator_turn_yield now g g' x :
  generator_turn None now g = (g', Yield x) → pendingRead g' = pendingRead g.
Proof.
  unfold generator_turn. cbn [values set_values].
  destruct (remove_expired now (values g)); intros; by simplify_eq.
Qed.

(** C7, as stated, fails on a generator that has not been pulled yet: its
    body has not run, its listener does not exist, and the values the
    emitter dispatches reach no listener.  With [bufferSize = 2] and
    [windowTime = 1000], after 1, 2, 3 have been dispatched, at the
    instants 0, 1 and 2, the first pull, at the instant 3, registers the
    listener, finds no value and awaits. *)
Lemma values_dispatched_before_the_first_pull_are_lost :
  let a := toAsyncGenerator 0 (number_of_nat 2) (number_of_nat 1000) in
  let s1 := (dispatched example_code 3 (number_of_nat 0) 1
               (default_emitter, a)).1 in
  let s2 := (dispatched example_code 3 (number_of_nat 1) 2 s1).1 in
  let s3 := (dispatched example_code 3 (number_of_nat 2) 3 s2).1 in
  calls (trace s3.1) = [] ∧
  s3.2 = a ∧
  ∃ w g, resume None (number_of_nat 3) s3 = (w, running 0 g, Await 0) ∧
         listeners w = [fn 0] ∧ values g = [].
Proof. vm_compute. split; [done |]. split; [done |]. by eexists _, _. Qed.

(** C7, amended.  The first pull starts the generator: on an emitter that
    still takes listeners it registers the listener and awaits; on a
    [unique] emitter that has dispatched, [this.listen] registers nothing,
    or throws and so ends the generator.  Before that pull a dispatch
    changes nothing of the generator.  Once the generator is started, in
    the buffered regime, the listener appends every value it is called
    with, with the expiration date [now + windowTime], and, if that makes
    more values than [bufferSize], removes the oldest: the value appended
    is the last of the queue when [bufferSize] is 1 at least, it is
    removed at once from a queue that was empty when [bufferSize] is less
    than 1; and a queue within [bufferSize] stays within it.  A turn of the
    loop drops the values at the head that are expired, then yields the
    oldest left, or awaits a new read when none is left.  With
    [bufferSize = 2] and [windowTime = 1000], after the listener has been
    called with [a], [b], [c] on an empty queue, two turns of the loop that
    run before [b] and [c] expire yield [b], then [c]; so do two pulls
    after [a], [b], [c] have been dispatched on an emitter whose one
    listener is that of the generator. *)
Theorem buffered_regime_queue now v g :
  buffered g = true →
  let entry := mkPendingValue v (PrimFloat.add now (windowTime g)) in
  let queue := values g ++ [entry] in
  (values (generator_listener now v g) =
     if PrimFloat.ltb (bufferSize g) (number_of_nat (length queue))
     then tail queue else queue) ∧
  (PrimFloat.ltb (bufferSize g) (number_of_nat 1) = false →
   last (values (generator_listener now v g)) = Some entry) ∧
  (PrimFloat.ltb (bufferSize g) (number_of_nat 1) = true →
   values g = [] → values (generator_listener now v g) = []) ∧
  (PrimFloat.ltb (bufferSize g) (number_of_nat (length (values g))) = false →
   PrimFloat.ltb (bufferSize g)
     (number_of_nat (length (values (generator_listener now v g)))) = false) ∧
  (∀ expired x rest,
     values g = expired ++ x :: rest →
     Forall (λ v, PrimFloat.ltb (expirationDate v) now = true) expired →
     PrimFloat.ltb (expirationDate x) now = false →
     generator_turn None now g = (set_values rest g, Yield (value x))) ∧
  (Forall (λ v, PrimFloat.ltb (expirationDate v) now = true) (values g) →
   generator_turn None now g =
     (mkGenerator (bufferSize g) (windowTime g) [] (Some (created g))
        (stack g) (S (created g)) (resolved g),
      Await (created g))) ∧
  (∀ a b c t1 t2 t3 t4 t5,
     bufferSize g = number_of_nat 2 → windowTime g = number_of_nat 1000 →
     values g = [] →
     PrimFloat.ltb (PrimFloat.add t2 (number_of_nat 1000)) t4 = false →
     PrimFloat.ltb (PrimFloat.add t3 (number_of_nat 1000)) t5 = false →
     let g3 := generator_listener t3 c
                 (generator_listener t2 b (generator_listener t1 a g)) in
     ∃ g4 g5, generator_turn None t4 g3 = (g4, Yield b) ∧
              generator_turn None t5 g4 = (g5, Yield c)) ∧
  (∀ code fuel id w a b c t1 t2 t3 t4 t5,
     listeners w = [fn id] → unique w = false → dispatching w = false →
     unsubscribeCount w < maxUnsubscribeCount →
     bufferSize g = number_of_nat 2 → windowTime g = number_of_nat 1000 →
     values g = [] →
     PrimFloat.ltb (PrimFloat.add t2 (number_of_nat 1000)) t4 = false →
     PrimFloat.ltb (PrimFloat.add t3 (number_of_nat 1000)) t5 = false →
     let s1 := (dispatched code (S (S fuel)) t1 a (w, running id g)).1 in
     let s2 := (dispatched code (S (S fuel)) t2 b s1).1 in
     let s3 := (dispatched code (S (S fuel)) t3 c s2).1 in
     ∃ s4 s5, resume None t4 s3 = (s4, Yield b) ∧
              resume None t5 s4 = (s5, Yield c)) ∧
  (∀ id size window w,
     let a := toAsyncGenerator id size window in
     let g0 := mkGenerator (Math_max PrimFloat.zero size)
                 (Math_max PrimFloat.zero window) [] (Some 0)
                 (length (undos w)) 1 [] in
     (∀ code fuel,
        (dispatched code fuel now v (w, a)).1 =
          ((dispatch (with_generator a code) fuel v w).1, a)) ∧
     (isUniqueAndDone w = false →
      ∃ w', resume None now (w, a) = (w', running id g0, Await 0) ∧
            listeners w' = listeners w ++ [fn id]) ∧
     (isUniqueAndDone w = true → listenAfterUniqueDispatched w = default →
      ∃ w', resume None now (w, a) = (w', running id g0, Await 0) ∧
            listeners w' = listeners w) ∧
     (isUniqueAndDone w = true → listenAfterUniqueDispatched w = error →
      resume None now (w, a) = (w, completed, Raise EventAlreadyEmitted))).
Proof.
  intros Hb entry queue.
  pose proof (generator_listener_queue now v g Hb) as Hvalues.
  cbv zeta in Hvalues. fold entry queue in Hvalues.
  split; [done |].
  split; [| split; [| split; [| split; [| split; [| split; [| split]]]]]].
  - intros Hone. rewrite Hvalues. subst queue.
    destruct (PrimFloat.ltb _ _) eqn:Hfull; [| by rewrite last_snoc].
    destruct (values g) as [| x xs]; simpl in *; [congruence |].
    by rewrite last_snoc.
  - intros Hone Hempty. rewrite Hvalues. subst queue. rewrite Hempty.
    simpl. by rewrite Hone.
  - intros Hwithin. rewrite Hvalues.
    destruct (PrimFloat.ltb _ (number_of_nat (length queue))) eqn:Hfull;
      [| done].
    subst queue. destruct (values g) as [| x xs]; cbn [app tail]; [done |].
    by rewrite length_app, Nat.add_1_r.
  - intros expired x rest Hg Hexpired Hx. unfold generator_turn. simpl.
    by rewrite Hg, (remove_expired_unexpired now expired x rest Hexpired Hx).
  - intros Hexpired. unfold generator_turn. simpl.
    by rewrite (remove_expired_expired now _ Hexpired).
  - intros a b c t1 t2 t3 t4 t5. apply buffered_three_values.
  - intros code fuel id w a b c t1 t2 t3 t4 t5 Hl Hu Hd Hmax Hsize Hwindow
      Hempty H4 H5 s1 s2 s3.
    destruct (dispatched_alone code fuel t1 a id g w Hl Hu Hd Hmax)
      as (w1 & H1 & Hl1 & Hu1 & Hd1 & Hmax1).
    destruct (dispatched_alone code fuel t2 b id
                (generator_listener t1 a g) w1 Hl1 Hu1 Hd1 Hmax1)
      as (w2 & H2 & Hl2 & Hu2 & Hd2 & Hmax2).
    destruct (dispatched_alone code fuel t3 c id
                (generator_listener t2 b (generator_listener t1 a g)) w2
                Hl2 Hu2 Hd2 Hmax2)
      as (w3 & H3 & _).
    subst s3 s2 s1. rewrite H1. cbn [fst]. rewrite H2. cbn [fst].
    rewrite H3. cbn [fst].
    destruct (buffered_three_values g a b c t1 t2 t3 t4 t5
                Hsize Hwindow Hempty H4 H5) as (g4 & g5 & Hb4 & Hc5).
    destruct (generator_listener_locals t3 c
                (generator_listener t2 b (generator_listener t1 a g)))
      as (_ & _ & _ & _ & Hread).
    pose proof (generator_turn_yield _ _ _ _ Hb4) as Hread4.
    rewrite Hread in Hread4.
    exists (w3, running id g4), (w3, running id g5).
    unfold resume. by rewrite Hread, Hb4, Hread4, Hc5.
  - intros id size window w a g0. split; [| split; [| split]].
    + intros code fuel. unfold dispatched.
      by destruct (dispatch _ fuel v w).
    + intros Hdone. unfold resume, a, toAsyncGenerator, listen.
      rewrite Hdone. cbn. eexists. split; [reflexivity |].
      unfold checkMaxListeners. simpl. by destruct (_ <? _).
    + intros Hdone Hdefault. unfold resume, a, toAsyncGenerator, listen.
      rewrite Hdone, Hdefault. cbn. eexists. by split.
    + intros Hdone Herror. unfold resume, a, toAsyncGenerator, listen.
      by rewrite Hdone, Herror.
Qed.

(** C7 with [{ bufferSize: 2, windowTime: 1000 }] on a new emitter: a first
    pull at the instant 0 starts the generator, the values 1, 2, 3 are
    dispatched at the instants 1, 2, 3 and the generator runs on at the
    instants 4 and 5.  And with [windowTime = 1], a value that comes at the
    instant 2^53 expires at 2^53, the number nearest to 2^53 + 1. *)
Lemma buffered_regime_queue_witness :
  let a := toAsyncGenerator 0 (number_of_nat 2) (number_of_nat 1000) in
  let s0 := (resume None (number_of_nat 0) (default_emitter, a)).1 in
  let s1 := (dispatched example_code 3 (number_of_nat 1) 1 s0).1 in
  let s2 := (dispatched example_code 3 (number_of_nat 2) 2 s1).1 in
  let s3 := (dispatched example_code 3 (number_of_nat 3) 3 s2).1 in
  (∃ g, s0.2 = running 0 g ∧ buffered g = true ∧ listeners s0.1 = [fn 0]) ∧
  (let g := mkGenerator (number_of_nat 2) (number_of_nat 1) [] None 0 0 [] in
   values (generator_listener (number_of_Z (2 ^ 53)) 7 g)
     = [mkPendingValue 7 (number_of_Z (2 ^ 53))]) ∧
  ∃ s4 s5, resume None (number_of_nat 4) s3 = (s4, Yield 2) ∧
           resume None (number_of_nat 5) s4 = (s5, Yield 3).
Proof.
  intros a s0 s1 s2 s3. split; [by eexists |]. split; [reflexivity |].
  apply (proj1 (proj2 (proj2 (proj2 (proj2 (proj2 (proj2 (proj2
           (buffered_regime_queue (number_of_nat 0) 0
              (mkGenerator (number_of_nat 2) (number_of_nat 1000) []
                 (Some 0) 0 1 [])
              eq_refl))))))))
           example_code 1 0 s0.1 1 2 3 (number_of_nat 1) (number_of_nat 2)
           (number_of_nat 3) (number_of_nat 4) (number_of_nat 5));
    (reflexivity || (vm_compute; lia)).
Defined.

(** ** More of [toAsyncGenerator]: a pull that waits *)

(** X17.  A pull that finds the queue empty awaits a new read.  The next
    value the listener is called with resolves that read, once.  When the
    loop runs on, it yields that value: always in the drop-to-latest
    regime; in the buffered regime when [bufferSize] is 1 at least and the
    value has not expired by then.  In the buffered regime with a
    [bufferSize] less than 1 the listener removes the value as soon as it
    has appended it: the loop finds the queue empty and awaits again. *)
Theorem pending_pull_gets_the_next_value now t now' v g :
  values g = [] →
  let g1 := (generator_turn None now g).1 in
  let g2 := generator_listener t v g1 in
  (generator_turn None now g).2 = Await (created g) ∧
  pendingRead g1 = Some (created g) ∧
  resolved g2 = resolved g ++ [created g] ∧
  pendingRead g2 = None ∧
  (buffered g = false → (generator_turn None now' g2).2 = Yield v) ∧
  (buffered g = true →
   PrimFloat.ltb (bufferSize g) (number_of_nat 1) = false →
   PrimFloat.ltb (PrimFloat.add t (windowTime g)) now' = false →
   (generator_turn None now' g2).2 = Yield v) ∧
  (buffered g = true →
   PrimFloat.ltb (bufferSize g) (number_of_nat 1) = true →
   values g2 = [] ∧
   (generator_turn None now' g2).2 = Await (S (created g))).
Proof.
  intros Hempty g1 g2.
  assert (generator_turn None now g =
            (mkGenerator (bufferSize g) (windowTime g) [] (Some (created g))
               (stack g) (S (created g)) (resolved g),
             Await (created g))) as Hturn.
  { unfold generator_turn. simpl. by rewrite Hempty. }
  subst g2 g1. rewrite Hturn. cbn [fst snd].
  set (g1 := mkGenerator _ _ _ _ _ _ _).
  destruct (generator_listener_locals t v g1) as (_ & _ & _ & Hcreated & Hread).
  split; [done |]. split; [done |].
  split; [by apply (generator_listener_resolves t v g1 (created g)) |].
  split; [done |].
  change (buffered g) with (buffered g1).
  change (bufferSize g) with (bufferSize g1).
  change (windowTime g) with (windowTime g1).
  split; [| split].
  - intros Hb. unfold generator_turn. cbn [set_values values].
    rewrite (generator_listener_latest t v g1 (created g) Hb eq_refl).
    cbn [remove_expired expirationDate]. by rewrite ltb_infinity.
  - intros Hb Hone Hfresh. unfold generator_turn. cbn [set_values values].
    rewrite (generator_listener_queue t v g1 Hb). cbv zeta.
    change (values g1) with (@nil PendingValue). cbn [app length].
    rewrite Hone. cbn [remove_expired expirationDate]. by rewrite Hfresh.
  - intros Hb Hone.
    assert (values (generator_listener t v g1) = []) as Hnone.
    { rewrite (generator_listener_queue t v g1 Hb). cbv zeta.
      change (values g1) with (@nil PendingValue). cbn [app length].
      by rewrite Hone. }
    split; [done |]. unfold generator_turn. cbn [set_values values].
    rewrite Hnone. cbn [remove_expired snd].
    change (created (set_values [] (generator_listener t v g1)))
      with (created (generator_listener t v g1)).
    by rewrite Hcreated.
Qed.

(** X17 with [windowTime = 1000]: a pull waits at 0, 7 is dispatched at 10,
    and the loop runs on at 20.  With [bufferSize = 2] it yields 7; with
    [bufferSize = 1/2] it awaits again. *)
Lemma pending_pull_gets_the_next_value_witness :
  let time := number_of_nat in
  let half := PrimFloat.div PrimFloat.one PrimFloat.two in
  let g := generator_start 0 (number_of_nat 2) (number_of_nat 1000) in
  let g2 := generator_listener (time 10) 7 (generator_turn None (time 0) g).1 in
  let h := generator_start 0 half (number_of_nat 1000) in
  let h2 := generator_listener (time 10) 7 (generator_turn None (time 0) h).1 in
  (resolved g2 = [0] ∧ (generator_turn None (time 20) g2).2 = Yield 7) ∧
  (buffered h = true ∧ resolved h2 = [0] ∧ values h2 = [] ∧
   (generator_turn None (time 20) h2).2 = Await 1).
Proof.
  intros time half g g2 h h2.
  destruct (pending_pull_gets_the_next_value (time 0) (time 10) (time 20) 7 g
              eq_refl)
    as (_ & _ & Hresolved & _ & _ & Hyield & _).
  destruct (pending_pull_gets_the_next_value (time 0) (time 10) (time 20) 7 h
              eq_refl)
    as (_ & _ & Hresolved' & _ & _ & _ & Hlost).
  split.
  - split; [exact Hresolved |]. by apply Hyield.
  - split; [reflexivity |]. split; [exact Hresolved' |]. by apply Hlost.
Defined.

End Binary64Generator.
